(** * Employee knowledge graph loader: ingest/neo4j_loader_dynamic.py

    A shallow embedding of the spreadsheet-to-graph ingestion pipeline
    (header normalisation, field parsing, record building and the Cypher
    upsert phases) together with the properties of its specification.

    Conventions of the embedding.
    - Python [str] values are Rocq strings read as sequences of ASCII code
      points; a code point above 127 is an ordinary character that is
      neither white space, nor a digit, nor a letter.
    - A spreadsheet cell is [option string]: the sheet is read with
      [dtype=str], so a cell is a string or NaN ([None]).
    - [None] is Python's [None] / Cypher's [null]. *)

From Stdlib Require Import Ascii String NArith.
From stdpp Require Import base option list strings gmap fin_maps.

Local Open Scope string_scope.
Local Open Scope list_scope.
Local Open Scope nat_scope.

(** ** Helpers on strings *)

Module Str.

Definition chars (s : string) : list ascii := list_ascii_of_string s.
Definition of_chars (l : list ascii) : string := string_of_list_ascii l.

Definition between (lo hi : nat) (a : ascii) : bool :=
  Nat.leb lo (nat_of_ascii a) && Nat.leb (nat_of_ascii a) hi.

(** The characters [str.strip()] and the regular expression class \s treat
    as white space, below code point 128: TAB LF VT FF CR, FS GS RS US and
    the space. *)
Definition is_space (a : ascii) : bool := between 9 13 a || between 28 32 a.

Definition is_digit (a : ascii) : bool := between 48 57 a.

Definition is_upper (a : ascii) : bool := between 65 90 a.

Definition is_lower (a : ascii) : bool := between 97 122 a.

(** The class [0-9A-Za-z]. *)
Definition is_alnum (a : ascii) : bool := is_digit a || is_upper a || is_lower a.

Fixpoint drop_while (p : ascii → bool) (l : list ascii) : list ascii :=
  match l with
  | [] => []
  | a :: l' => if p a then drop_while p l' else l
  end.

(** Removal of the leading and trailing characters satisfying [p]. *)
Definition strip_by (p : ascii → bool) (l : list ascii) : list ascii :=
  rev (drop_while p (rev (drop_while p l))).

(** [s.strip()] *)
Definition strip (s : string) : string := of_chars (strip_by is_space (chars s)).

(** [re.sub(CLASS+, rep, s)] for a character class: every maximal run of
    characters of the class is replaced by [rep]. [in_run] tells that the
    previous character was in the class. *)
Fixpoint sub_runs (p : ascii → bool) (rep : list ascii) (in_run : bool)
    (l : list ascii) : list ascii :=
  match l with
  | [] => []
  | a :: l' =>
      if p a then (if in_run then sub_runs p rep true l'
                   else rep ++ sub_runs p rep true l')
      else a :: sub_runs p rep false l'
  end.

Definition lower_char (a : ascii) : ascii :=
  if is_upper a then ascii_of_nat (nat_of_ascii a + 32) else a.

(** [s.lower()] *)
Definition lower (s : string) : string := of_chars (lower_char <$> chars s).

(** [s.replace(c, "")] for a one-character [c]. *)
Definition remove_char (c : ascii) (l : list ascii) : list ascii :=
  filter (λ a, a ≠ c) l.

End Str.

(** [norm_col]: normalize column header whitespace,
    [re.sub(r"\s+", " ", c.strip())]. *)
Definition norm_col (c : string) : string :=
  Str.of_chars (Str.sub_runs Str.is_space [" "%char] false
                  (Str.strip_by Str.is_space (Str.chars c))).

(** [norm_str]: trimmed string or [None]. [None] covers both [x is None]
    and [pd.isna(x)]. *)
Definition norm_str (x : option string) : option string :=
  match x with
  | None => None
  | Some x =>
      let s := Str.strip x in
      if decide (s = "") then None else Some s
  end.

(** [snake]: snake_case a header into a property key. *)
Definition snake (s : string) : string :=
  let s1 := Str.remove_char ")"%char
              (Str.remove_char "("%char (Str.strip_by Str.is_space (Str.chars s))) in
  let s2 := Str.strip_by (λ a, bool_decide (a = "_"%char))
              (Str.sub_runs (λ a, negb (Str.is_alnum a)) ["_"%char] false s1) in
  Str.lower (Str.of_chars s2).

(** ** Calendar dates: [datetime.date(y, m, d).isoformat()] *)

Module Date.

Local Open Scope N_scope.

Definition is_leap (y : N) : bool :=
  (N.eqb (y mod 4) 0 && negb (N.eqb (y mod 100) 0)) || N.eqb (y mod 400) 0.

Definition days_in_month (y m : N) : N :=
  match m with
  | 1 | 3 | 5 | 7 | 8 | 10 | 12 => 31
  | 4 | 6 | 9 | 11 => 30
  | 2 => if is_leap y then 29 else 28
  | _ => 0
  end.

(** [date(y, m, d)] raises [ValueError] unless this holds. *)
Definition valid (y m d : N) : bool :=
  N.leb 1 y && N.leb y 9999 && N.leb 1 m && N.leb m 12
  && N.leb 1 d && N.leb d (days_in_month y m).

Definition digit (n : N) : ascii := ascii_of_N (48 + n mod 10).

Definition pad2 (n : N) : list ascii := [digit (n / 10); digit n].
Definition pad4 (n : N) : list ascii :=
  [digit (n / 1000); digit (n / 100); digit (n / 10); digit n].

(** [YYYY-MM-DD] *)
Definition isoformat (y m d : N) : string :=
  Str.of_chars (pad4 y ++ "-"%char :: pad2 m ++ "-"%char :: pad2 d).

(** [int(s)] for a string of ASCII digits. *)
Definition int_of_digits (l : list ascii) : N :=
  foldl (λ acc a, 10 * acc + (N_of_ascii a - 48)) 0 l.

Local Close Scope N_scope.

End Date.

(** ** Canonical fields and records *)

(** The canonical fields, the keys of [col_map_variants]. *)
Inductive field :=
  | emp_id | name_ | gender_ | doj_ | designation_ | manager_name | lead_name
  | primary_skill | secondary_skill | project_ | team_.

#[global] Instance field_eq_dec : EqDecision field.
Proof. solve_decision. Defined.

(** The accepted header variants of every canonical field, in the order of
    the dictionary literal. *)
Definition col_map_variants : list (field * list string) :=
  [ (emp_id, ["Emp Id"; "Emp Id "; "Employee Id"; "EmpID"]);
    (name_, ["Emp Name"; "Employee Name"; "Name"]);
    (gender_, ["Gender"]);
    (doj_, ["Date of Joining (DDMMYY)"; "Date of Joining"; "DOJ"]);
    (designation_, ["Designation"; "Title"; "Role"]);
    (manager_name, ["Reporting Manager"; "Manager"; "Reports To"]);
    (lead_name, ["Lead Reporting"; "Lead"; "Project Lead"]);
    (primary_skill, ["Primary Skill"; "Primary skill"]);
    (secondary_skill, ["Secondary Skill"; "Secondary skill"]);
    (project_, ["Current Project"; "Project"]);
    (team_, ["Team"; "Department"]) ].

(** The inverted header mapping: [inv[norm_col(v)] = key] for every variant
    [v], later assignments overwriting earlier ones. *)
Definition inv : gmap string field :=
  foldl (λ m '(key, variants), foldl (λ m v, <[norm_col v := key]> m) m variants)
        ∅ col_map_variants.

(** One record of the batch handed to the upsert engine: the dictionary
    [rec] of [build_records], with [extra] the mapping of passthrough
    properties. *)
Record rec := Rec {
  empId : option string;
  name : option string;
  gender : option string;
  doj : option string;
  designation : option string;
  managerName : option string;
  leadName : option string;
  primarySkill : option string;
  secondarySkill : option string;
  project : option string;
  team : option string;
  extra : gmap string string
}.

(** The record every row starts from. *)
Definition empty_rec : rec :=
  Rec None None None None None None None None None None None ∅.

Definition with_empId v r := Rec v (name r) (gender r) (doj r) (designation r)
  (managerName r) (leadName r) (primarySkill r) (secondarySkill r) (project r) (team r) (extra r).
Definition with_name v r := Rec (empId r) v (gender r) (doj r) (designation r)
  (managerName r) (leadName r) (primarySkill r) (secondarySkill r) (project r) (team r) (extra r).
Definition with_gender v r := Rec (empId r) (name r) v (doj r) (designation r)
  (managerName r) (leadName r) (primarySkill r) (secondarySkill r) (project r) (team r) (extra r).
Definition with_doj v r := Rec (empId r) (name r) (gender r) v (designation r)
  (managerName r) (leadName r) (primarySkill r) (secondarySkill r) (project r) (team r) (extra r).
Definition with_designation v r := Rec (empId r) (name r) (gender r) (doj r) v
  (managerName r) (leadName r) (primarySkill r) (secondarySkill r) (project r) (team r) (extra r).
Definition with_managerName v r := Rec (empId r) (name r) (gender r) (doj r) (designation r)
  v (leadName r) (primarySkill r) (secondarySkill r) (project r) (team r) (extra r).
Definition with_leadName v r := Rec (empId r) (name r) (gender r) (doj r) (designation r)
  (managerName r) v (primarySkill r) (secondarySkill r) (project r) (team r) (extra r).
Definition with_primarySkill v r := Rec (empId r) (name r) (gender r) (doj r) (designation r)
  (managerName r) (leadName r) v (secondarySkill r) (project r) (team r) (extra r).
Definition with_secondarySkill v r := Rec (empId r) (name r) (gender r) (doj r) (designation r)
  (managerName r) (leadName r) (primarySkill r) v (project r) (team r) (extra r).
Definition with_project v r := Rec (empId r) (name r) (gender r) (doj r) (designation r)
  (managerName r) (leadName r) (primarySkill r) (secondarySkill r) v (team r) (extra r).
Definition with_team v r := Rec (empId r) (name r) (gender r) (doj r) (designation r)
  (managerName r) (leadName r) (primarySkill r) (secondarySkill r) (project r) v (extra r).
Definition with_extra v r := Rec (empId r) (name r) (gender r) (doj r) (designation r)
  (managerName r) (leadName r) (primarySkill r) (secondarySkill r) (project r) (team r) v.

(** Python truthiness of a value that is a string or [None]. *)
Definition truthy (x : option string) : bool :=
  match x with
  | Some s => negb (bool_decide (s = ""))
  | None => false
  end.

(** [vs.lower() if vs else None] *)
Definition lower_skill (vs : option string) : option string :=
  match vs with
  | Some s => if truthy vs then Some (Str.lower s) else None
  | None => None
  end.

(** The sheet as pandas hands it over: the header row and, for every data
    row, its cells in column order. *)
Record dataframe := DataFrame {
  columns : list string;
  rows : list (list (option string))
}.

(** The index-style headers of [ignore_cols]. *)
Definition ignore_cols : gset string :=
  {[ "Sr No"; "S.No"; "Sr. No"; "Serial"; "Serial No" ]}.

(** The set [passthrough_cols] of [build_records]: the (normalised)
    headers that are no key of [inv] and whose normal form is not in
    [ignore_cols]. The loop over the rows below never consults it. *)
Definition passthrough_cols (cols : list string) : gset string :=
  filter (λ c, norm_col c ∉ ignore_cols) (list_to_set cols ∖ dom inv).

(** ** Date parsing and the rows of the sheet *)

Section Ingest.

(** The flexible parser of pandas is an external collaborator.
    [to_datetime dayfirst s] stands for
    [pd.to_datetime(s, dayfirst=dayfirst, errors="coerce")] followed by
    [dt.date().isoformat()]: [Some iso] when the result is not NaT, [None]
    when it is NaT or when the call raises (the exception is swallowed). *)
Variable to_datetime : bool → string → option string.

(** The loop [for dayfirst in (True, False)]: the first attempt that
    yields a date is returned. *)
Fixpoint try_flexible (flags : list bool) (s : string) : option string :=
  match flags with
  | [] => None
  | dayfirst :: flags' =>
      match to_datetime dayfirst s with
      | Some iso => Some iso
      | None => try_flexible flags' s
      end
  end.

(** [s.replace("/", "").replace("-", "").replace(".", "").replace(" ", "")] *)
Definition strip_separators (s : string) : list ascii :=
  Str.remove_char " "%char (Str.remove_char "."%char
    (Str.remove_char "-"%char (Str.remove_char "/"%char (Str.chars s)))).

(** The DDMMYY branch: separators are removed; exactly six digits are read
    as day, month and a two-digit year in the window 1970..2069. *)
Definition ddmmyy (s : string) : option string :=
  let s2 := strip_separators s in
  if Nat.eqb (length s2) 6 && forallb Str.is_digit s2 then
    let dd := Date.int_of_digits (take 2 s2) in
    let mm := Date.int_of_digits (take 2 (drop 2 s2)) in
    let yy := Date.int_of_digits (drop 4 s2) in
    let year := (if N.leb yy 69 then 2000 + yy else 1900 + yy)%N in
    if Date.valid year mm dd then Some (Date.isoformat year mm dd) else None
  else None.

(** [parse_date_flex]: ISO 'YYYY-MM-DD' or [None]. *)
Definition parse_date_flex (x : option string) : option string :=
  match x with
  | None => None
  | Some x =>
      let s := Str.strip x in
      if decide (s = "") then None
      else match try_flexible [true; false] s with
           | Some iso => Some iso
           | None => ddmmyy s
           end
  end.

(** The body of [for c, v in row.items()]: one cell of the row is stored
    into the record. *)
Definition assign (r : rec) (cv : string * option string) : rec :=
  let '(c, v) := cv in
  match inv !! norm_col c with
  | None =>
      match norm_str v with
      | Some val => with_extra (<[snake c := val]> (extra r)) r
      | None => r
      end
  | Some emp_id => with_empId (norm_str v) r
  | Some name_ => with_name (norm_str v) r
  | Some gender_ => with_gender (norm_str v) r
  | Some doj_ => with_doj (parse_date_flex v) r
  | Some designation_ => with_designation (norm_str v) r
  | Some manager_name => with_managerName (norm_str v) r
  | Some lead_name => with_leadName (norm_str v) r
  | Some primary_skill => with_primarySkill (lower_skill (norm_str v)) r
  | Some secondary_skill => with_secondarySkill (lower_skill (norm_str v)) r
  | Some project_ => with_project (norm_str v) r
  | Some team_ => with_team (norm_str v) r
  end.

(** The record of one row; [cols] are the normalised headers and
    [zip cols cells] is [row.items()]. *)
Definition build_row (cols : list string) (cells : list (option string)) : rec :=
  foldl assign empty_rec (zip cols cells).

(** [if rec["empId"] and rec["name"]] *)
Definition keep (r : rec) : bool := truthy (empId r) && truthy (name r).

(** [build_records]: the headers are normalised, [passthrough_cols] is
    computed (and not used), every row is turned into a record, and only
    the rows with both Emp Id and Emp Name are kept. *)
Definition build_records (df : dataframe) : list rec :=
  let cols := norm_col <$> columns df in
  let _passthrough_cols := passthrough_cols cols in
  filter (λ r, keep r = true) (build_row cols <$> rows df).

End Ingest.

(** ** The graph store

    A property graph: nodes and relationships are never deleted by the
    loader, so a node is identified by its position in [nodes] and a
    relationship by its position in [edges]. A property set to [null] is
    an absent key. *)

Inductive label := Employee | Skill | Project | Team.

Inductive rel_type := REPORTS_TO | LEAD_REPORTING | HAS_SKILL | WORKS_ON | WORKS_IN.

(** Property values: strings, and the dates built by [date(r.doj)] from an
    ISO string. The records carry the ISO strings [parse_date_flex]
    returns, on which [date] does not fail. *)
Inductive value := VStr (s : string) | VDate (iso : string).

#[global] Instance label_eq_dec : EqDecision label.
Proof. solve_decision. Defined.
#[global] Instance rel_type_eq_dec : EqDecision rel_type.
Proof. solve_decision. Defined.
#[global] Instance value_eq_dec : EqDecision value.
Proof. solve_decision. Defined.

Record node := Node { nlabel : label; nprops : gmap string value }.

Record edge := Edge {
  esrc : nat;
  etype : rel_type;
  edst : nat;
  eprops : gmap string value
}.

Record graph := Graph { nodes : list node; edges : list edge }.

Definition empty_graph : graph := Graph [] [].

(** The positions, from [i] on, of the elements satisfying [p]. *)
Fixpoint find_from {A} (p : A → bool) (i : nat) (l : list A) : list nat :=
  match l with
  | [] => []
  | x :: l' => if p x then i :: find_from p (S i) l' else find_from p (S i) l'
  end.

Definition find_all {A} (p : A → bool) (l : list A) : list nat := find_from p 0 l.

(** The node pattern [(:l {k: v})]. *)
Definition node_is (l : label) (k : string) (v : value) (n : node) : bool :=
  bool_decide (nlabel n = l ∧ nprops n !! k = Some v).

Definition match_nodes (l : label) (k : string) (v : value) (ns : list node) : list nat :=
  find_all (node_is l k v) ns.

(** The relationship pattern [(s)-[:t {k: v}]->(d)] between two bound
    nodes; [pat] is the optional property of the pattern. *)
Definition edge_is (s : nat) (t : rel_type) (d : nat) (pat : option (string * value))
    (e : edge) : bool :=
  bool_decide (esrc e = s ∧ etype e = t ∧ edst e = d) &&
  match pat with
  | Some (k, v) => bool_decide (eprops e !! k = Some v)
  | None => true
  end.

Definition pattern_props (pat : option (string * value)) : gmap string value :=
  match pat with Some (k, v) => {[ k := v ]} | None => ∅ end.

(** [SET x.k = v], where a [null] value removes the property. *)
Definition set_prop (k : string) (v : option value) (p : gmap string value)
    : gmap string value :=
  match v with Some v => <[k := v]> p | None => delete k p end.

(** The uniqueness constraints [SETUP_STATEMENTS] asks for, in the order
    of the list (emp_id, skill_name, project_name); the two indexes
    constrain nothing. *)
Definition constraints : list (label * string) :=
  [ (Employee, "empId"); (Skill, "name"); (Project, "name") ].

(** Which of the three constraints are in force in the store. A
    constraint is in force when it was there before the run or when its
    [CREATE CONSTRAINT] was accepted; when the statement is refused, the
    run goes on without it. *)
Record schema := Schema {
  emp_id_unique : bool;
  skill_name_unique : bool;
  project_name_unique : bool
}.

Existing Class schema.

Definition all_unique : schema := Schema true true true.
Definition none_unique : schema := Schema false false false.

Definition enforced (cs : schema) : list bool :=
  [emp_id_unique cs; skill_name_unique cs; project_name_unique cs].

(** What a [MERGE] binds: the node it created, or every node it matched. *)
Inductive merged := Created (i : nat) | Matched (ms : list nat).

Definition bound (m : merged) : list nat :=
  match m with Created i => [i] | Matched ms => ms end.

(** The statements [upsert] sends: the setup statements, by their
    position in [SETUP_STATEMENTS], and the six statements of the batch. *)
Inductive batch_statement :=
  | Employees | TeamLink | ManagerEdges | LeadEdges | Skills | Projects.

Inductive statement := Setup (i : nat) | Batch (s : batch_statement).

Definition setup_statements : list statement := Setup <$> seq 0 5.

Definition batch_statements : list batch_statement :=
  [Employees; TeamLink; ManagerEdges; LeadEdges; Skills; Projects].

(** How far the statements of the batch got: those sent, the graph they
    left, and whether the last one sent was refused. Every statement is
    its own transaction: one that is refused leaves the graph as the
    statement before it left it. *)
Record progress := Progress {
  ran : list batch_statement;
  reached : graph;
  aborted : bool
}.

(** [MERGE (s)-[:t {..}]->(d)] between bound nodes: all relationships
    matching the pattern are bound; when there is none, one is created.
    The result is the new relationship list and the bound positions. *)
Definition merge_rel (s : nat) (t : rel_type) (d : nat) (pat : option (string * value))
    (es : list edge) : list edge * list nat :=
  match find_all (edge_is s t d pat) es with
  | [] => (es ++ [Edge s t d (pattern_props pat)], [length es])
  | ws => (es, ws)
  end.

(** A clause is run on the rows of its driving table in order; a store
    error at one row aborts the statement. *)
Fixpoint fold_rows {S A} (f : S → A → option S) (s : S) (l : list A) : option S :=
  match l with
  | [] => Some s
  | x :: l' => s' ← f s x; fold_rows f s' l'
  end.

Definition str_value (x : option string) : option value := VStr <$> x.

Definition map_props (f : gmap string value → gmap string value) (n : node) : node :=
  Node (nlabel n) (f (nprops n)).

Definition map_eprops (f : gmap string value → gmap string value) (e : edge) : edge :=
  Edge (esrc e) (etype e) (edst e) (f (eprops e)).

(** [MATCH (e:Employee {empId:r.empId})]; a [null] id matches nothing. *)
Definition match_employee (ns : list node) (r : rec) : list nat :=
  match empId r with
  | Some id => match_nodes Employee "empId" (VStr id) ns
  | None => []
  end.

(** [UNWIND $rows AS r WITH r WHERE guard MATCH (e:Employee {empId:r.empId})]:
    the table of the rows passing [guard], each with an employee node it
    matches. *)
Definition matched (guard : rec → bool) (records : list rec) (ns : list node)
    : list (rec * nat) :=
  r ← filter (λ r, guard r = true) records; (r,.) <$> match_employee ns r.

(** [ON CREATE SET e.name = r.name] *)
Definition on_create_employee (r : rec) (p : gmap string value) : gmap string value :=
  set_prop "name" (str_value (name r)) p.

(** [ON MATCH SET e.name = coalesce(r.name, e.name)] *)
Definition on_match_employee (r : rec) (p : gmap string value) : gmap string value :=
  match name r with
  | Some n => <["name" := VStr n]> p
  | None => p
  end.

(** [SET e.gender = r.gender, e.designation = r.designation,
     e.doj = CASE WHEN r.doj IS NULL THEN e.doj ELSE date(r.doj) END,
     e += r.extra], the items applied from left to right. *)
Definition set_employee (r : rec) (p : gmap string value) : gmap string value :=
  let p1 := set_prop "gender" (str_value (gender r)) p in
  let p2 := set_prop "designation" (str_value (designation r)) p1 in
  let p3 := match doj r with
            | Some d => <["doj" := VDate d]> p2
            | None => p2
            end in
  (VStr <$> extra r) ∪ p3.

Definition no_create (r : rec) (v : string) (p : gmap string value) : gmap string value := p.

(** ["stub::manager::" + r.empId + "::" + r.managerName]; the sum is
    [null] when the id is. *)
Definition stub_id (prefix : string) (r : rec) (n : string) : option value :=
  id ← empId r; Some (VStr (prefix +:+ id +:+ "::" +:+ n)).

(** [ON CREATE SET mgr.empId = "stub::manager::" + r.empId + "::" + r.managerName] *)
Definition on_create_stub (prefix : string) (r : rec) (n : string)
    (p : gmap string value) : gmap string value :=
  set_prop "empId" (stub_id prefix r n) p.

(** [SET w.since = coalesce(w.since, CASE WHEN r.doj IS NULL THEN NULL
    ELSE date(r.doj) END)] for one row [(r, w)]. *)
Definition coalesce_since (r : rec) (p : gmap string value) : gmap string value :=
  match p !! "since" with
  | Some _ => p
  | None => set_prop "since" (VDate <$> doj r) p
  end.

Definition set_since (es : list edge) (b : rec * nat) : list edge :=
  alter (map_eprops (coalesce_since b.1)) b.2 es.

(** ** The upsert statements

    Every statement of [upsert] is one Cypher query over [$rows]. A query
    is run clause by clause: a clause is applied to every row of the table
    the preceding clause produced, and sees the graph as the preceding
    clause left it. Within a clause the rows are taken in order, a row
    seeing the writes of the rows before it. The statements are run
    against the constraints [cs] in force. *)

Section Store.

Context {cs : schema}.

(** A write of node [n], whose properties were [old] before ([∅] for a new
    node), is refused when it gives a property under a constraint in force
    a value that another node of the label already has. *)
Definition violates (ns : list node) (old : gmap string value) (n : node) : bool :=
  existsb (λ '(on, (l, k)),
    on && (bool_decide (nlabel n = l) &&
    match nprops n !! k with
    | Some v => negb (bool_decide (old !! k = Some v))
                && negb (bool_decide (match_nodes l k v ns = []))
    | None => false
    end)) (zip (enforced cs) constraints).

(** Node creation; [None] is the store's constraint error. *)
Definition create_node (ns : list node) (n : node) : option (list node) :=
  if violates ns ∅ n then None else Some (ns ++ [n]).

(** An update of the properties of node [i]. *)
Definition update_node (ns : list node) (i : nat)
    (f : gmap string value → gmap string value) : option (list node) :=
  match ns !! i with
  | Some n =>
      let n' := Node (nlabel n) (f (nprops n)) in
      if violates ns (nprops n) n' then None else Some (<[i := n']> ns)
  | None => Some ns
  end.

(** [MERGE (x:l {k: v}) ON CREATE SET ...]: all nodes matching the pattern
    are bound; when there is none, one is created with the property of the
    pattern and [on_create] is applied to it. *)
Definition merge_node (l : label) (k : string) (v : value)
    (on_create : gmap string value → gmap string value) (ns : list node)
    : option (list node * merged) :=
  match match_nodes l k v ns with
  | [] => ns' ← create_node ns (Node l (on_create {[ k := v ]}));
          Some (ns', Created (length ns))
  | ms => Some (ns, Matched ms)
  end.

(** *** Employees and their extra properties *)

(** [MERGE (e:Employee {empId:r.empId}) ON CREATE .. ON MATCH ..] for one
    row; the table of bindings [(r, e)] grows by the nodes bound. A [null]
    empId is a store error (a node cannot be merged on a null property).
    [Employee.name] carries no constraint, so the update on match cannot
    be refused. *)
Definition merge_employee (st : list node * list (rec * nat)) (r : rec)
    : option (list node * list (rec * nat)) :=
  let '(ns, bs) := st in
  id ← empId r;
  '(ns1, m) ← merge_node Employee "empId" (VStr id) (on_create_employee r) ns;
  let ns2 := match m with
             | Created _ => ns1
             | Matched ms =>
                 foldl (λ ns i, alter (map_props (on_match_employee r)) i ns) ns1 ms
             end in
  Some (ns2, bs ++ ((r,.) <$> bound m)).

(** The [SET] clause for one row [(r, e)]. The keys of [r.extra] become
    property keys: the store refuses the empty key, which is what [snake]
    makes of a header without a letter or a digit. *)
Definition set_employee_row (ns : list node) (b : rec * nat) : option (list node) :=
  if decide (extra b.1 !! "" = None) then update_node ns b.2 (set_employee b.1)
  else None.

Definition phase_employees (records : list rec) (g : graph) : option graph :=
  '(ns1, bs) ← fold_rows merge_employee (nodes g, []) records;
  ns2 ← fold_rows set_employee_row ns1 bs;
  Some (Graph ns2 (edges g)).

(** *** Linking an employee to a node merged by name *)

Section Link.

(** [target r] is the name the node is merged on, [l] its label,
    [on_create r name] the [ON CREATE SET] of the node, [t] the type of the
    relationship and [pat] the property of its pattern. *)
Variable target : rec → option string.
Variable l : label.
Variable on_create : rec → string → gmap string value → gmap string value.
Variable t : rel_type.
Variable pat : option (string * value).

(** [MERGE (x:l {name: target})] for one row [(r, e)]; the table
    [(r, e, x)] grows by the nodes bound. *)
Definition merge_target (st : list node * list (rec * nat * nat)) (b : rec * nat)
    : option (list node * list (rec * nat * nat)) :=
  let '(ns, ts) := st in
  match target b.1 with
  | Some v =>
      '(ns', m) ← merge_node l "name" (VStr v) (on_create b.1 v) ns;
      Some (ns', ts ++ ((b,.) <$> bound m))
  | None => Some (ns, ts)
  end.

(** [MERGE (e)-[w:t]->(x)] for one row [(r, e, x)]; the table [(r, w)]
    grows by the relationships bound. *)
Definition merge_link (st : list edge * list (rec * nat)) (b : rec * nat * nat)
    : list edge * list (rec * nat) :=
  let '(es, ws) := st in
  let '(es', bound_ws) := merge_rel b.1.2 t b.2 pat es in
  (es', ws ++ ((b.1.1,.) <$> bound_ws)).

(** The two [MERGE] clauses after the [MATCH]: first every row merges its
    target node, then every row merges its relationship. *)
Definition link (bs : list (rec * nat)) (g : graph) : option (graph * list (rec * nat)) :=
  '(ns, ts) ← fold_rows merge_target (nodes g, []) bs;
  let '(es, ws) := foldl merge_link (edges g, []) ts in
  Some (Graph ns es, ws).

(** [FOREACH (_ IN CASE WHEN target IS NULL THEN [] ELSE [1] END |
      MERGE (x:l {name: target}) MERGE (e)-[:t]->(x))]
    for one row [(r, e)]: both merges are done for the row before the next
    row is taken. *)
Definition foreach_link (g : graph) (b : rec * nat) : option graph :=
  match target b.1 with
  | Some v =>
      '(ns', m) ← merge_node l "name" (VStr v) (on_create b.1 v) (nodes g);
      Some (Graph ns' (foldl (λ es x, (merge_rel b.2 t x pat es).1) (edges g) (bound m)))
  | None => Some g
  end.

End Link.

(** *** Optional team link *)

Definition phase_team (records : list rec) (g : graph) : option graph :=
  fst <$> link team Team no_create WORKS_IN None
            (matched (λ r, truthy (team r)) records (nodes g)) g.

(** *** Manager and lead edges *)

Definition phase_manager (records : list rec) (g : graph) : option graph :=
  fst <$> link managerName Employee (on_create_stub "stub::manager::") REPORTS_TO None
            (matched (λ r, truthy (managerName r)) records (nodes g)) g.

Definition phase_lead (records : list rec) (g : graph) : option graph :=
  fst <$> link leadName Employee (on_create_stub "stub::lead::") LEAD_REPORTING None
            (matched (λ r, truthy (leadName r)) records (nodes g)) g.

(** *** Skills: two [FOREACH] clauses after the [MATCH] *)

Definition phase_skills (records : list rec) (g : graph) : option graph :=
  let bs := matched (λ _, true) records (nodes g) in
  g1 ← fold_rows (foreach_link primarySkill Skill no_create HAS_SKILL
                    (Some ("type", VStr "primary"))) g bs;
  fold_rows (foreach_link secondarySkill Skill no_create HAS_SKILL
               (Some ("type", VStr "secondary"))) g1 bs.

(** *** Projects *)

Definition phase_projects (records : list rec) (g : graph) : option graph :=
  '(g1, ws) ← link project Project no_create WORKS_ON None
                (matched (λ r, truthy (project r)) records (nodes g)) g;
  Some (Graph (nodes g1) (foldl set_since (edges g1) ws)).

(** *** The statements of the batch *)

(** The effect of one statement of the batch on the graph; [None] is the
    exception of the store. *)
Definition run_statement (records : list rec) (s : batch_statement) (g : graph)
    : option graph :=
  match s with
  | Employees => phase_employees records g
  | TeamLink => phase_team records g
  | ManagerEdges => phase_manager records g
  | LeadEdges => phase_lead records g
  | Skills => phase_skills records g
  | Projects => phase_projects records g
  end.

(** The statements are sent in order; the first one to be refused aborts
    the run. *)
Fixpoint run_statements (records : list rec) (stmts : list batch_statement)
    (done : list batch_statement) (g : graph) : progress :=
  match stmts with
  | [] => Progress done g false
  | s :: stmts' =>
      match run_statement records s g with
      | Some g' => run_statements records stmts' (done ++ [s]) g'
      | None => Progress (done ++ [s]) g true
      end
  end.

End Store.

(** ** The store and the setup statements *)

(** The store a run talks to: the graph, the constraints in force, and
    the setup statements (by their position in [SETUP_STATEMENTS]) that
    the store refuses to this user whatever the data, for lack of
    privilege. *)
Record database := Database {
  content :> graph;
  in_force : schema;
  denied : list nat
}.

(** The values of property [k] on the nodes labelled [l]. *)
Definition key_values (l : label) (k : string) (ns : list node) : list value :=
  omap (λ n, if decide (nlabel n = l) then nprops n !! k else None) ns.

(** Two nodes of the label share a value of the property: a uniqueness
    constraint on it cannot be created. *)
Definition duplicated (l : label) (k : string) (ns : list node) : bool :=
  negb (bool_decide (NoDup (key_values l k ns))).

Definition add_constraint (i : nat) (cs : schema) : schema :=
  match i with
  | 0 => Schema true (skill_name_unique cs) (project_name_unique cs)
  | 1 => Schema (emp_id_unique cs) true (project_name_unique cs)
  | 2 => Schema (emp_id_unique cs) (skill_name_unique cs) true
  | _ => cs
  end.

(** [s.run(stmt)] for the [i]-th setup statement; [None] is the exception.
    The statement is refused when the user may not run it. A
    [CREATE CONSTRAINT .. IF NOT EXISTS] does nothing when the constraint
    is in force, is refused when two nodes share a value, and puts the
    constraint in force otherwise. A [CREATE INDEX] changes nothing the
    other statements see. *)
Definition run_setup (i : nat) (d : database) : option database :=
  if bool_decide (i ∈ denied d) then None
  else match constraints !! i with
       | Some (l, k) =>
           if nth i (enforced (in_force d)) false then Some d
           else if duplicated l k (nodes d) then None
           else Some (Database (content d) (add_constraint i (in_force d)) (denied d))
       | None => Some d
       end.

(** ** [upsert] *)

Inductive message :=
  | NoValidRowsNothingToImport   (* "No valid rows (need Emp Id and Emp Name). Nothing to import." *)
  | NoValidRowsFound             (* "No valid rows found (need both 'Emp Id' and 'Emp Name'). ..." *)
  | CouldNotOpenSheet            (* "Could not open sheet ..." and the tip *)
  | ExcelFileNotFound            (* "Excel file not found: ..." *)
  | SetupNotice (i : nat)        (* "Setup statement notice: <the i-th statement> -> <the error>" *)
  | Upserted (n : nat).          (* "Upserted n employees (plus relationships)." *)

(** What a run of [upsert] leaves behind: the messages printed, the
    statements sent to the store, the store, and whether a statement of
    the batch raised. *)
Record outcome := Outcome {
  printed : list message;
  sent : list statement;
  store : database;
  raised : bool
}.

(** The body of [for stmt in SETUP_STATEMENTS]: the statement is tried;
    when the store refuses it, the notice is printed and the run goes
    on. *)
Definition try_setup (o : outcome) (i : nat) : outcome :=
  match run_setup i (store o) with
  | Some d => Outcome (printed o) (sent o ++ [Setup i]) d false
  | None => Outcome (printed o ++ [SetupNotice i]) (sent o ++ [Setup i]) (store o) false
  end.

(** The six statements of the batch, run against the constraints the
    setup statements left in force. *)
Definition run_batch (records : list rec) (o : outcome) : outcome :=
  let d := store o in
  let p := run_statements (cs := in_force d) records batch_statements [] d in
  Outcome (printed o) (sent o ++ (Batch <$> ran p))
          (Database (reached p) (in_force d) (denied d)) (aborted p).

Definition upsert (d : database) (records : list rec) : outcome :=
  match records with
  | [] => Outcome [NoValidRowsNothingToImport] [] d false
  | _ => run_batch records (foldl try_setup (Outcome [] [] d false) (seq 0 5))
  end.

(** ** [main] *)

(** What [pd.read_excel] does: it raises [ValueError] (the sheet cannot be
    opened), raises [FileNotFoundError], or returns the sheet. *)
Inductive excel := SheetError | FileNotFound | Sheet (df : dataframe).

(** The end of the program: what it printed on the standard output, its
    exit status, the statements it sent and the store it leaves. An
    exception of the store that [upsert] does not catch ends the process,
    after [driver.close()], with status 1 like the two [sys.exit(1)]; its
    traceback goes to the standard error. *)
Record exit := Exit {
  stdout : list message;
  code : nat;
  statements : list statement;
  db : database
}.

Section Main.

Variable to_datetime : bool → string → option string.

Definition main (x : excel) (d : database) : exit :=
  match x with
  | SheetError => Exit [CouldNotOpenSheet] 1 [] d
  | FileNotFound => Exit [ExcelFileNotFound] 1 [] d
  | Sheet df =>
      let records := build_records to_datetime df in
      match records with
      | [] => Exit [NoValidRowsFound] 0 [] d
      | _ =>
          let o := upsert d records in
          if raised o then Exit (printed o) 1 (sent o) (store o)
          else Exit (printed o ++ [Upserted (length records)]) 0 (sent o) (store o)
      end
  end.

End Main.

(** The empty store of a user who may run every statement, and the same
    store for a user who may not create constraints. *)
Definition empty_store : database := Database empty_graph none_unique [].
Definition unguarded_store : database := Database empty_graph none_unique [0; 1; 2].


(** A sample of the external parser, on which the statements below are
    exercised: it reads the ISO form YYYY-MM-DD of a calendar date and
    nothing else, whatever [dayfirst]. *)
Definition strict_iso (dayfirst : bool) (s : string) : option string :=
  match Str.chars s with
  | [y1; y2; y3; y4; sep1; m1; m2; sep2; d1; d2] =>
      if forallb Str.is_digit [y1; y2; y3; y4; m1; m2; d1; d2]
         && bool_decide (sep1 = "-"%char) && bool_decide (sep2 = "-"%char)
         && Date.valid (Date.int_of_digits [y1; y2; y3; y4])
              (Date.int_of_digits [m1; m2]) (Date.int_of_digits [d1; d2])
      then Some s else None
  | _ => None
  end.

Example norm_col_ex : norm_col "  Emp   Id " = "Emp Id".
Proof. reflexivity. Qed.
Example snake_ex : snake "Blood Group!" = "blood_group".
Proof. reflexivity. Qed.
Example snake_ex2 : snake " (Total) Exp -- Yrs" = "total_exp_yrs".
Proof. reflexivity. Qed.
Example ddmmyy_ex : ddmmyy "15/08.24" = Some "2024-08-15".
Proof. reflexivity. Qed.
Example ddmmyy_ex2 : ddmmyy "310224" = None.
Proof. reflexivity. Qed.

Example build_ex :
  build_records (λ _ _, None)
    (DataFrame ["Emp  Id"; "Name"; "Primary skill"; "Blood Group!"; "DOJ"]
       [[Some "E1"; Some " Alice "; Some "Python "; Some "O+"; Some "150824"];
        [None; Some "Nobody"; None; None; None]])
  = [Rec (Some "E1") (Some "Alice") None (Some "2024-08-15") None None None
         (Some "python") None None None {[ "blood_group" := "O+" ]}].
Proof. vm_compute. reflexivity. Qed.

(** ** Properties of the field parser *)

Lemma norm_str_nonempty x s : norm_str x = Some s → s ≠ "".
Proof.
  destruct x as [x|]; simpl; [|done].
  destruct (decide (Str.strip x = "")) as [|Hne]; [done|].
  by intros [= <-].
Qed.

Lemma truthy_is_Some x : (∀ s, x = Some s → s ≠ "") → truthy x = true ↔ x ≠ None.
Proof.
  intros Hx. destruct x as [s|]; simpl; [|done].
  specialize (Hx s eq_refl). rewrite bool_decide_eq_false_2 by done. done.
Qed.

Section Parser.

Variable to_datetime : bool → string → option string.

(** The order of the attempts: day first, then month first, then DDMMYY. *)
Lemma parse_date_flex_order x :
  Str.strip x ≠ "" →
  parse_date_flex to_datetime (Some x) =
    match to_datetime true (Str.strip x) with
    | Some iso => Some iso
    | None =>
        match to_datetime false (Str.strip x) with
        | Some iso => Some iso
        | None => ddmmyy (Str.strip x)
        end
    end.
Proof.
  intros Hne. unfold parse_date_flex.
  destruct (decide (Str.strip x = "")); [done|]. simpl.
  by repeat case_match.
Qed.

End Parser.

(** The value of a decimal digit character. *)
Definition digit_value (a : ascii) : N := (N_of_ascii a - 48)%N.

(** The DDMMYY reading in the words of the specification: the year
    window, and [null] for a day or month out of range. *)
Definition ddmmyy_reading (dd mm yy : N) : option string :=
  let year := (if decide (yy ≤ 69) then 2000 + yy else 1900 + yy)%N in
  if decide (1 ≤ mm ≤ 12 ∧ 1 ≤ dd ≤ Date.days_in_month year mm)%N
  then Some (Date.isoformat year mm dd) else None.

Lemma valid_window yy mm dd :
  (yy < 100)%N →
  let year := (if decide (yy ≤ 69) then 2000 + yy else 1900 + yy)%N in
  Date.valid year mm dd = true ↔ (1 ≤ mm ≤ 12 ∧ 1 ≤ dd ≤ Date.days_in_month year mm)%N.
Proof.
  intros Hyy year. unfold Date.valid.
  rewrite !andb_true_iff, !N.leb_le.
  assert (1 ≤ year ≤ 9999)%N by (unfold year; case_decide; lia).
  tauto.
Qed.

Lemma digit_value_lt a : Str.is_digit a = true → (digit_value a < 10)%N.
Proof.
  unfold Str.is_digit, Str.between, digit_value.
  rewrite andb_true_iff, !Nat.leb_le.
  intros [H1 H2]. unfold nat_of_ascii in *. lia.
Qed.

Lemma ddmmyy_six_digits s a b c d e f :
  strip_separators s = [a; b; c; d; e; f] →
  forallb Str.is_digit [a; b; c; d; e; f] = true →
  ddmmyy s = ddmmyy_reading (10 * digit_value a + digit_value b)
                            (10 * digit_value c + digit_value d)
                            (10 * digit_value e + digit_value f).
Proof.
  intros Hs Hd. unfold ddmmyy. rewrite Hs, Hd. cbn [length Nat.eqb andb take drop].
  unfold Date.int_of_digits. cbn [foldl]. fold (digit_value a) (digit_value b)
    (digit_value c) (digit_value d) (digit_value e) (digit_value f).
  rewrite !N.mul_0_r, !N.add_0_l.
  cbn [forallb] in Hd. rewrite !andb_true_iff in Hd.
  destruct Hd as (Ha & Hb & Hc & Hd & He & Hf & _).
  apply digit_value_lt in Ha, Hb, Hc, Hd, He, Hf.
  set (dd := (10 * digit_value a + digit_value b)%N).
  set (mm := (10 * digit_value c + digit_value d)%N).
  set (yy := (10 * digit_value e + digit_value f)%N).
  assert (Hyy : (yy < 100)%N) by (unfold yy; lia).
  pose proof (valid_window yy mm dd Hyy) as Hv. cbv zeta in Hv.
  unfold ddmmyy_reading.
  replace (if (yy <=? 69)%N then (2000 + yy)%N else (1900 + yy)%N)
    with (if decide (yy ≤ 69)%N then (2000 + yy)%N else (1900 + yy)%N).
  2:{ case_decide as Hle; [apply N.leb_le in Hle|apply N.leb_nle in Hle]; by rewrite Hle. }
  cbv zeta.
  set (year := if decide (yy ≤ 69)%N then (2000 + yy)%N else (1900 + yy)%N) in *.
  destruct (Date.valid year mm dd) eqn:Hval;
    destruct (decide (1 ≤ mm ≤ 12 ∧ 1 ≤ dd ≤ Date.days_in_month year mm)%N) as [Hin|Hout];
    try done.
  - destruct Hout. by apply Hv.
  - apply Hv in Hin. congruence.
Qed.

Lemma ddmmyy_otherwise s :
  ¬ (length (strip_separators s) = 6 ∧ forallb Str.is_digit (strip_separators s) = true) →
  ddmmyy s = None.
Proof.
  intros H. unfold ddmmyy.
  destruct (Nat.eqb _ 6) eqn:Hlen; [|done].
  destruct (forallb _ _) eqn:Hd; [|done].
  apply Nat.eqb_eq in Hlen. tauto.
Qed.

(** The separators the DDMMYY branch removes. *)
Definition separators : list ascii := ["/"; "-"; "."; " "]%char.

(** The DDMMYY branch in the words of the specification: the separators
    are stripped; when exactly six digits remain they are read as day,
    month and two-digit year. *)
Definition six_digit_reading (s : string) : option string :=
  match filter (λ a, a ∉ separators) (Str.chars s) with
  | [a; b; c; d; e; f] =>
      if forallb Str.is_digit [a; b; c; d; e; f]
      then ddmmyy_reading (10 * digit_value a + digit_value b)
                          (10 * digit_value c + digit_value d)
                          (10 * digit_value e + digit_value f)
      else None
  | _ => None
  end.

Lemma strip_separators_filter s :
  strip_separators s = filter (λ a, a ∉ separators) (Str.chars s).
Proof.
  unfold strip_separators, Str.remove_char, separators.
  induction (Str.chars s) as [|a l IH]; [done|].
  rewrite !filter_cons.
  destruct (decide (a ∉ ["/"; "-"; "."; " "]%char)) as [Hin|Hin].
  - rewrite !decide_True; [|set_solver..].
    rewrite !filter_cons, !decide_True; [|set_solver..].
    rewrite !filter_cons, !decide_True; [|set_solver..].
    rewrite !filter_cons, !decide_True; [|set_solver..].
    by rewrite IH.
  - apply dec_stable in Hin.
    destruct (decide (a = "/"%char)) as [->|H1]; [done|].
    rewrite (decide_True (P := a ≠ "/"%char)) by done.
    rewrite !filter_cons.
    destruct (decide (a = "-"%char)) as [->|H2]; [done|].
    rewrite (decide_True (P := a ≠ "-"%char)) by done.
    rewrite !filter_cons.
    destruct (decide (a = "."%char)) as [->|H3]; [done|].
    rewrite (decide_True (P := a ≠ "."%char)) by done.
    rewrite !filter_cons.
    destruct (decide (a = " "%char)) as [->|H4]; [done|].
    repeat (apply elem_of_cons in Hin as [?|Hin]; [done|]).
    by apply elem_of_nil in Hin.
Qed.

(** The DDMMYY branch of the code is the reading of the specification. *)
Lemma ddmmyy_six_digit_reading s : ddmmyy s = six_digit_reading s.
Proof.
  unfold six_digit_reading. rewrite <- strip_separators_filter.
  destruct (strip_separators s) as [|a [|b [|c [|d [|e [|f [|g l]]]]]]] eqn:Hs;
    try (apply ddmmyy_otherwise; rewrite Hs; by intros [? _]).
  destruct (forallb Str.is_digit [a; b; c; d; e; f]) eqn:Hd.
  - by apply ddmmyy_six_digits.
  - apply ddmmyy_otherwise. rewrite Hs, Hd. by intros [_ ?].
Qed.

Section ParserOrder.

Variable to_datetime : bool → string → option string.

(** C3, on the code as it is. [parse_date_flex] returns the first date
    the flexible parser of pandas yields, tried day first and then month
    first, and reaches the DDMMYY branch only when both attempts yield
    none; that branch strips the four separators and reads exactly six
    digits in the window 2000+YY for YY <= 69 and 1900+YY otherwise, with
    [null] for a day or month out of range and for anything else. The
    values the specification gives for "150824", "010170" and "010169" are those
    of the DDMMYY branch, which gives nothing for "1987-05-02": on each of
    the four cells the code returns what the flexible parser makes of it
    day first, whenever that is a date. *)
Theorem parse_date_flex_fallback_preempted :
  (∀ x, Forall (λ a, nat_of_ascii a < 128) (Str.chars x) →
     parse_date_flex to_datetime (Some x) =
       if decide (Str.strip x = "") then None
       else match to_datetime true (Str.strip x) with
            | Some iso => Some iso
            | None =>
                match to_datetime false (Str.strip x) with
                | Some iso => Some iso
                | None => six_digit_reading (Str.strip x)
                end
            end) ∧
  parse_date_flex to_datetime None = None ∧
  parse_date_flex to_datetime (Some "") = None ∧
  six_digit_reading "150824" = Some "2024-08-15" ∧
  six_digit_reading "010170" = Some "1970-01-01" ∧
  six_digit_reading "010169" = Some "2069-01-01" ∧
  six_digit_reading "15/08-24" = Some "2024-08-15" ∧
  six_digit_reading "310224" = None ∧
  six_digit_reading "151324" = None ∧
  six_digit_reading "1987-05-02" = None ∧
  (∀ s iso, s ∈ ["150824"; "010170"; "010169"; "1987-05-02"] →
     to_datetime true s = Some iso →
     parse_date_flex to_datetime (Some s) = Some iso) ∧
  (∀ s, s ∈ ["150824"; "010170"; "010169"] →
     to_datetime true s = None → to_datetime false s = None →
     parse_date_flex to_datetime (Some s) = six_digit_reading s) ∧
  (to_datetime true "1987-05-02" = None → to_datetime false "1987-05-02" = None →
     parse_date_flex to_datetime (Some "1987-05-02") = None).
Proof.
  assert (Hcell : ∀ s, Str.strip s = s → s ≠ "" →
            parse_date_flex to_datetime (Some s) =
              match to_datetime true s with
              | Some iso => Some iso
              | None => match to_datetime false s with
                        | Some iso => Some iso
                        | None => six_digit_reading s
                        end
              end).
  { intros s Hs Hne. rewrite parse_date_flex_order by by rewrite Hs.
    rewrite Hs, ddmmyy_six_digit_reading. by repeat case_match. }
  split_and!; try reflexivity.
  - intros x _. unfold parse_date_flex. case_decide; [done|]. cbn.
    rewrite ddmmyy_six_digit_reading. by repeat case_match.
  - intros s iso Hs Hday.
    rewrite Hcell, Hday; [done| |].
    all: repeat (apply elem_of_cons in Hs as [->|Hs]; [done|]);
         by apply elem_of_nil in Hs.
  - intros s Hs Hday Hmonth.
    rewrite Hcell, Hday, Hmonth; [done| |].
    all: repeat (apply elem_of_cons in Hs as [->|Hs]; [done|]);
         by apply elem_of_nil in Hs.
  - intros Hday Hmonth. by rewrite Hcell, Hday, Hmonth.
Qed.

End ParserOrder.

(** ** Properties of the record builder *)

Section Builder.

Variable to_datetime : bool → string → option string.

(** The id and the name of a record are [None] or a non-empty string. *)
Definition clean (r : rec) : Prop :=
  (∀ s, empId r = Some s → s ≠ "") ∧ (∀ s, name r = Some s → s ≠ "").

Lemma assign_clean r cv : clean r → clean (assign to_datetime r cv).
Proof.
  intros [Hid Hname]. destruct cv as [c v]. unfold assign.
  destruct (inv !! norm_col c) as [[]|]; try (split; simpl; done).
  - split; simpl; [apply norm_str_nonempty|done].
  - split; simpl; [done|apply norm_str_nonempty].
  - destruct (norm_str v); by split.
Qed.

Lemma foldl_assign_clean items r :
  clean r → clean (foldl (assign to_datetime) r items).
Proof.
  revert r. induction items as [|cv items IH]; intros r Hr; cbn [foldl]; [done|].
  by apply IH, assign_clean.
Qed.

Lemma build_row_clean cols cells : clean (build_row to_datetime cols cells).
Proof. apply foldl_assign_clean. by split. Qed.

Lemma keep_clean r : clean r → keep r = true ↔ empId r ≠ None ∧ name r ≠ None.
Proof.
  intros [Hid Hname]. unfold keep.
  by rewrite andb_true_iff, !truthy_is_Some.
Qed.

(** A cell under a header that is no id header leaves the id alone, and
    likewise for the name. *)
Lemma assign_other_empId r c v :
  inv !! norm_col c ≠ Some emp_id → empId (assign to_datetime r (c, v)) = empId r.
Proof.
  intros Hc. unfold assign.
  destruct (inv !! norm_col c) as [[]|]; try done.
  by destruct (norm_str v).
Qed.

Lemma assign_other_name r c v :
  inv !! norm_col c ≠ Some name_ → name (assign to_datetime r (c, v)) = name r.
Proof.
  intros Hc. unfold assign.
  destruct (inv !! norm_col c) as [[]|]; try done.
  by destruct (norm_str v).
Qed.

Lemma foldl_assign_other_empId cols cells r :
  Forall (λ c, inv !! norm_col c ≠ Some emp_id) cols →
  empId (foldl (assign to_datetime) r (zip cols cells)) = empId r.
Proof.
  intros Hcols. revert cells r.
  induction Hcols as [|c cols Hc _ IH]; intros [|v cells] r;
    cbn [zip zip_with foldl]; try done.
  by rewrite IH, assign_other_empId.
Qed.

Lemma foldl_assign_other_name cols cells r :
  Forall (λ c, inv !! norm_col c ≠ Some name_) cols →
  name (foldl (assign to_datetime) r (zip cols cells)) = name r.
Proof.
  intros Hcols. revert cells r.
  induction Hcols as [|c cols Hc _ IH]; intros [|v cells] r;
    cbn [zip zip_with foldl]; try done.
  by rewrite IH, assign_other_name.
Qed.

(** The id of a record is the normalised cell of the last id column of
    the row, and its name the normalised cell of the last name column. *)
Lemma build_row_empId cols1 cells1 c v cols2 cells2 :
  length cols1 = length cells1 →
  inv !! norm_col c = Some emp_id →
  Forall (λ c, inv !! norm_col c ≠ Some emp_id) cols2 →
  empId (build_row to_datetime (cols1 ++ c :: cols2) (cells1 ++ v :: cells2)) = norm_str v.
Proof.
  intros Hlen Hc Hcols. unfold build_row.
  rewrite zip_with_app by done. rewrite foldl_app. cbn [zip zip_with foldl].
  rewrite foldl_assign_other_empId by done.
  unfold assign. by rewrite Hc.
Qed.

Lemma build_row_name cols1 cells1 c v cols2 cells2 :
  length cols1 = length cells1 →
  inv !! norm_col c = Some name_ →
  Forall (λ c, inv !! norm_col c ≠ Some name_) cols2 →
  name (build_row to_datetime (cols1 ++ c :: cols2) (cells1 ++ v :: cells2)) = norm_str v.
Proof.
  intros Hlen Hc Hcols. unfold build_row.
  rewrite zip_with_app by done. rewrite foldl_app. cbn [zip zip_with foldl].
  rewrite foldl_assign_other_name by done.
  unfold assign. by rewrite Hc.
Qed.

(** The cell of a row the field [f] is read from: the cell under the
    last header that is an alias of [f], and a null cell when no header
    is. *)
Definition cell_of (f : field) (cols : list string) (cells : list (option string))
    : option string :=
  foldl (λ acc cv, if decide (inv !! norm_col cv.1 = Some f) then cv.2 else acc)
        None (zip cols cells).

Lemma foldl_assign_empId items r acc :
  empId r = norm_str acc →
  empId (foldl (assign to_datetime) r items) =
    norm_str (foldl (λ acc cv, if decide (inv !! norm_col cv.1 = Some emp_id)
                               then cv.2 else acc) acc items).
Proof.
  revert r acc. induction items as [|[c v] items IH]; intros r acc Hr; cbn [foldl]; [done|].
  apply IH. cbn [fst snd]. case_decide as Hc.
  - unfold assign. by rewrite Hc.
  - by rewrite assign_other_empId.
Qed.

Lemma foldl_assign_name items r acc :
  name r = norm_str acc →
  name (foldl (assign to_datetime) r items) =
    norm_str (foldl (λ acc cv, if decide (inv !! norm_col cv.1 = Some name_)
                               then cv.2 else acc) acc items).
Proof.
  revert r acc. induction items as [|[c v] items IH]; intros r acc Hr; cbn [foldl]; [done|].
  apply IH. cbn [fst snd]. case_decide as Hc.
  - unfold assign. by rewrite Hc.
  - by rewrite assign_other_name.
Qed.

(** The id and the name of the record of a row are the normalised cells
    of its id column and of its name column. *)
Lemma build_row_fields cols cells :
  empId (build_row to_datetime cols cells) = norm_str (cell_of emp_id cols cells) ∧
  name (build_row to_datetime cols cells) = norm_str (cell_of name_ cols cells).
Proof.
  unfold build_row, cell_of.
  split; [by apply foldl_assign_empId|by apply foldl_assign_name].
Qed.

(** C2. The output of [build_records] holds, in the order of the sheet,
    the records of exactly the rows whose id cell and whose name cell are
    both non-null after [norm_str]; every other row is dropped. The id
    and the name of a record are these normalised cells. *)
Theorem build_records_gate (df : dataframe) :
  let cols := norm_col <$> columns df in
  build_records to_datetime df =
    build_row to_datetime cols <$>
      filter (λ cells, norm_str (cell_of emp_id cols cells) ≠ None ∧
                       norm_str (cell_of name_ cols cells) ≠ None) (rows df) ∧
  ∀ cells,
    empId (build_row to_datetime cols cells) = norm_str (cell_of emp_id cols cells) ∧
    name (build_row to_datetime cols cells) = norm_str (cell_of name_ cols cells).
Proof.
  intros cols. split; [|apply build_row_fields].
  unfold build_records. fold cols.
  induction (rows df) as [|cells rs IH]; [done|].
  rewrite fmap_cons, !filter_cons, IH.
  pose proof (keep_clean _ (build_row_clean cols cells)) as Hk.
  destruct (build_row_fields cols cells) as [Hid Hname].
  rewrite Hid, Hname in Hk.
  destruct (decide (keep _ = true)) as [Hkeep|Hdrop];
    destruct (decide (_ ∧ _)) as [Hin|Hout]; try done.
  - destruct Hout. by apply Hk.
  - destruct Hdrop. by apply Hk.
Qed.

(** The sheet with a serial-number column on which the blocklist fails. *)
Definition serial_sheet : dataframe :=
  DataFrame ["Sr No"; "Emp Id"; "Emp Name"] [[Some "1"; Some "E1"; Some "Alice"]].

(** C8, on the code as it is: the header "Sr No" is outside the set
    [passthrough_cols], but the loop over the cells does not consult that
    set, and the cell lands in [extra] under the key "sr_no". *)
Theorem serial_column_leaks :
  ("Sr No" ∉ passthrough_cols (norm_col <$> columns serial_sheet)) ∧
  build_records to_datetime serial_sheet =
    [Rec (Some "E1") (Some "Alice") None None None None None None None None None
         {[ "sr_no" := "1" ]}].
Proof.
  split; [|vm_compute; reflexivity].
  unfold passthrough_cols. rewrite elem_of_filter.
  intros [Hno _]. apply Hno. vm_compute. done.
Qed.

End Builder.

(** ** The empty batch *)

(** A sheet without a single valid row. *)
Definition blank_sheet : dataframe :=
  DataFrame ["Emp Id"; "Emp Name"] [[Some "E1"; None]; [Some "  "; Some "Nobody"]].

(** C9. When the record builder yields no valid record, [main] prints its
    message and exits with code 0 without sending anything to the store;
    and [upsert] on an empty list of records prints its message, sends no
    statement and leaves the store as it is. *)
Theorem empty_batch_is_no_op to_datetime (df : dataframe) (g : database) :
  build_records to_datetime df = [] →
  main to_datetime (Sheet df) g = Exit [NoValidRowsFound] 0 [] g ∧
  upsert g [] = Outcome [NoValidRowsNothingToImport] [] g false.
Proof. intros Hnone. unfold main. by rewrite Hnone. Qed.

Lemma empty_batch_is_no_op_witness :
  main strict_iso (Sheet blank_sheet) empty_store
    = Exit [NoValidRowsFound] 0 [] empty_store ∧
  upsert empty_store [] = Outcome [NoValidRowsNothingToImport] [] empty_store false.
Proof. apply (empty_batch_is_no_op strict_iso blank_sheet empty_store). reflexivity. Defined.

(** ** Pattern matching in the store *)

Section Find.

Context {A : Type}.
Implicit Types (p q : A → bool) (l : list A).

Lemma elem_of_find_from p i l j :
  j ∈ find_from p i l ↔ ∃ x, i ≤ j ∧ l !! (j - i) = Some x ∧ p x = true.
Proof.
  revert i. induction l as [|y l IH]; intros i; simpl.
  - split; [by intros ?%elem_of_nil|by intros (? & _ & ? & _)].
  - assert (j ∈ find_from p (S i) l ↔
            ∃ x, i < j ∧ (y :: l) !! (j - i) = Some x ∧ p x = true) as Htl.
    { rewrite IH. split; intros (x & Hle & Hx & Hp); exists x; split_and!; try done; try lia.
      - replace (j - i) with (S (j - S i)) by lia. done.
      - replace (j - i) with (S (j - S i)) in Hx by lia. done. }
    destruct (p y) eqn:Hy; [rewrite elem_of_cons|]; rewrite Htl; split.
    + intros [->|(x & ? & ? & ?)]; [exists y|exists x]; split_and!; try done; try lia.
      by rewrite Nat.sub_diag.
    + intros (x & Hle & Hx & Hp).
      destruct (decide (j = i)) as [->|]; [by left|right].
      exists x. split_and!; try done; lia.
    + intros (x & ? & ? & ?). exists x. split_and!; try done; lia.
    + intros (x & Hle & Hx & Hp).
      destruct (decide (j = i)) as [->|].
      * rewrite Nat.sub_diag in Hx. simpl in Hx. congruence.
      * exists x. split_and!; try done; lia.
Qed.

Lemma elem_of_find_all p l j :
  j ∈ find_all p l ↔ ∃ x, l !! j = Some x ∧ p x = true.
Proof.
  unfold find_all. rewrite elem_of_find_from. rewrite Nat.sub_0_r.
  split; intros (x & H); exists x; [tauto|]. split; [lia|done].
Qed.

Lemma find_from_app p i l1 l2 :
  find_from p i (l1 ++ l2) = find_from p i l1 ++ find_from p (i + length l1) l2.
Proof.
  revert i. induction l1 as [|y l1 IH]; intros i; simpl.
  - by rewrite Nat.add_0_r.
  - rewrite IH. replace (S i + length l1) with (i + S (length l1)) by lia.
    by destruct (p y).
Qed.

Lemma find_from_none p i l :
  find_from p i l = [] ↔ Forall (λ x, p x = false) l.
Proof.
  revert i. induction l as [|y l IH]; intros i; simpl.
  - split; [constructor|done].
  - rewrite Forall_cons. destruct (p y) eqn:Hy.
    + split; [done|]. by intros [? _].
    + rewrite IH. tauto.
Qed.

Lemma find_all_none p l : find_all p l = [] ↔ Forall (λ x, p x = false) l.
Proof. apply find_from_none. Qed.

Lemma find_all_some p l : find_all p l ≠ [] ↔ ∃ j, j ∈ find_all p l.
Proof.
  destruct (find_all p l) as [|j js].
  - split; [done|]. by intros [? ?%elem_of_nil].
  - split; [|done]. intros _. exists j. by left.
Qed.

Lemma find_from_ext p q i l l' :
  Forall2 (λ x y, p x = q y) l l' → find_from p i l = find_from q i l'.
Proof.
  intros H. revert i. induction H as [|x y l l' Hxy _ IH]; intros i; simpl; [done|].
  by rewrite Hxy, IH.
Qed.

Lemma find_all_fmap p (f : A → A) l :
  (∀ x, p (f x) = p x) → find_all p (f <$> l) = find_all p l.
Proof.
  intros Hf. apply find_from_ext.
  induction l; constructor; auto.
Qed.

Lemma find_all_app_none p l1 l2 :
  Forall (λ x, p x = false) l2 → find_all p (l1 ++ l2) = find_all p l1.
Proof.
  intros H. unfold find_all. rewrite find_from_app.
  apply (find_from_none p (0 + length l1)) in H. rewrite H. by rewrite app_nil_r.
Qed.


Lemma NoDup_find_from p i l : NoDup (find_from p i l).
Proof.
  revert i. induction l as [|y l IH]; intros i; simpl; [constructor|].
  destruct (p y); [|done]. constructor; [|done].
  rewrite elem_of_find_from. intros (x & Hle & _). lia.
Qed.

(** Altering every position of a list of distinct positions. *)
Lemma lookup_foldl_alter (f : A → A) (js : list nat) l j :
  NoDup js →
  foldl (λ l i, alter f i l) l js !! j =
    if decide (j ∈ js) then f <$> l !! j else l !! j.
Proof.
  intros Hnd. revert l. induction Hnd as [|i js Hi _ IH]; intros l; cbn [foldl].
  - case_decide as Hin; [by apply elem_of_nil in Hin|done].
  - rewrite IH. destruct (decide (j = i)) as [->|Hne].
    + rewrite list_lookup_alter_eq.
      repeat case_decide; try done. destruct H0. by left.
    + rewrite list_lookup_alter_ne by done.
      repeat case_decide; try done.
      * destruct H0. by right.
      * by apply elem_of_cons in H0 as [?|?].
Qed.

(** Altering every match of a pattern is a conditional map. *)
Lemma foldl_alter_find_all p (f : A → A) l :
  foldl (λ l i, alter f i l) l (find_all p l) = (λ x, if p x then f x else x) <$> l.
Proof.
  apply list_eq. intros j.
  rewrite lookup_foldl_alter by apply NoDup_find_from.
  rewrite list_lookup_fmap.
  destruct (l !! j) as [x|] eqn:Hx; simpl.
  - destruct (p x) eqn:Hp; case_decide as Hin; try done.
    + destruct Hin. apply elem_of_find_all. eauto.
    + apply elem_of_find_all in Hin as (y & Hy & Hpy). congruence.
  - by case_decide.
Qed.

End Find.

(** ** The employee statement, row by row *)

Section EmployeeStatement.

Context {cs : schema}.

(** The records the builder produces carry no passthrough key "empId":
    their keys are lower-case. *)
Definition canonical (r : rec) : Prop := extra r !! "empId" = None.

#[global] Instance canonical_dec r : Decision (canonical r).
Proof. unfold canonical. apply _. Defined.

(** The row [r] matches the node [n] in [MATCH (e:Employee {empId:r.empId})]. *)
Definition row_matches (r : rec) (n : node) : bool :=
  match empId r with
  | Some id => node_is Employee "empId" (VStr id) n
  | None => false
  end.

(** [f] applied to the properties of the nodes [r] matches. *)
Definition when_matches (r : rec) (f : gmap string value → gmap string value)
    (n : node) : node :=
  if row_matches r n then map_props f n else n.

(** The node the [MERGE] of row [r] creates, before [ON CREATE]. *)
Definition fresh_employee (r : rec) (ns : list node) : list node :=
  match empId r with
  | Some id =>
      if bool_decide (match_employee ns r = [])
      then [Node Employee {[ "empId" := VStr id ]}] else []
  | None => []
  end.

(** The [MERGE] clause and the [SET] clause for one row, as maps over the
    node list. *)
Definition merge_step (ns : list node) (r : rec) : list node :=
  when_matches r (on_match_employee r) <$> (ns ++ fresh_employee r ns).

Definition set_step (ns : list node) (r : rec) : list node :=
  when_matches r (set_employee r) <$> ns.

Lemma match_employee_find ns r : match_employee ns r = find_all (row_matches r) ns.
Proof.
  unfold match_employee, row_matches. destruct (empId r); [done|].
  symmetry. apply find_all_none. by apply Forall_forall.
Qed.

Lemma elem_of_match_employee ns r j :
  j ∈ match_employee ns r ↔ ∃ n, ns !! j = Some n ∧ row_matches r n = true.
Proof. rewrite match_employee_find. apply elem_of_find_all. Qed.

Lemma row_matches_spec r n :
  row_matches r n = true ↔
  ∃ id, empId r = Some id ∧ nlabel n = Employee ∧ nprops n !! "empId" = Some (VStr id).
Proof.
  unfold row_matches, node_is. destruct (empId r) as [id|].
  - rewrite bool_decide_eq_true. split; [intros []; eauto|].
    by intros (? & [= <-] & ? & ?).
  - split; [done|]. by intros (? & ? & _).
Qed.

(** Whether a row matches depends on the label and on the id only. *)
Lemma row_matches_key r n n' :
  nlabel n = nlabel n' → nprops n !! "empId" = nprops n' !! "empId" →
  row_matches r n = row_matches r n'.
Proof.
  intros Hl Hk. unfold row_matches, node_is. destruct (empId r); [|done].
  by rewrite Hl, Hk.
Qed.

Definition keeps_id (f : gmap string value → gmap string value) : Prop :=
  ∀ p, f p !! "empId" = p !! "empId".

Lemma row_matches_map_props r f n :
  keeps_id f → row_matches r (map_props f n) = row_matches r n.
Proof. intros Hf. apply row_matches_key; [done|apply Hf]. Qed.

Lemma row_matches_when r r' f n :
  keeps_id f → row_matches r (when_matches r' f n) = row_matches r n.
Proof.
  intros Hf. unfold when_matches. destruct (row_matches r' n); [|done].
  by apply row_matches_map_props.
Qed.

Lemma keeps_id_on_match r : keeps_id (on_match_employee r).
Proof.
  intros p. unfold on_match_employee. destruct (name r); [|done].
  by rewrite lookup_insert_ne.
Qed.

Lemma set_prop_ne k k' v p : k ≠ k' → set_prop k v p !! k' = p !! k'.
Proof.
  intros Hne. destruct v; simpl; [by rewrite lookup_insert_ne|by rewrite lookup_delete_ne].
Qed.

Lemma set_prop_eq k v p : set_prop k v p !! k = v.
Proof. destruct v; simpl; [by rewrite lookup_insert_eq|by rewrite lookup_delete_eq]. Qed.

Lemma keeps_id_on_create r : keeps_id (on_create_employee r).
Proof. intros p. unfold on_create_employee. by rewrite set_prop_ne. Qed.

(** The value of a key after the [SET] clause of row [r]. *)
Lemma lookup_set_employee r p k :
  set_employee r p !! k =
    match extra r !! k with
    | Some s => Some (VStr s)
    | None =>
        if decide (k = "doj") then
          match doj r with Some d => Some (VDate d) | None => p !! "doj" end
        else if decide (k = "designation") then str_value (designation r)
        else if decide (k = "gender") then str_value (gender r)
        else p !! k
    end.
Proof.
  unfold set_employee.
  destruct (extra r !! k) as [s|] eqn:Hk.
  { apply lookup_union_Some_l. by rewrite lookup_fmap, Hk. }
  rewrite lookup_union_r by by rewrite lookup_fmap, Hk.
  destruct (decide (k = "doj")) as [->|Hdoj].
  { destruct (doj r); [by rewrite lookup_insert_eq|]. by rewrite !set_prop_ne. }
  assert (∀ q, match doj r with Some d => <["doj" := VDate d]> q | None => q end !! k = q !! k)
    as ->.
  { intros q. destruct (doj r); [by rewrite lookup_insert_ne|done]. }
  destruct (decide (k = "designation")) as [->|Hdes].
  { by rewrite set_prop_eq. }
  rewrite set_prop_ne by done.
  destruct (decide (k = "gender")) as [->|Hg].
  { by rewrite set_prop_eq. }
  by rewrite set_prop_ne.
Qed.

Lemma keeps_id_set r : canonical r → keeps_id (set_employee r).
Proof. intros Hr p. rewrite lookup_set_employee. by rewrite Hr. Qed.

Lemma when_matches_none r f ns :
  match_employee ns r = [] → when_matches r f <$> ns = ns.
Proof.
  rewrite match_employee_find, find_all_none. intros H.
  induction H as [|n ns Hn _ IH]; [done|].
  rewrite fmap_cons, IH. unfold when_matches. by rewrite Hn.
Qed.

Lemma match_employee_when ns r r' f :
  keeps_id f → match_employee (when_matches r' f <$> ns) r = match_employee ns r.
Proof.
  intros Hf. rewrite !match_employee_find. apply find_all_fmap.
  intros n. by apply row_matches_when.
Qed.

Lemma match_employee_app ns1 ns2 r :
  match_employee (ns1 ++ ns2) r =
    match_employee ns1 r ++ find_from (row_matches r) (length ns1) ns2.
Proof. rewrite !match_employee_find. unfold find_all. by rewrite find_from_app. Qed.

Lemma match_employee_app_some ns1 ns2 r :
  match_employee ns1 r ≠ [] → match_employee (ns1 ++ ns2) r ≠ [].
Proof. rewrite match_employee_app. by destruct (match_employee ns1 r). Qed.

(** A node is created for an id no node carries: the constraint on
    [Employee.empId] cannot refuse it. *)
Lemma create_employee_ok ns id f :
  keeps_id f → match_nodes Employee "empId" (VStr id) ns = [] →
  create_node ns (Node Employee (f {[ "empId" := VStr id ]}))
    = Some (ns ++ [Node Employee (f {[ "empId" := VStr id ]})]).
Proof.
  intros Hf Hnone. unfold create_node, violates, enforced, constraints.
  cbn [existsb zip zip_with nlabel nprops]. rewrite Hf, lookup_singleton_eq, Hnone.
  rewrite (bool_decide_eq_true_2 ([] = [])) by done.
  rewrite (bool_decide_eq_false_2 (Employee = Skill)) by done.
  rewrite (bool_decide_eq_false_2 (Employee = Project)) by done.
  cbn [negb andb]. by rewrite !andb_false_r.
Qed.

Lemma on_create_fresh r id :
  on_create_employee r {[ "empId" := VStr id ]} = on_match_employee r {[ "empId" := VStr id ]}.
Proof.
  unfold on_create_employee, on_match_employee. destruct (name r); simpl; [done|].
  apply delete_id. by rewrite lookup_singleton_ne.
Qed.

Lemma fresh_employee_none ns r id :
  empId r = Some id → match_nodes Employee "empId" (VStr id) ns = [] →
  fresh_employee r ns = [Node Employee {[ "empId" := VStr id ]}].
Proof.
  intros Hid Hnone. unfold fresh_employee, match_employee. rewrite Hid, Hnone.
  by rewrite bool_decide_eq_true_2.
Qed.

Lemma fresh_employee_some ns r :
  match_employee ns r ≠ [] → fresh_employee r ns = [].
Proof.
  intros Hsome. unfold fresh_employee. destruct (empId r); [|done].
  by rewrite bool_decide_eq_false_2.
Qed.

Lemma row_matches_fresh r id :
  empId r = Some id → row_matches r (Node Employee {[ "empId" := VStr id ]}) = true.
Proof.
  intros Hid. apply row_matches_spec. exists id. split_and!; [done..|].
  apply lookup_singleton_eq.
Qed.

(** After the [MERGE] of a row, the row matches a node. *)
Lemma merge_step_matched ns r id :
  empId r = Some id → match_employee (merge_step ns r) r ≠ [].
Proof.
  intros Hid. unfold merge_step. rewrite match_employee_when by apply keeps_id_on_match.
  destruct (match_employee ns r) as [|j js] eqn:Hm.
  - unfold match_employee in Hm. rewrite Hid in Hm.
    rewrite (fresh_employee_none _ _ id) by done.
    rewrite match_employee_app. unfold match_employee at 1. rewrite Hid, Hm.
    cbn [find_from app]. by rewrite row_matches_fresh.
  - apply match_employee_app_some. by rewrite Hm.
Qed.

(** The [MERGE] clause on one row, in closed form. *)
Lemma merge_employee_step ns bs r id :
  empId r = Some id →
  merge_employee (ns, bs) r =
    Some (merge_step ns r, bs ++ ((r,.) <$> match_employee (merge_step ns r) r)).
Proof.
  intros Hid. unfold merge_employee. rewrite Hid. cbn [mbind option_bind].
  unfold merge_node.
  destruct (match_nodes Employee "empId" (VStr id) ns) as [|j js] eqn:Hm.
  - rewrite create_employee_ok by (done || apply keeps_id_on_create).
    cbn [mbind option_bind bound].
    assert (merge_step ns r =
            ns ++ [Node Employee (on_create_employee r {[ "empId" := VStr id ]})]) as Hstep.
    { unfold merge_step. rewrite (fresh_employee_none _ _ id) by done.
      rewrite fmap_app, when_matches_none by (unfold match_employee; by rewrite Hid).
      rewrite on_create_fresh. cbn [fmap list_fmap]. unfold when_matches.
      by rewrite row_matches_fresh. }
    rewrite Hstep. do 3 f_equal.
    rewrite match_employee_app. unfold match_employee at 1. rewrite Hid, Hm.
    cbn [find_from app].
    rewrite (row_matches_key r _ (Node Employee {[ "empId" := VStr id ]}));
      [|done|apply keeps_id_on_create].
    by rewrite row_matches_fresh.
  - cbn [mbind option_bind bound].
    assert (match_employee ns r = j :: js) as Hme
      by (unfold match_employee; by rewrite Hid).
    assert (merge_step ns r = when_matches r (on_match_employee r) <$> ns) as Hstep.
    { unfold merge_step. rewrite fresh_employee_some by by rewrite Hme.
      by rewrite app_nil_r. }
    rewrite Hstep, match_employee_when by apply keeps_id_on_match.
    rewrite Hme. do 2 f_equal. rewrite <- Hm.
    unfold match_nodes. rewrite foldl_alter_find_all.
    apply list_fmap_ext. intros _ n _. unfold when_matches, row_matches. by rewrite Hid.
Qed.

(** The table [(r, e)] of the rows with the employee nodes they match. *)
Definition bindings (b : list rec) (ns : list node) : list (rec * nat) :=
  r ← b; (r,.) <$> match_employee ns r.

Lemma matched_bindings guard b ns :
  matched guard b ns = bindings (filter (λ r, guard r = true) b) ns.
Proof. done. Qed.

Lemma bindings_cons r b ns :
  bindings (r :: b) ns = ((r,.) <$> match_employee ns r) ++ bindings b ns.
Proof. done. Qed.

Lemma elem_of_bindings b ns r e :
  (r, e) ∈ bindings b ns ↔ r ∈ b ∧ e ∈ match_employee ns r.
Proof.
  unfold bindings. rewrite list_elem_of_bind. split.
  - intros (r' & Hre & Hr'). apply list_elem_of_fmap in Hre as (e' & [= -> ->] & He). done.
  - intros [Hr He]. exists r. split; [|done]. apply list_elem_of_fmap. eauto.
Qed.

Lemma fold_rows_app {S A} (f : S → A → option S) s l1 l2 :
  fold_rows f s (l1 ++ l2) = s' ← fold_rows f s l1; fold_rows f s' l2.
Proof.
  revert s. induction l1 as [|x l1 IH]; intros s; cbn [fold_rows app]; [done|].
  destruct (f s x); cbn [mbind option_bind]; [apply IH|done].
Qed.

(** A later [MERGE] leaves the matches of an id that is present alone. *)
Lemma merge_step_stable ns r r' :
  match_employee ns r ≠ [] →
  match_employee (merge_step ns r') r = match_employee ns r.
Proof.
  intros Hr. unfold merge_step.
  rewrite match_employee_when by apply keeps_id_on_match.
  rewrite match_employee_app.
  assert (find_from (row_matches r) (length ns) (fresh_employee r' ns) = []) as ->;
    [|by rewrite app_nil_r].
  apply find_from_none. unfold fresh_employee.
  destruct (empId r') as [id'|] eqn:Hid'; [|constructor].
  case_bool_decide as Hnone; [|constructor].
  constructor; [|constructor].
  destruct (row_matches r _) eqn:Hrm; [|done].
  apply row_matches_spec in Hrm as (id & Hid & _ & Hk). cbn in Hk.
  rewrite lookup_singleton_eq in Hk. injection Hk as <-.
  unfold match_employee in Hnone, Hr. rewrite Hid' in Hnone. rewrite Hid in Hr. done.
Qed.

Lemma foldl_merge_stable b ns r :
  match_employee ns r ≠ [] →
  match_employee (foldl merge_step ns b) r = match_employee ns r.
Proof.
  revert ns. induction b as [|r' b IH]; intros ns Hr; cbn [foldl]; [done|].
  rewrite IH by by rewrite merge_step_stable.
  by apply merge_step_stable.
Qed.

(** The [MERGE] clause of the employee statement, in closed form. *)
Lemma merge_clause b ns bs :
  Forall (λ r, is_Some (empId r)) b →
  fold_rows merge_employee (ns, bs) b =
    Some (foldl merge_step ns b, bs ++ bindings b (foldl merge_step ns b)).
Proof.
  intros Hb. revert ns bs.
  induction Hb as [|r b [id Hid] _ IH]; intros ns bs; cbn [fold_rows foldl].
  - by rewrite app_nil_r.
  - rewrite (merge_employee_step _ _ _ id) by done. cbn [mbind option_bind].
    rewrite IH, bindings_cons, <- app_assoc.
    rewrite (foldl_merge_stable b (merge_step ns r) r); [done|].
    by eapply merge_step_matched.
Qed.

Lemma merge_clause_ids b st st' :
  fold_rows merge_employee st b = Some st' → Forall (λ r, is_Some (empId r)) b.
Proof.
  revert st. induction b as [|r b IH]; intros st Hrun; [constructor|].
  cbn [fold_rows] in Hrun.
  destruct (merge_employee st r) as [st1|] eqn:Hstep; [|done].
  constructor; [|by eapply IH].
  unfold merge_employee in Hstep. destruct st. by destruct (empId r).
Qed.

(** The [SET] clause cannot be refused on an employee node when the row
    leaves the id alone. *)
Lemma update_employee_ok ns i f :
  keeps_id f → (∀ n, ns !! i = Some n → nlabel n = Employee) →
  update_node ns i f = Some (alter (map_props f) i ns).
Proof.
  intros Hf Hlabel. unfold update_node.
  destruct (ns !! i) as [n|] eqn:Hn.
  - assert (violates ns (nprops n) (Node (nlabel n) (f (nprops n))) = false) as ->.
    { unfold violates, enforced, constraints. cbn [existsb zip zip_with nlabel nprops].
      rewrite (Hlabel n eq_refl), Hf.
      rewrite (bool_decide_eq_false_2 (Employee = Skill)) by done.
      rewrite (bool_decide_eq_false_2 (Employee = Project)) by done.
      destruct (nprops n !! "empId") as [v|];
        [|cbn [negb andb]; by rewrite !andb_false_r].
      rewrite (bool_decide_eq_true_2 (Some v = Some v)) by done.
      cbn [negb andb]. by rewrite !andb_false_r. }
    f_equal. apply list_eq. intros j.
    destruct (decide (j = i)) as [->|Hne].
    + rewrite list_lookup_alter_eq, Hn.
      by rewrite list_lookup_insert_eq by by eapply lookup_lt_Some.
    + by rewrite list_lookup_alter_ne, list_lookup_insert_ne by done.
  - f_equal. apply list_eq. intros j.
    destruct (decide (j = i)) as [->|Hne].
    + by rewrite list_lookup_alter_eq, Hn.
    + by rewrite list_lookup_alter_ne by done.
Qed.

(** The passthrough properties of the record have keys the store takes:
    none is the empty key. *)
Definition storable (r : rec) : Prop := extra r !! "" = None.

#[global] Instance storable_dec r : Decision (storable r).
Proof. unfold storable. apply _. Defined.

Lemma set_employee_row_storable ns r j :
  storable r → set_employee_row ns (r, j) = update_node ns j (set_employee r).
Proof. intros Hr. unfold set_employee_row. cbn [fst snd]. by rewrite decide_True. Qed.

Lemma set_employee_row_refused ns r j : ¬ storable r → set_employee_row ns (r, j) = None.
Proof. intros Hr. unfold set_employee_row. cbn [fst snd]. by rewrite decide_False. Qed.

Lemma set_rows_alter r js ns :
  canonical r → storable r →
  (∀ i n, i ∈ js → ns !! i = Some n → nlabel n = Employee) →
  fold_rows set_employee_row ns ((r,.) <$> js) =
    Some (foldl (λ l i, alter (map_props (set_employee r)) i l) ns js).
Proof.
  intros Hr Hs. revert ns.
  induction js as [|j js IH]; intros ns Hlabel; cbn [fold_rows fmap list_fmap foldl]; [done|].
  rewrite set_employee_row_storable by done.
  rewrite update_employee_ok; [|by apply keeps_id_set|].
  2:{ intros n Hn. eapply Hlabel; [by left|done]. }
  cbn [mbind option_bind]. apply IH.
  intros i n Hi Hn. rewrite list_lookup_alter in Hn.
  case_decide as Hji; [subst j|by eapply Hlabel; [by right|]].
  destruct (ns !! i) as [n0|] eqn:Hn0; [|done]. injection Hn as <-.
  cbn. eapply Hlabel; [by right|done].
Qed.

(** The [SET] clause of the employee statement, in closed form. *)
Lemma set_clause b ns1 ns :
  Forall canonical b → Forall storable b →
  (∀ r, match_employee ns1 r = match_employee ns r) →
  fold_rows set_employee_row ns (bindings b ns1) = Some (foldl set_step ns b).
Proof.
  intros Hb Hs. revert ns.
  induction Hb as [|r b Hr _ IH]; intros ns Hsame; cbn [foldl]; [done|].
  apply Forall_cons in Hs as [Hsr Hs].
  rewrite bindings_cons, fold_rows_app.
  rewrite set_rows_alter; [|done..|].
  2:{ intros i n Hi Hn. rewrite Hsame in Hi.
      apply elem_of_match_employee in Hi as (n' & Hn' & Hm).
      apply row_matches_spec in Hm as (_ & _ & ? & _). congruence. }
  cbn [mbind option_bind].
  assert (foldl (λ l i, alter (map_props (set_employee r)) i l) ns (match_employee ns1 r)
          = set_step ns r) as ->.
  { rewrite Hsame, match_employee_find, foldl_alter_find_all. done. }
  apply IH; [done|]. intros r'. rewrite Hsame. unfold set_step.
  symmetry. apply match_employee_when. by apply keeps_id_set.
Qed.

(** The employee statement in closed form: it succeeds exactly when every
    row has an id and storable passthrough properties, and is then the
    [MERGE] clause followed by the [SET] clause, both as maps over the
    node list. *)
Lemma phase_employees_steps b g :
  Forall canonical b → Forall (λ r, is_Some (empId r)) b → Forall storable b →
  phase_employees b g =
    Some (Graph (foldl set_step (foldl merge_step (nodes g) b) b) (edges g)).
Proof.
  intros Hcan Hids Hs. unfold phase_employees.
  rewrite merge_clause by done. cbn [mbind option_bind app].
  by rewrite set_clause.
Qed.

(** After the [MERGE] clause every row matches a node. *)
Lemma merge_clause_covered b ns r :
  Forall (λ r, is_Some (empId r)) b → r ∈ b →
  match_employee (foldl merge_step ns b) r ≠ [].
Proof.
  intros Hids Hr. apply list_elem_of_split in Hr as (b1 & b2 & ->).
  apply Forall_app in Hids as [_ Hids]. apply Forall_cons in Hids as [[id Hid] _].
  rewrite foldl_app. cbn [foldl].
  rewrite foldl_merge_stable; by eapply merge_step_matched.
Qed.

Lemma fold_rows_step {S A} (f : S → A → option S) s l s' x :
  fold_rows f s l = Some s' → x ∈ l → ∃ s0, is_Some (f s0 x).
Proof.
  revert s. induction l as [|y l IH]; intros s Hrun Hx; [by apply elem_of_nil in Hx|].
  cbn [fold_rows] in Hrun. destruct (f s y) as [s1|] eqn:Hy; [|done].
  apply elem_of_cons in Hx as [->|Hx]; [by exists s; rewrite Hy|by eapply IH].
Qed.

(** The employee statement is refused on a passthrough property with the
    empty key. *)
Lemma phase_employees_keys b g g' :
  phase_employees b g = Some g' → Forall storable b.
Proof.
  unfold phase_employees. intros Hrun.
  destruct (fold_rows merge_employee _ b) as [[ns1 bs]|] eqn:Hm; [|done].
  pose proof (merge_clause_ids _ _ _ Hm) as Hids.
  rewrite merge_clause in Hm by done. injection Hm as <- <-.
  cbn [mbind option_bind app] in Hrun.
  destruct (fold_rows set_employee_row _ _) as [ns2|] eqn:Hset; [|done].
  apply Forall_forall. intros r Hr.
  destruct (decide (storable r)) as [|Hno]; [done|].
  pose proof (merge_clause_covered b (nodes g) r Hids Hr) as Hc.
  rewrite match_employee_find in Hc. apply find_all_some in Hc as [j Hj].
  rewrite <- match_employee_find in Hj.
  destruct (fold_rows_step _ _ _ _ (r, j) Hset) as (ns0 & Hsome).
  { by apply elem_of_bindings. }
  rewrite set_employee_row_refused in Hsome by done. by destruct Hsome.
Qed.

Lemma phase_employees_ids b g g' :
  phase_employees b g = Some g' → Forall (λ r, is_Some (empId r)) b.
Proof.
  unfold phase_employees. intros Hrun.
  destruct (fold_rows merge_employee _ b) as [st|] eqn:Hm; [|done].
  by eapply merge_clause_ids.
Qed.

(** ** The employee statement, node by node *)

(** What the [MERGE] clause, the [SET] clause and the whole statement do
    to one node over the whole batch. *)
Definition merge_settle (b : list rec) (n : node) : node :=
  foldl (λ n r, when_matches r (on_match_employee r) n) n b.

Definition set_settle (b : list rec) (n : node) : node :=
  foldl (λ n r, when_matches r (set_employee r) n) n b.

Definition settle (b : list rec) (n : node) : node := set_settle b (merge_settle b n).

(** The nodes the [MERGE] clause creates, before [ON CREATE]: one for
    every id of the batch no node carries, in the order of the rows. *)
Fixpoint fresh (b : list rec) (ns : list node) : list node :=
  match b with
  | [] => []
  | r :: b' => fresh_employee r ns ++ fresh b' (ns ++ fresh_employee r ns)
  end.

(** Every row of the batch matches a node. *)
Definition covered (b : list rec) (ns : list node) : Prop :=
  Forall (λ r, match_employee ns r ≠ []) b.

Lemma foldl_set_step b ns : foldl set_step ns b = set_settle b <$> ns.
Proof.
  revert ns. induction b as [|r b IH]; intros ns; cbn [foldl].
  - unfold set_settle. cbn [foldl]. by rewrite list_fmap_id.
  - rewrite IH. unfold set_step. rewrite <- list_fmap_compose. done.
Qed.

Lemma match_employee_none_app l1 l2 r :
  match_employee (l1 ++ l2) r = [] ↔
  match_employee l1 r = [] ∧ Forall (λ n, row_matches r n = false) l2.
Proof.
  rewrite match_employee_app, <- find_from_none. split.
  - by intros [??]%app_eq_nil.
  - by intros [-> ->].
Qed.

Lemma fresh_agree b l l' :
  (∀ r, match_employee l r = [] ↔ match_employee l' r = []) → fresh b l = fresh b l'.
Proof.
  revert l l'. induction b as [|r b IH]; intros l l' Hll'; cbn [fresh]; [done|].
  assert (fresh_employee r l = fresh_employee r l') as Hf.
  { unfold fresh_employee. destruct (empId r); [|done].
    by rewrite (bool_decide_ext _ _ (Hll' r)). }
  rewrite Hf. f_equal. apply IH. intros r'.
  rewrite !match_employee_none_app. by rewrite Hll'.
Qed.

Lemma fresh_unmatched b l r n :
  n ∈ fresh b l → match_employee l r ≠ [] → row_matches r n = false.
Proof.
  revert l. induction b as [|r' b IH]; intros l Hn Hr; cbn [fresh] in Hn.
  { by apply elem_of_nil in Hn. }
  apply elem_of_app in Hn as [Hn|Hn].
  - unfold fresh_employee in Hn. destruct (empId r') as [id'|] eqn:Hid';
      [|by apply elem_of_nil in Hn].
    case_bool_decide as Hnone; [|by apply elem_of_nil in Hn].
    apply list_elem_of_singleton in Hn as ->.
    destruct (row_matches r _) eqn:Hrm; [|done].
    apply row_matches_spec in Hrm as (id & Hid & _ & Hk). cbn in Hk.
    rewrite lookup_singleton_eq in Hk. injection Hk as <-.
    unfold match_employee in Hnone, Hr. rewrite Hid' in Hnone. rewrite Hid in Hr. done.
  - eapply IH; [done|]. by apply match_employee_app_some.
Qed.

Lemma fresh_covered b ns : covered b ns → fresh b ns = [].
Proof.
  intros Hc. revert ns Hc. induction b as [|r b IH]; intros ns Hc; cbn [fresh]; [done|].
  apply Forall_cons in Hc as [Hr Hb].
  rewrite fresh_employee_some by done. rewrite app_nil_r. by apply IH.
Qed.

(** The [MERGE] clause: the nodes of the graph and the nodes created,
    each as the batch settles it. *)
Lemma foldl_merge_step b ns :
  foldl merge_step ns b = merge_settle b <$> (ns ++ fresh b ns).
Proof.
  revert ns. induction b as [|r b IH]; intros ns; cbn [foldl fresh].
  - unfold merge_settle. cbn [foldl]. by rewrite app_nil_r, list_fmap_id.
  - rewrite IH. unfold merge_step at 1 2.
    set (W := when_matches r (on_match_employee r)).
    set (F := fresh_employee r ns).
    rewrite (fresh_agree b (W <$> ns ++ F) (ns ++ F)).
    2:{ intros r'. unfold W. by rewrite match_employee_when by apply keeps_id_on_match. }
    rewrite app_assoc.
    rewrite (fmap_app (merge_settle b)), (fmap_app (merge_settle (r :: b)) (ns ++ F)).
    f_equal.
    + rewrite <- list_fmap_compose. done.
    + apply list_fmap_ext. intros i n Hn. unfold merge_settle. cbn [foldl].
      f_equal. fold W.
      assert (row_matches r n = false) as Hrn.
      { destruct (empId r) as [id|] eqn:Hid; [|unfold row_matches; by rewrite Hid].
        eapply fresh_unmatched; [by eapply list_elem_of_lookup_2|].
        unfold F. destruct (match_employee ns r) eqn:Hm.
        - unfold match_employee in Hm. rewrite Hid in Hm.
          rewrite (fresh_employee_none _ _ id) by done.
          rewrite match_employee_app. unfold match_employee at 1. rewrite Hid, Hm.
          cbn [find_from app]. by rewrite row_matches_fresh.
        - apply match_employee_app_some. by rewrite Hm. }
      unfold W, when_matches. by rewrite Hrn.
Qed.

(** *** Last write wins *)

(** A property update that, key by key, either writes a fixed value (or
    removes the key) or leaves the key alone. *)
Definition overwrites (h : gmap string value → gmap string value) : Prop :=
  ∀ k, (∃ c, ∀ p, h p !! k = c) ∨ (∀ p, h p !! k = p !! k).

Lemma overwrites_id : overwrites (λ p, p).
Proof. intros k. by right. Qed.

Lemma overwrites_compose h1 h2 :
  overwrites h1 → overwrites h2 → overwrites (λ p, h2 (h1 p)).
Proof.
  intros H1 H2 k. destruct (H2 k) as [[c Hc]|Hid2].
  - left. exists c. intros p. apply Hc.
  - destruct (H1 k) as [[c Hc]|Hid1].
    + left. exists c. intros p. by rewrite Hid2.
    + right. intros p. by rewrite Hid2.
Qed.

Lemma overwrites_idemp h p : overwrites h → h (h p) = h p.
Proof.
  intros H. apply map_eq. intros k. destruct (H k) as [[c Hc]|Hid].
  - by rewrite !Hc.
  - by rewrite Hid.
Qed.

Lemma overwrites_on_match r : overwrites (on_match_employee r).
Proof.
  intros k. unfold on_match_employee. destruct (name r) as [n|]; [|by right].
  destruct (decide (k = "name")) as [->|Hne].
  - left. eexists. intros p. apply lookup_insert_eq.
  - right. intros p. by rewrite lookup_insert_ne.
Qed.

Lemma overwrites_set r : overwrites (set_employee r).
Proof.
  intros k.
  destruct (extra r !! k) as [s|] eqn:Hk.
  { left. eexists. intros p. rewrite lookup_set_employee, Hk. done. }
  destruct (decide (k = "doj")) as [->|Hdoj].
  { destruct (doj r) as [d|] eqn:Hd.
    - left. exists (Some (VDate d)). intros p.
      rewrite lookup_set_employee, Hk, Hd. by case_decide.
    - right. intros p. rewrite lookup_set_employee, Hk, Hd. by case_decide. }
  destruct (decide (k = "designation")) as [->|Hdes].
  { left. exists (str_value (designation r)). intros p.
    rewrite lookup_set_employee, Hk. by repeat case_decide. }
  destruct (decide (k = "gender")) as [->|Hg].
  { left. exists (str_value (gender r)). intros p.
    rewrite lookup_set_employee, Hk. by repeat case_decide. }
  right. intros p. rewrite lookup_set_employee, Hk.
  by repeat case_decide.
Qed.

(** A node update that keeps the label and the id and, among the nodes of
    one label and one id, is one and the same overwriting update. *)
Definition tame (F : node → node) : Prop :=
  ∀ l iv, ∃ h, overwrites h ∧ keeps_id h ∧
    ∀ p, p !! "empId" = iv → F (Node l p) = Node l (h p).

Lemma tame_when r f : overwrites f → keeps_id f → tame (when_matches r f).
Proof.
  intros Hf Hk l iv.
  destruct (row_matches r (Node l (set_prop "empId" iv ∅))) eqn:Hrm.
  - exists f. split_and!; [done..|]. intros p Hp. unfold when_matches.
    rewrite (row_matches_key r _ (Node l (set_prop "empId" iv ∅))), Hrm; [done..|].
    cbn. by rewrite set_prop_eq.
  - exists (λ p, p). split_and!; [apply overwrites_id|done|].
    intros p Hp. unfold when_matches.
    rewrite (row_matches_key r _ (Node l (set_prop "empId" iv ∅))), Hrm; [done..|].
    cbn. by rewrite set_prop_eq.
Qed.

Lemma tame_compose F G : tame F → tame G → tame (λ n, G (F n)).
Proof.
  intros HF HG l iv.
  destruct (HF l iv) as (hf & Hof & Hkf & Hf), (HG l iv) as (hg & Hog & Hkg & Hg).
  exists (λ p, hg (hf p)). split_and!.
  - by apply overwrites_compose.
  - intros p. by rewrite Hkg, Hkf.
  - intros p Hp. rewrite Hf by done. apply Hg. by rewrite Hkf.
Qed.

Lemma tame_foldl (G : rec → node → node) b :
  (∀ r, r ∈ b → tame (G r)) → tame (λ n, foldl (λ n r, G r n) n b).
Proof.
  induction b as [|r b IH]; intros HG; cbn [foldl].
  - intros l iv. exists (λ p, p). split_and!; [apply overwrites_id|done..].
  - apply (tame_compose (G r) (λ n, foldl (λ n r, G r n) n b)).
    + apply HG. by left.
    + apply IH. intros r' Hr'. apply HG. by right.
Qed.

Lemma tame_idemp F n : tame F → F (F n) = F n.
Proof.
  intros HF. destruct n as [l p].
  destruct (HF l (p !! "empId")) as (h & Ho & Hk & Hh).
  rewrite (Hh p) by done. rewrite Hh by apply Hk.
  by rewrite overwrites_idemp.
Qed.

Lemma tame_key F n :
  tame F → nlabel (F n) = nlabel n ∧ nprops (F n) !! "empId" = nprops n !! "empId".
Proof.
  intros HF. destruct n as [l p].
  destruct (HF l (p !! "empId")) as (h & Ho & Hk & Hh).
  rewrite (Hh p) by done. cbn. by rewrite Hk.
Qed.

Lemma tame_settle b : Forall canonical b → tame (settle b).
Proof.
  intros Hb. unfold settle.
  apply (tame_compose (merge_settle b) (set_settle b)).
  - apply (tame_foldl (λ r, when_matches r (on_match_employee r))).
    intros r _. apply tame_when; [apply overwrites_on_match|apply keeps_id_on_match].
  - apply (tame_foldl (λ r, when_matches r (set_employee r))).
    intros r Hr. apply tame_when; [apply overwrites_set|].
    apply keeps_id_set. by eapply Forall_forall in Hb.
Qed.

Lemma row_matches_tame F r n : tame F → row_matches r (F n) = row_matches r n.
Proof. intros HF. destruct (tame_key F n HF). by apply row_matches_key. Qed.

Lemma match_employee_tame F ns r :
  tame F → match_employee (F <$> ns) r = match_employee ns r.
Proof.
  intros HF. rewrite !match_employee_find. apply find_all_fmap.
  intros n. by apply row_matches_tame.
Qed.

(** *** Normal form, fixpoint and idempotence of the employee statement *)

Lemma phase_employees_nf b g :
  Forall canonical b → Forall (λ r, is_Some (empId r)) b → Forall storable b →
  phase_employees b g =
    Some (Graph (settle b <$> (nodes g ++ fresh b (nodes g))) (edges g)).
Proof.
  intros Hcan Hids Hkeys. rewrite phase_employees_steps by done.
  rewrite foldl_set_step, foldl_merge_step, <- list_fmap_compose. done.
Qed.

(** The batch has nothing left to do on the employees of the graph. *)
Definition settled (b : list rec) (ns : list node) : Prop :=
  covered b ns ∧ Forall (λ n, settle b n = n) ns.

Lemma covered_ids b ns : covered b ns → Forall (λ r, is_Some (empId r)) b.
Proof.
  intros Hc. eapply Forall_impl; [exact Hc|].
  intros r Hr. cbn beta in Hr. unfold match_employee in Hr.
  destruct (empId r); [by eexists|done].
Qed.

Lemma covered_fresh b ns :
  Forall (λ r, is_Some (empId r)) b → covered b (ns ++ fresh b ns).
Proof.
  intros Hb. revert ns. induction Hb as [|r b [id Hid] _ IH]; intros ns; [constructor|].
  cbn [fresh]. rewrite app_assoc. constructor; [|apply IH].
  apply match_employee_app_some.
  destruct (match_employee ns r) eqn:Hm.
  - unfold match_employee in Hm. rewrite Hid in Hm.
    rewrite (fresh_employee_none _ _ id) by done.
    rewrite match_employee_app. unfold match_employee at 1. rewrite Hid, Hm.
    cbn [find_from app]. by rewrite row_matches_fresh.
  - apply match_employee_app_some. by rewrite Hm.
Qed.

Lemma settled_fixpoint b g :
  Forall canonical b → Forall storable b → settled b (nodes g) →
  phase_employees b g = Some g.
Proof.
  intros Hcan Hkeys [Hcov Hfix].
  rewrite phase_employees_nf by (done || by eapply covered_ids).
  rewrite fresh_covered, app_nil_r by done.
  destruct g as [ns es]. cbn in *. do 2 f_equal.
  rewrite <- (list_fmap_id ns) at 2. by apply Forall_fmap_ext.
Qed.

Lemma phase_employees_settled b g g' :
  Forall canonical b → phase_employees b g = Some g' → settled b (nodes g').
Proof.
  intros Hcan Hrun. pose proof (phase_employees_ids _ _ _ Hrun) as Hids.
  pose proof (phase_employees_keys _ _ _ Hrun) as Hkeys.
  rewrite phase_employees_nf in Hrun by done. injection Hrun as <-. cbn [nodes].
  pose proof (tame_settle b Hcan) as Htame. split.
  - pose proof (covered_fresh b (nodes g) Hids) as Hc.
    unfold covered in *. eapply Forall_impl; [exact Hc|].
    intros r Hr. cbn beta in *. by rewrite match_employee_tame.
  - apply Forall_fmap, Forall_forall. intros n _. cbn. by apply tame_idemp.
Qed.

(** *** What the employee statement does to one stored node *)

Lemma phase_employees_lookup b g g' i n :
  Forall canonical b → phase_employees b g = Some g' →
  nodes g !! i = Some n → nodes g' !! i = Some (settle b n).
Proof.
  intros Hcan Hrun Hn. pose proof (phase_employees_ids _ _ _ Hrun) as Hids.
  pose proof (phase_employees_keys _ _ _ Hrun) as Hkeys.
  rewrite phase_employees_nf in Hrun by done. injection Hrun as <-. cbn [nodes].
  rewrite list_lookup_fmap, lookup_app_l by by eapply lookup_lt_Some.
  by rewrite Hn.
Qed.

Lemma phase_employees_edges b g g' :
  phase_employees b g = Some g' → edges g' = edges g.
Proof.
  unfold phase_employees. intros Hrun.
  destruct (fold_rows merge_employee _ b) as [[ns1 bs]|]; [|done].
  cbn [mbind option_bind] in Hrun.
  destruct (fold_rows set_employee_row ns1 bs); [|done].
  by injection Hrun as <-.
Qed.

(** The rows with another id leave the node alone. *)
Lemma foldl_when_unmatched (f : rec → gmap string value → gmap string value) b n :
  Forall (λ r, row_matches r n = false) b →
  foldl (λ n r, when_matches r (f r) n) n b = n.
Proof.
  induction 1 as [|r b Hr _ IH]; cbn [foldl]; [done|].
  unfold when_matches at 2. by rewrite Hr.
Qed.

Lemma other_id_unmatched r r' n :
  row_matches r n = true → empId r' ≠ empId r → row_matches r' n = false.
Proof.
  intros Hr Hne. destruct (row_matches r' n) eqn:Hr'; [|done].
  apply row_matches_spec in Hr as (id & Hid & _ & Hk).
  apply row_matches_spec in Hr' as (id' & Hid' & _ & Hk').
  destruct Hne. congruence.
Qed.

Lemma others_unmatched r b n :
  row_matches r n = true → Forall (λ r', empId r' ≠ empId r) b →
  Forall (λ r', row_matches r' n = false) b.
Proof.
  intros Hr Hb. eapply Forall_impl; [exact Hb|].
  intros r'. by apply other_id_unmatched.
Qed.

(** The last row of the batch with the id of a node is the last one to
    write the node: the stored properties are those its [SET] clause
    leaves, on whatever the rows before it made of the node. *)
Lemma settle_last b1 r b2 n :
  Forall canonical (b1 ++ r :: b2) →
  row_matches r n = true → Forall (λ r', empId r' ≠ empId r) b2 →
  ∃ p, nprops (settle (b1 ++ r :: b2) n) = set_employee r p ∧
       (Forall (λ r', empId r' ≠ empId r) b1 → p = on_match_employee r (nprops n)).
Proof.
  intros Hcan Hr Hb2. unfold settle.
  set (m := merge_settle (b1 ++ r :: b2) n).
  assert (Hkey : ∀ r', row_matches r' m = row_matches r' n).
  { intros r'. apply (row_matches_tame (merge_settle (b1 ++ r :: b2))).
    apply (tame_foldl (λ r, when_matches r (on_match_employee r))).
    intros r0 _. apply tame_when; [apply overwrites_on_match|apply keeps_id_on_match]. }
  unfold set_settle. rewrite foldl_app. cbn [foldl].
  set (x := foldl (λ n r, when_matches r (set_employee r) n) m b1).
  assert (Hx : ∀ r', row_matches r' x = row_matches r' m).
  { intros r'. apply (row_matches_tame (λ n, foldl (λ n r, when_matches r (set_employee r) n) n b1)).
    apply (tame_foldl (λ r, when_matches r (set_employee r))).
    intros r0 Hr0. apply tame_when; [apply overwrites_set|apply keeps_id_set].
    eapply Forall_forall in Hcan; [done|]. apply elem_of_app. by left. }
  assert (Hwx : when_matches r (set_employee r) x = map_props (set_employee r) x).
  { unfold when_matches. by rewrite Hx, Hkey, Hr. }
  rewrite Hwx. rewrite foldl_when_unmatched.
  2:{ eapply Forall_impl; [exact Hb2|]. intros r' Hr'. cbn beta.
      rewrite (row_matches_map_props r' (set_employee r) x).
      - rewrite Hx, Hkey. by apply (other_id_unmatched r).
      - apply keeps_id_set. eapply Forall_forall in Hcan; [done|].
        apply elem_of_app. right. by left. }
  exists (nprops x). split; [done|]. intros Hb1.
  unfold x. rewrite foldl_when_unmatched.
  2:{ eapply Forall_impl; [exact Hb1|]. intros r' Hr'. cbn beta.
      rewrite Hkey. by apply (other_id_unmatched r). }
  unfold m, merge_settle. rewrite foldl_app. cbn [foldl].
  rewrite (foldl_when_unmatched on_match_employee b1 n) by by apply (others_unmatched r).
  assert (when_matches r (on_match_employee r) n = map_props (on_match_employee r) n) as ->.
  { unfold when_matches. by rewrite Hr. }
  rewrite foldl_when_unmatched; [done|].
  eapply Forall_impl; [exact Hb2|]. intros r' Hr'. cbn beta.
  rewrite row_matches_map_props by apply keeps_id_on_match.
  by apply (other_id_unmatched r).
Qed.

End EmployeeStatement.

(** ** Overwrite and coalesce in the employee statement *)

(** A stored employee and rows that re-ingest it. *)
Definition stored_alice : graph :=
  Graph [Node Employee {[ "empId" := VStr "E1"; "name" := VStr "Alice";
                          "designation" := VStr "Developer";
                          "doj" := VDate "2020-01-01" ]}] [].

Definition row_without_doj : rec :=
  Rec (Some "E1") (Some "Alice") (Some "F") None (Some "Lead") None None None None None None ∅.

Definition row_without_name : rec :=
  Rec (Some "E1") None None None (Some "Lead") None None None None None None ∅.

Definition row_with_extra_name : rec :=
  Rec (Some "E1") None None None None None None None None None None {[ "name" := "Zed" ]}.

(** C5, on the code as it is: a row with a null date of joining leaves
    the stored date of joining in place instead of overwriting it. *)
Lemma null_doj_keeps_stored_date :
  row_matches row_without_doj (Node Employee {[ "empId" := VStr "E1"; "name" := VStr "Alice";
       "designation" := VStr "Developer"; "doj" := VDate "2020-01-01" ]}) = true ∧
  doj row_without_doj = None ∧
  ∃ g' n', phase_employees (cs := all_unique) [row_without_doj] stored_alice = Some g' ∧
    nodes g' !! 0 = Some n' ∧
    nprops n' !! "doj" = Some (VDate "2020-01-01") ∧
    nprops n' !! "doj" ≠ VDate <$> doj row_without_doj.
Proof.
  split; [reflexivity|]. split; [reflexivity|].
  eexists _, _. split; [vm_compute; reflexivity|].
  split; [reflexivity|]. split; [reflexivity|]. discriminate.
Qed.

Section Overwrite.

Context {cs : schema}.

(** C5, as amended. For the last row of the batch with the id of a stored
    Employee node, whose extra mapping has none of the keys "gender",
    "designation" and "doj": gender and designation are overwritten with
    the values of the row, a null value removing the property; the date
    of joining is overwritten when the row has one, and keeps the stored
    value when the row has none and is the only row with that id. *)
Theorem employee_scalars_overwritten b1 r b2 g g' i n :
  Forall canonical (b1 ++ r :: b2) →
  phase_employees (b1 ++ r :: b2) g = Some g' →
  Forall (λ r', empId r' ≠ empId r) b2 →
  nodes g !! i = Some n → row_matches r n = true →
  extra r !! "gender" = None → extra r !! "designation" = None →
  extra r !! "doj" = None →
  ∃ n', nodes g' !! i = Some n' ∧
    nprops n' !! "gender" = str_value (gender r) ∧
    nprops n' !! "designation" = str_value (designation r) ∧
    (∀ d, doj r = Some d → nprops n' !! "doj" = Some (VDate d)) ∧
    (doj r = None → Forall (λ r', empId r' ≠ empId r) b1 →
       nprops n' !! "doj" = nprops n !! "doj").
Proof.
  intros Hcan Hrun Hb2 Hn Hr Hg Hdes Hdoj.
  exists (settle (b1 ++ r :: b2) n). split; [by eapply phase_employees_lookup|].
  destruct (settle_last b1 r b2 n Hcan Hr Hb2) as (p & -> & Hp).
  rewrite !lookup_set_employee, Hg, Hdes, Hdoj.
  split_and!; [by repeat case_decide..| |].
  - intros d ->. by case_decide.
  - intros -> Hb1. rewrite (Hp Hb1). case_decide; [|done].
    unfold on_match_employee. destruct (name r); [|done].
    by rewrite lookup_insert_ne.
Qed.

End Overwrite.

Lemma employee_scalars_overwritten_witness :
  ∃ n', nodes (Graph [Node Employee {[ "empId" := VStr "E1"; "name" := VStr "Alice";
                        "designation" := VStr "Lead"; "gender" := VStr "F";
                        "doj" := VDate "2020-01-01" ]}] []) !! 0 = Some n' ∧
    nprops n' !! "gender" = str_value (gender row_without_doj) ∧
    nprops n' !! "designation" = str_value (designation row_without_doj) ∧
    (∀ d, doj row_without_doj = Some d → nprops n' !! "doj" = Some (VDate d)) ∧
    (doj row_without_doj = None →
     Forall (λ r', empId r' ≠ empId row_without_doj) [] →
     nprops n' !! "doj" =
       nprops (Node Employee {[ "empId" := VStr "E1"; "name" := VStr "Alice";
                 "designation" := VStr "Developer"; "doj" := VDate "2020-01-01" ]}) !! "doj").
Proof.
  apply (employee_scalars_overwritten (cs := all_unique) [] row_without_doj [] stored_alice).
  - repeat constructor.
  - vm_compute. reflexivity.
  - constructor.
  - reflexivity.
  - reflexivity.
  - reflexivity.
  - reflexivity.
  - reflexivity.
Defined.

(** C6, on the code as it is: a row with a null name whose extra mapping
    has the key "name" replaces the stored name. *)
Lemma extra_name_replaces_stored_name :
  row_matches row_with_extra_name (Node Employee {[ "empId" := VStr "E1";
       "name" := VStr "Alice"; "designation" := VStr "Developer";
       "doj" := VDate "2020-01-01" ]}) = true ∧
  name row_with_extra_name = None ∧
  ∃ g' n', phase_employees (cs := all_unique) [row_with_extra_name] stored_alice = Some g' ∧
    nodes g' !! 0 = Some n' ∧
    nprops n' !! "name" = Some (VStr "Zed") ∧
    nprops n' !! "name" ≠ Some (VStr "Alice").
Proof.
  split; [reflexivity|]. split; [reflexivity|].
  eexists _, _. split; [vm_compute; reflexivity|].
  split; [reflexivity|]. split; [reflexivity|]. discriminate.
Qed.

Section Coalesce.

Context {cs : schema}.

(** C6, as amended. For the last row of the batch with the id of a stored
    Employee node: when the name of the row is null, its extra mapping
    has no key "name" and no other row of the batch has that id, the
    stored name is left unchanged; when the designation of the row is not
    null and its extra mapping has no key "designation", the stored
    designation is overwritten with it. *)
Theorem employee_name_coalesced b1 r b2 g g' i n :
  Forall canonical (b1 ++ r :: b2) →
  phase_employees (b1 ++ r :: b2) g = Some g' →
  Forall (λ r', empId r' ≠ empId r) b2 →
  nodes g !! i = Some n → row_matches r n = true →
  ∃ n', nodes g' !! i = Some n' ∧
    (name r = None → extra r !! "name" = None →
     Forall (λ r', empId r' ≠ empId r) b1 →
     nprops n' !! "name" = nprops n !! "name") ∧
    (∀ d, designation r = Some d → extra r !! "designation" = None →
     nprops n' !! "designation" = Some (VStr d)).
Proof.
  intros Hcan Hrun Hb2 Hn Hr.
  exists (settle (b1 ++ r :: b2) n). split; [by eapply phase_employees_lookup|].
  destruct (settle_last b1 r b2 n Hcan Hr Hb2) as (p & -> & Hp).
  rewrite !lookup_set_employee. split.
  - intros Hname -> Hb1. rewrite (Hp Hb1). repeat case_decide; try done.
    unfold on_match_employee. by rewrite Hname.
  - intros d -> ->. by repeat case_decide.
Qed.

End Coalesce.

Lemma employee_name_coalesced_witness :
  ∃ n', nodes (Graph [Node Employee {[ "empId" := VStr "E1"; "name" := VStr "Alice";
                        "designation" := VStr "Lead";
                        "doj" := VDate "2020-01-01" ]}] []) !! 0 = Some n' ∧
    (name row_without_name = None → extra row_without_name !! "name" = None →
     Forall (λ r', empId r' ≠ empId row_without_name) [] →
     nprops n' !! "name" =
       nprops (Node Employee {[ "empId" := VStr "E1"; "name" := VStr "Alice";
                 "designation" := VStr "Developer"; "doj" := VDate "2020-01-01" ]}) !! "name") ∧
    (∀ d, designation row_without_name = Some d →
     extra row_without_name !! "designation" = None →
     nprops n' !! "designation" = Some (VStr d)).
Proof.
  apply (employee_name_coalesced (cs := all_unique) [] row_without_name [] stored_alice).
  - repeat constructor.
  - vm_compute. reflexivity.
  - constructor.
  - reflexivity.
  - reflexivity.
Defined.

(** ** A passthrough column named like a canonical property *)

Definition shadow_sheet : dataframe :=
  DataFrame ["Emp Id"; "Emp Name"; "name"] [[Some "E1"; Some "Alice"; Some "Zed"]].

Section Shadow.

Context {cs : schema}.

(** C10. The header "name" is no alias (the aliases are matched with
    their case) and derives the key "name": the cell lands in [extra],
    and the [e += r.extra] of the employee statement stores it as the
    name of the node, where the coalesce rule alone stores the name of
    the row; so it is whichever constraints are in force. *)
Theorem passthrough_shadows_name to_datetime :
  inv !! norm_col "name" = None ∧ snake "name" = "name" ∧
  ∃ r, build_records to_datetime shadow_sheet = [r] ∧
    name r = Some "Alice" ∧ extra r = {[ "name" := "Zed" ]} ∧
    on_match_employee r {[ "empId" := VStr "E1"; "name" := VStr "Bob" ]}
      = {[ "empId" := VStr "E1"; "name" := VStr "Alice" ]} ∧
    phase_employees [r] (Graph [Node Employee {[ "empId" := VStr "E1"; "name" := VStr "Bob" ]}] [])
      = Some (Graph [Node Employee {[ "empId" := VStr "E1"; "name" := VStr "Zed" ]}] []) ∧
    phase_employees [r] empty_graph
      = Some (Graph [Node Employee {[ "empId" := VStr "E1"; "name" := VStr "Zed" ]}] []).
Proof.
  split; [vm_compute; reflexivity|]. split; [reflexivity|].
  eexists. split; [vm_compute; reflexivity|].
  split_and!; try (vm_compute; reflexivity).
  - rewrite phase_employees_nf; [vm_compute; reflexivity|repeat constructor..].
    by eexists.
  - rewrite phase_employees_nf; [vm_compute; reflexivity|repeat constructor..].
    by eexists.
Qed.

End Shadow.

(** ** The records of the builder are canonical *)

Lemma lower_char_not_upper a : Str.is_upper (Str.lower_char a) = false.
Proof. by destruct a as [[] [] [] [] [] [] [] []]. Qed.

Lemma lower_not_upper s a : a ∈ Str.chars (Str.lower s) → Str.is_upper a = false.
Proof.
  unfold Str.lower, Str.chars, Str.of_chars.
  rewrite list_ascii_of_string_of_list_ascii.
  intros (a0 & -> & _)%list_elem_of_fmap. apply lower_char_not_upper.
Qed.

Lemma snake_not_empId c : snake c ≠ "empId".
Proof.
  unfold snake. intros Heq.
  assert ("I"%char ∈ Str.chars "empId") as HI by (cbn; set_solver).
  rewrite <- Heq in HI. by apply lower_not_upper in HI.
Qed.

Section BuilderCanonical.

Variable to_datetime : bool → string → option string.

Lemma assign_canonical r cv : canonical r → canonical (assign to_datetime r cv).
Proof.
  unfold canonical. intros Hr. destruct cv as [c v]. unfold assign.
  destruct (inv !! norm_col c) as [[]|]; try done.
  destruct (norm_str v); [|done]. cbn.
  rewrite lookup_insert_ne; [done|apply snake_not_empId].
Qed.

Lemma build_row_canonical cols cells : canonical (build_row to_datetime cols cells).
Proof.
  unfold build_row. generalize (zip cols cells). intros items.
  assert (canonical empty_rec) as H by done. revert H. generalize empty_rec.
  induction items as [|cv items IH]; intros r Hr; cbn [foldl]; [done|].
  by apply IH, assign_canonical.
Qed.

Lemma build_records_canonical df : Forall canonical (build_records to_datetime df).
Proof.
  unfold build_records. apply Forall_forall. intros r Hr.
  apply list_elem_of_filter in Hr as [_ Hr].
  apply list_elem_of_fmap in Hr as (cells & -> & _). apply build_row_canonical.
Qed.

End BuilderCanonical.

(** ** Growth of the node list *)

Section Batch.

Context {cs : schema}.

(** What follows of the stubs, which carry an id of their own, needs the
    constraint on [Employee.empId]; the lemmas that use it say so. *)
Hypothesis emp_on : emp_id_unique cs = true.

(** A node that matches no name pattern that has a match in [ns] and,
    when the constraint on [Employee.empId] is in force, no employee id
    pattern that has one: the nodes a [MERGE] creates are of this kind. *)
Definition distinct_from (ns : list node) (n : node) : Prop :=
  (∀ l v, node_is l "name" v n = true → match_nodes l "name" v ns = []) ∧
  (emp_id_unique cs = true →
   ∀ v, node_is Employee "empId" v n = true → match_nodes Employee "empId" v ns = []).

(** [ns'] is [ns] followed by nodes distinct from those of [ns]. *)
Definition extends (ns ns' : list node) : Prop :=
  ∃ new, ns' = ns ++ new ∧ Forall (distinct_from ns) new.

Lemma match_nodes_app l k v ns1 ns2 :
  match_nodes l k v (ns1 ++ ns2) =
    match_nodes l k v ns1 ++ find_from (node_is l k v) (length ns1) ns2.
Proof. unfold match_nodes, find_all. by rewrite find_from_app. Qed.

Lemma match_nodes_none_app l k v ns1 ns2 :
  match_nodes l k v (ns1 ++ ns2) = [] → match_nodes l k v ns1 = [].
Proof. rewrite match_nodes_app. by intros [??]%app_eq_nil. Qed.

Lemma distinct_from_app ns1 ns2 n : distinct_from (ns1 ++ ns2) n → distinct_from ns1 n.
Proof.
  intros [Hn He]. split.
  - intros l v Hm. eapply match_nodes_none_app. by apply Hn.
  - intros Hon v Hm. eapply match_nodes_none_app. by apply He.
Qed.

Lemma extends_refl ns : extends ns ns.
Proof. exists []. by rewrite app_nil_r. Qed.

Lemma extends_trans ns1 ns2 ns3 : extends ns1 ns2 → extends ns2 ns3 → extends ns1 ns3.
Proof.
  intros (new1 & -> & H1) (new2 & -> & H2). exists (new1 ++ new2).
  split; [by rewrite app_assoc|]. apply Forall_app. split; [done|].
  eapply Forall_impl; [exact H2|]. intros n. apply distinct_from_app.
Qed.



(** A pattern on the name, or on the id of an employee, that has a match
    keeps exactly its matches when the list grows. *)
Lemma match_name_extends l v ns ns' :
  extends ns ns' → match_nodes l "name" v ns ≠ [] →
  match_nodes l "name" v ns' = match_nodes l "name" v ns.
Proof.
  intros (new & -> & Hnew) Hsome. rewrite match_nodes_app.
  assert (find_from (node_is l "name" v) (length ns) new = []) as ->;
    [|by rewrite app_nil_r].
  apply find_from_none. eapply Forall_impl; [exact Hnew|].
  intros n [Hn _]. cbn beta. destruct (node_is l "name" v n) eqn:Hm; [|done].
  destruct Hsome. by apply Hn.
Qed.

Lemma match_employee_extends r ns ns' :
  extends ns ns' → match_employee ns r ≠ [] →
  match_employee ns' r = match_employee ns r.
Proof.
  intros (new & -> & Hnew) Hsome. unfold match_employee in *.
  destruct (empId r) as [id|]; [|done]. rewrite match_nodes_app.
  assert (find_from (node_is Employee "empId" (VStr id)) (length ns) new = []) as ->;
    [|by rewrite app_nil_r].
  apply find_from_none. eapply Forall_impl; [exact Hnew|].
  intros n [_ He]. cbn beta.
  destruct (node_is Employee "empId" (VStr id) n) eqn:Hm; [|done].
  destruct Hsome. by apply (He emp_on).
Qed.

Lemma covered_extends b ns ns' : extends ns ns' → covered b ns → covered b ns'.
Proof.
  intros Hext Hc. eapply Forall_impl; [exact Hc|]. intros r Hr. cbn beta.
  by rewrite (match_employee_extends r ns ns').
Qed.

Lemma bindings_extends b ns ns' :
  extends ns ns' → covered b ns → bindings b ns' = bindings b ns.
Proof.
  intros Hext Hc. unfold bindings. induction Hc as [|r b Hr _ IH]; [done|].
  rewrite !bind_cons, IH. by rewrite (match_employee_extends r ns ns').
Qed.

Lemma covered_filter (P : rec → Prop) `{!∀ r, Decision (P r)} b ns :
  covered b ns → covered (filter P b) ns.
Proof.
  intros Hc. apply Forall_forall. intros r Hr%list_elem_of_filter.
  eapply Forall_forall in Hc; [done|]. tauto.
Qed.

(** A node no row matches is left alone by the employee statement. *)
Lemma settle_unmatched b n :
  Forall (λ r, row_matches r n = false) b → settle b n = n.
Proof.
  intros Hb. unfold settle, merge_settle, set_settle.
  rewrite (foldl_when_unmatched on_match_employee) by done.
  by rewrite (foldl_when_unmatched set_employee).
Qed.

Lemma distinct_unmatched b ns n :
  covered b ns → distinct_from ns n → Forall (λ r, row_matches r n = false) b.
Proof.
  intros Hc [_ He]. eapply Forall_impl; [exact Hc|]. intros r Hr. cbn beta in *.
  destruct (row_matches r n) eqn:Hm; [|done]. destruct Hr.
  unfold row_matches, match_employee in *. destruct (empId r); [|done].
  by apply (He emp_on).
Qed.

Lemma settled_extends b ns ns' : extends ns ns' → settled b ns → settled b ns'.
Proof.
  intros Hext [Hc Hfix]. split; [by eapply covered_extends|].
  destruct Hext as (new & -> & Hnew). apply Forall_app. split; [done|].
  eapply Forall_impl; [exact Hnew|]. intros n Hn. cbn beta.
  apply settle_unmatched. by eapply distinct_unmatched.
Qed.

(** ** Merging a target node and a relationship *)

Lemma merge_node_spec l v f ns ns' m :
  (∀ p, f p !! "name" = p !! "name") →
  merge_node l "name" (VStr v) f ns = Some (ns', m) →
  extends ns ns' ∧ bound m = match_nodes l "name" (VStr v) ns' ∧ bound m ≠ [].
Proof.
  intros Hf. unfold merge_node.
  destruct (match_nodes l "name" (VStr v) ns) as [|j js] eqn:Hm.
  - unfold create_node.
    destruct (violates ns ∅ _) eqn:Hv; [done|]. cbn [mbind option_bind].
    intros [= <- <-]. set (n := Node l (f {[ "name" := VStr v ]})).
    assert (Hname : nprops n !! "name" = Some (VStr v)).
    { unfold n. cbn. by rewrite Hf, lookup_singleton_eq. }
    split_and!.
    + exists [n]. split; [done|]. constructor; [|constructor]. split.
      * intros l' v' [Hl Hk]%bool_decide_eq_true. cbn in Hl. subst l'.
        rewrite Hname in Hk. by injection Hk as <-.
      * intros Hon v' [Hl Hk]%bool_decide_eq_true. cbn in Hl. fold n in Hv.
        unfold violates, enforced, constraints in Hv.
        cbn [existsb zip zip_with] in Hv. rewrite Hon in Hv.
        apply orb_false_iff in Hv as [Hv _].
        rewrite Hk, bool_decide_eq_true_2 in Hv by done.
        rewrite lookup_empty, bool_decide_eq_false_2 in Hv by done.
        cbn in Hv. by apply negb_false_iff, bool_decide_eq_true in Hv.
    + rewrite match_nodes_app, Hm. cbn [find_from app bound].
      unfold node_is. rewrite bool_decide_eq_true_2; done.
    + done.
  - intros [= <- <-]. split_and!; [apply extends_refl|by rewrite Hm|done].
Qed.

Lemma merge_node_stable l v f ns :
  match_nodes l "name" (VStr v) ns ≠ [] →
  merge_node l "name" (VStr v) f ns = Some (ns, Matched (match_nodes l "name" (VStr v) ns)).
Proof. intros Hsome. unfold merge_node. by destruct (match_nodes _ _ _ _). Qed.

Section LinkFacts.

Variable target : rec → option string.
Variable l : label.
Variable on_create : rec → string → gmap string value → gmap string value.
Variable t : rel_type.
Variable pat : option (string * value).

Hypothesis on_create_name : ∀ r v p, on_create r v p !! "name" = p !! "name".

(** The rows [(r, e, x)] of a matched row [(r, e)], on a node list. *)
Definition targets_of (ns : list node) (b : rec * nat) : list (rec * nat * nat) :=
  match target b.1 with
  | Some v => (b,.) <$> match_nodes l "name" (VStr v) ns
  | None => []
  end.

(** Every row with a target finds a node to bind. *)
Definition targets_present (bs : list (rec * nat)) (ns : list node) : Prop :=
  Forall (λ b, ∀ v, target b.1 = Some v → match_nodes l "name" (VStr v) ns ≠ []) bs.

Lemma merge_targets_spec bs ns ts ns' ts' :
  fold_rows (merge_target target l on_create) (ns, ts) bs = Some (ns', ts') →
  extends ns ns' ∧ ts' = ts ++ (bs ≫= targets_of ns') ∧ targets_present bs ns'.
Proof.
  revert ns ts. induction bs as [|b bs IH]; intros ns ts; cbn [fold_rows].
  - intros [= <- <-]. split_and!; [apply extends_refl|by rewrite app_nil_r|constructor].
  - destruct (merge_target target l on_create (ns, ts) b) as [[ns1 ts1]|] eqn:Hstep;
      [|done]. cbn [mbind option_bind]. intros Hrest.
    apply IH in Hrest as (Hext & -> & Hpres).
    unfold merge_target in Hstep. destruct (target b.1) as [v|] eqn:Hv.
    + destruct (merge_node _ _ _ _ ns) as [[ns2 m]|] eqn:Hm; [|done].
      cbn [mbind option_bind] in Hstep. injection Hstep as <- <-.
      apply merge_node_spec in Hm as (Hext1 & Hb & Hne); [|apply on_create_name].
      split_and!.
      * by eapply extends_trans.
      * rewrite bind_cons, <- app_assoc. do 2 f_equal.
        unfold targets_of. rewrite Hv, Hb.
        rewrite (match_name_extends l (VStr v) ns2 ns'); [done..|]. by rewrite <- Hb.
      * constructor; [|done]. intros v' Hv'. rewrite Hv in Hv'. injection Hv' as <-.
        rewrite (match_name_extends l (VStr v) ns2 ns'); [|done|]; by rewrite <- Hb.
    + injection Hstep as <- <-. split_and!; [done| |].
      * rewrite bind_cons.
        assert (targets_of ns' b = []) as -> by (unfold targets_of; by rewrite Hv).
        done.
      * constructor; [|done]. intros v' Hv'. congruence.
Qed.

Lemma merge_target_some ns ts b v :
  target b.1 = Some v →
  merge_target target l on_create (ns, ts) b =
    '(ns', m) ← merge_node l "name" (VStr v) (on_create b.1 v) ns;
    Some (ns', ts ++ ((b,.) <$> bound m)).
Proof. intros Hv. unfold merge_target. by rewrite Hv. Qed.

Lemma merge_target_none ns ts b :
  target b.1 = None → merge_target target l on_create (ns, ts) b = Some (ns, ts).
Proof. intros Hv. unfold merge_target. by rewrite Hv. Qed.

Lemma merge_targets_stable bs ns ts :
  targets_present bs ns →
  fold_rows (merge_target target l on_create) (ns, ts) bs
    = Some (ns, ts ++ (bs ≫= targets_of ns)).
Proof.
  intros Hp. revert ts. induction Hp as [|b bs Hb _ IH]; intros ts; cbn [fold_rows].
  - by rewrite app_nil_r.
  - rewrite bind_cons.
    destruct (target b.1) as [v|] eqn:Hv.
    + assert (targets_of ns b = (b,.) <$> match_nodes l "name" (VStr v) ns) as ->
        by (unfold targets_of; by rewrite Hv).
      rewrite (merge_target_some _ _ _ v) by done.
      rewrite merge_node_stable by by apply Hb. cbn [mbind option_bind bound].
      rewrite IH. by rewrite <- app_assoc.
    + assert (targets_of ns b = []) as -> by (unfold targets_of; by rewrite Hv).
      rewrite merge_target_none by done.
      cbn [mbind option_bind]. by rewrite IH.
Qed.

(** [es'] is [es] followed by relationships that match no pattern of the
    statement that has a match in [es]. *)
Definition edge_extends (es es' : list edge) : Prop :=
  ∃ new, es' = es ++ new ∧
    Forall (λ w, ∀ s d, edge_is s t d pat w = true →
                        find_all (edge_is s t d pat) es = []) new.

Lemma edge_extends_refl es : edge_extends es es.
Proof. exists []. by rewrite app_nil_r. Qed.

Lemma find_all_none_app {A} (p : A → bool) l1 l2 :
  find_all p (l1 ++ l2) = [] → find_all p l1 = [].
Proof. unfold find_all. rewrite find_from_app. by intros [??]%app_eq_nil. Qed.

Lemma edge_extends_trans es1 es2 es3 :
  edge_extends es1 es2 → edge_extends es2 es3 → edge_extends es1 es3.
Proof.
  intros (new1 & -> & H1) (new2 & -> & H2). exists (new1 ++ new2).
  split; [by rewrite app_assoc|]. apply Forall_app. split; [done|].
  eapply Forall_impl; [exact H2|]. intros w Hw s d Hm.
  eapply find_all_none_app. by apply Hw.
Qed.

Lemma find_edges_extends s d es es' :
  edge_extends es es' → find_all (edge_is s t d pat) es ≠ [] →
  find_all (edge_is s t d pat) es' = find_all (edge_is s t d pat) es.
Proof.
  intros (new & -> & Hnew) Hsome. apply find_all_app_none.
  eapply Forall_impl; [exact Hnew|]. intros w Hw. cbn beta.
  destruct (edge_is s t d pat w) eqn:Hm; [|done]. destruct Hsome. by apply Hw.
Qed.

Lemma edge_is_created s d : edge_is s t d pat (Edge s t d (pattern_props pat)) = true.
Proof.
  unfold edge_is. cbn. rewrite bool_decide_eq_true_2 by done.
  destruct pat as [[k v]|]; [|done]. cbn.
  by rewrite lookup_singleton_eq, bool_decide_eq_true_2.
Qed.

Lemma edge_is_ends s d s' d' props :
  edge_is s t d pat (Edge s' t d' props) = true → s = s' ∧ d = d'.
Proof.
  unfold edge_is. intros [H _]%andb_true_iff.
  apply bool_decide_eq_true in H as (? & _ & ?). by cbn in *.
Qed.

Lemma merge_rel_spec s d es es' ws :
  merge_rel s t d pat es = (es', ws) →
  edge_extends es es' ∧ ws = find_all (edge_is s t d pat) es' ∧ ws ≠ [].
Proof.
  unfold merge_rel. destruct (find_all (edge_is s t d pat) es) as [|j js] eqn:Hm.
  - intros [= <- <-]. split_and!; [| |done].
    + eexists. split; [done|]. constructor; [|constructor].
      intros s' d' [-> ->]%edge_is_ends. done.
    + unfold find_all. rewrite find_from_app. fold (find_all (edge_is s t d pat) es).
      rewrite Hm. cbn [find_from app]. by rewrite edge_is_created.
  - intros [= <- <-]. split_and!; [apply edge_extends_refl|by rewrite Hm|done].
Qed.

Lemma merge_rel_stable s d es :
  find_all (edge_is s t d pat) es ≠ [] →
  merge_rel s t d pat es = (es, find_all (edge_is s t d pat) es).
Proof. intros Hsome. unfold merge_rel. by destruct (find_all _ _). Qed.

(** The rows [(r, w)] of a row [(r, e, x)], on a relationship list. *)
Definition links_of (es : list edge) (b : rec * nat * nat) : list (rec * nat) :=
  (b.1.1,.) <$> find_all (edge_is b.1.2 t b.2 pat) es.

Definition links_present (ts : list (rec * nat * nat)) (es : list edge) : Prop :=
  Forall (λ b, find_all (edge_is b.1.2 t b.2 pat) es ≠ []) ts.

Lemma merge_links_spec ts es ws es' ws' :
  foldl (merge_link t pat) (es, ws) ts = (es', ws') →
  edge_extends es es' ∧ ws' = ws ++ (ts ≫= links_of es') ∧ links_present ts es'.
Proof.
  revert es ws. induction ts as [|b ts IH]; intros es ws; cbn [foldl].
  - intros [= <- <-]. split_and!; [apply edge_extends_refl|by rewrite app_nil_r|constructor].
  - unfold merge_link at 2.
    destruct (merge_rel b.1.2 t b.2 pat es) as [es1 ws1] eqn:Hstep.
    intros Hrest. apply IH in Hrest as (Hext & -> & Hpres).
    apply merge_rel_spec in Hstep as (Hext1 & -> & Hne).
    split_and!.
    + by eapply edge_extends_trans.
    + rewrite bind_cons, <- app_assoc. do 2 f_equal.
      unfold links_of. by rewrite (find_edges_extends _ _ es1 es').
    + constructor; [|done]. by rewrite (find_edges_extends _ _ es1 es').
Qed.

Lemma merge_links_stable ts es ws :
  links_present ts es →
  foldl (merge_link t pat) (es, ws) ts = (es, ws ++ (ts ≫= links_of es)).
Proof.
  intros Hp. revert ws. induction Hp as [|b ts Hb _ IH]; intros ws; cbn [foldl].
  - by rewrite app_nil_r.
  - unfold merge_link at 2. rewrite merge_rel_stable by done.
    rewrite IH, bind_cons. by rewrite <- app_assoc.
Qed.

End LinkFacts.

(** ** Growth of the relationship list *)

(** Every relationship of [es] is still in [es'], at its position, with
    its ends, its type, its property "type" and, when it has one, its
    property "since". *)
Definition edges_keep (es es' : list edge) : Prop :=
  ∀ j w, es !! j = Some w →
    ∃ w', es' !! j = Some w' ∧ esrc w' = esrc w ∧ etype w' = etype w ∧
          edst w' = edst w ∧ eprops w' !! "type" = eprops w !! "type" ∧
          ∀ v, eprops w !! "since" = Some v → eprops w' !! "since" = Some v.

(** The patterns of the statements: no property, or the property "type". *)
Definition plain (pat : option (string * value)) : Prop :=
  pat = None ∨ ∃ v, pat = Some ("type", v).

Lemma edges_keep_refl es : edges_keep es es.
Proof. intros j w Hw. by exists w. Qed.

Lemma edges_keep_trans es1 es2 es3 :
  edges_keep es1 es2 → edges_keep es2 es3 → edges_keep es1 es3.
Proof.
  intros H12 H23 j w Hw.
  destruct (H12 j w Hw) as (w2 & Hw2 & ? & ? & ? & ? & Hs2).
  destruct (H23 j w2 Hw2) as (w3 & Hw3 & ? & ? & ? & ? & Hs3).
  exists w3. split_and!; [congruence..|]. intros v Hv. by apply Hs3, Hs2.
Qed.

Lemma edges_keep_app es new : edges_keep es (es ++ new).
Proof. intros j w Hw. exists w. split_and!; [by apply lookup_app_l_Some|done..]. Qed.

Lemma edge_extends_keep t pat es es' : edge_extends t pat es es' → edges_keep es es'.
Proof. intros (new & -> & _). apply edges_keep_app. Qed.

Lemma edges_keep_find s t d pat es es' :
  plain pat → edges_keep es es' →
  find_all (edge_is s t d pat) es ≠ [] → find_all (edge_is s t d pat) es' ≠ [].
Proof.
  intros Hpat Hkeep. rewrite !find_all_some.
  intros (j & (w & Hw & Hm)%elem_of_find_all).
  destruct (Hkeep j w Hw) as (w' & Hw' & Hs & Ht & Hd & Hty & _).
  exists j. apply elem_of_find_all. exists w'. split; [done|].
  unfold edge_is in *. rewrite Hs, Ht, Hd.
  destruct Hpat as [->|[v ->]]; [done|]. by rewrite Hty.
Qed.

(** The graph grows: nodes are added that are distinct from the old ones,
    and the relationships are kept. *)
Definition grows (g g' : graph) : Prop :=
  extends (nodes g) (nodes g') ∧ edges_keep (edges g) (edges g').

Lemma grows_refl g : grows g g.
Proof. split; [apply extends_refl|apply edges_keep_refl]. Qed.

Lemma grows_trans g1 g2 g3 : grows g1 g2 → grows g2 g3 → grows g1 g3.
Proof.
  intros [??] [??]. split; [by eapply extends_trans|by eapply edges_keep_trans].
Qed.

(** ** A link statement as a whole *)

Section LinkPhase.

Variable target : rec → option string.
Variable l : label.
Variable on_create : rec → string → gmap string value → gmap string value.
Variable t : rel_type.
Variable pat : option (string * value).

Hypothesis on_create_name : ∀ r v p, on_create r v p !! "name" = p !! "name".
Hypothesis plain_pat : plain pat.

(** Every row of the table has its target node, and a relationship to
    every node matching its target. *)
Definition linked_on (bs : list (rec * nat)) (g : graph) : Prop :=
  targets_present target l bs (nodes g) ∧
  links_present t pat (bs ≫= targets_of target l (nodes g)) (edges g).

(** The table of the relationships bound to the rows. *)
Definition bound_links (bs : list (rec * nat)) (g : graph) : list (rec * nat) :=
  (bs ≫= targets_of target l (nodes g)) ≫= links_of t pat (edges g).

Lemma link_spec bs g g' ws :
  link target l on_create t pat bs g = Some (g', ws) →
  extends (nodes g) (nodes g') ∧ edge_extends t pat (edges g) (edges g') ∧
  linked_on bs g' ∧ ws = bound_links bs g'.
Proof.
  unfold link.
  destruct (fold_rows _ (nodes g, []) bs) as [[ns ts]|] eqn:Hn; [|done].
  cbn [mbind option_bind].
  destruct (foldl _ (edges g, []) ts) as [es ws'] eqn:He.
  intros [= <- <-].
  apply merge_targets_spec in Hn as (Hext & -> & Hpres); [|done].
  apply merge_links_spec in He as (Heext & -> & Hlinks).
  cbn [app] in *. by split_and!.
Qed.

Lemma link_stable bs g :
  linked_on bs g →
  link target l on_create t pat bs g = Some (g, bound_links bs g).
Proof.
  intros [Hn He]. unfold link.
  rewrite merge_targets_stable by done. cbn [mbind option_bind app].
  rewrite merge_links_stable by done. cbn [app]. by destruct g.
Qed.

Lemma targets_of_extends bs ns ns' :
  extends ns ns' → targets_present target l bs ns →
  bs ≫= targets_of target l ns' = bs ≫= targets_of target l ns.
Proof.
  intros Hext Hp. induction Hp as [|b bs Hb _ IH]; [done|].
  rewrite !bind_cons, IH. f_equal. unfold targets_of.
  destruct (target b.1) as [v|]; [|done].
  by rewrite (match_name_extends l (VStr v) ns ns') by auto.
Qed.

(** Being linked survives the growth of the graph. *)
Lemma linked_on_grows bs g g' :
  grows g g' → linked_on bs g → linked_on bs g'.
Proof.
  intros [Hext Hkeep] [Hn He]. split.
  - eapply Forall_impl; [exact Hn|]. intros b Hb v Hv. cbn beta in *.
    rewrite (match_name_extends l (VStr v) (nodes g) (nodes g')) by auto. auto.
  - unfold links_present. rewrite (targets_of_extends bs (nodes g) (nodes g')) by done.
    eapply Forall_impl; [exact He|]. intros b Hb. cbn beta in *.
    by eapply edges_keep_find.
Qed.

Lemma foldl_merge_link_fst (b : rec * nat) xs st :
  (foldl (merge_link t pat) st ((b,.) <$> xs)).1 =
    foldl (λ es x, (merge_rel b.2 t x pat es).1) st.1 xs.
Proof.
  revert st. induction xs as [|x xs IH]; intros [es ws]; cbn [foldl fmap list_fmap]; [done|].
  rewrite IH. f_equal. unfold merge_link. cbn [fst snd].
  by destruct (merge_rel b.2 t x pat es).
Qed.

Lemma foreach_link_some g b v :
  target b.1 = Some v →
  foreach_link target l on_create t pat g b =
    '(ns', m) ← merge_node l "name" (VStr v) (on_create b.1 v) (nodes g);
    Some (Graph ns' (foldl (λ es x, (merge_rel b.2 t x pat es).1) (edges g) (bound m))).
Proof. intros Hv. unfold foreach_link. by rewrite Hv. Qed.

Lemma foreach_link_none g b :
  target b.1 = None → foreach_link target l on_create t pat g b = Some g.
Proof. intros Hv. unfold foreach_link. by rewrite Hv. Qed.

Lemma foreach_link_fold bs ns ts st :
  fold_rows (foreach_link target l on_create t pat)
            (Graph ns (foldl (merge_link t pat) st ts).1) bs =
  (λ r : list node * list (rec * nat * nat),
     Graph r.1 (foldl (merge_link t pat) st r.2).1)
    <$> fold_rows (merge_target target l on_create) (ns, ts) bs.
Proof.
  revert ns ts. induction bs as [|b bs IH]; intros ns ts; cbn [fold_rows]; [done|].
  destruct (target b.1) as [v|] eqn:Hv.
  - rewrite (merge_target_some _ _ _ _ _ _ v), (foreach_link_some _ _ v) by done.
    cbn [nodes edges].
    destruct (merge_node l "name" (VStr v) (on_create b.1 v) ns) as [[ns1 m]|]; [|done].
    cbn [mbind option_bind]. rewrite <- IH. do 2 f_equal.
    by rewrite foldl_app, foldl_merge_link_fst.
  - rewrite merge_target_none, foreach_link_none by done.
    cbn [mbind option_bind]. apply IH.
Qed.

(** The [FOREACH] form of a link statement does what its two-clause form
    does. *)
Lemma foreach_link_eq bs g :
  fold_rows (foreach_link target l on_create t pat) g bs =
    fst <$> link target l on_create t pat bs g.
Proof.
  destruct g as [ns es].
  pose proof (foreach_link_fold bs ns [] (es, [])) as H. cbn [foldl fst] in H.
  rewrite H. unfold link. cbn [nodes edges].
  destruct (fold_rows _ (ns, []) bs) as [[ns' ts']|]; [|done].
  cbn [fmap option_fmap option_map mbind option_bind fst snd].
  by destruct (foldl _ (es, []) ts').
Qed.

End LinkPhase.

(** ** The [SET] clause of the project statement *)

Lemma find_all_alter {A} (p : A → bool) (f : A → A) i l :
  (∀ x, p (f x) = p x) → find_all p (alter f i l) = find_all p l.
Proof.
  intros Hf. apply find_from_ext. revert i.
  induction l as [|x l IH]; intros [|i]; cbn; constructor; auto.
  clear. induction l; constructor; auto.
Qed.

Lemma coalesce_since_other r p k : k ≠ "since" → coalesce_since r p !! k = p !! k.
Proof.
  intros Hk. unfold coalesce_since. destruct (p !! "since"); [done|].
  by rewrite set_prop_ne.
Qed.

Lemma coalesce_since_kept r p v :
  p !! "since" = Some v → coalesce_since r p = p.
Proof. intros Hv. unfold coalesce_since. by rewrite Hv. Qed.

Lemma coalesce_since_set r p :
  coalesce_since r p !! "since" ≠ None ∨ doj r = None.
Proof.
  unfold coalesce_since. destruct (p !! "since") eqn:Hs.
  - left. by rewrite Hs.
  - destruct (doj r); [left|by right]. cbn. by rewrite lookup_insert_eq.
Qed.

Lemma coalesce_since_id r p :
  p !! "since" ≠ None ∨ doj r = None → coalesce_since r p = p.
Proof.
  unfold coalesce_since. destruct (p !! "since") eqn:Hs; [done|].
  intros [?| ->]; [done|]. cbn. by apply delete_id.
Qed.

Lemma edge_is_coalesce s t d pat r w :
  plain pat → edge_is s t d pat (map_eprops (coalesce_since r) w) = edge_is s t d pat w.
Proof.
  intros Hpat. unfold edge_is. cbn. destruct Hpat as [->|[v ->]]; [done|].
  by rewrite coalesce_since_other.
Qed.

Lemma set_since_keep es b : edges_keep es (set_since es b).
Proof.
  intros j w Hw. unfold set_since. rewrite list_lookup_alter.
  case_decide as Hj; [subst j; rewrite Hw|rewrite Hw]; eexists; (split; [done|]); cbn.
  - split_and!; [done..|by rewrite coalesce_since_other|].
    intros v Hv. by rewrite (coalesce_since_kept _ _ v).
  - by split_and!.
Qed.

Lemma foldl_set_since_keep ws es : edges_keep es (foldl set_since es ws).
Proof.
  revert es. induction ws as [|b ws IH]; intros es; cbn [foldl].
  - apply edges_keep_refl.
  - eapply edges_keep_trans; [apply set_since_keep|apply IH].
Qed.

Lemma foldl_set_since_find s t d pat ws es :
  plain pat →
  find_all (edge_is s t d pat) (foldl set_since es ws) = find_all (edge_is s t d pat) es.
Proof.
  intros Hpat. revert es. induction ws as [|b ws IH]; intros es; cbn [foldl]; [done|].
  rewrite IH. unfold set_since. apply find_all_alter.
  intros w. by apply edge_is_coalesce.
Qed.

(** Every bound relationship has its [since], unless its row has no date
    of joining. *)
Definition since_done (ws : list (rec * nat)) (es : list edge) : Prop :=
  Forall (λ b, ∀ w, es !! b.2 = Some w → eprops w !! "since" ≠ None ∨ doj b.1 = None) ws.

Lemma since_done_keep ws es es' : edges_keep es es' → length es' = length es →
  since_done ws es → since_done ws es'.
Proof.
  intros Hkeep Hlen Hd. eapply Forall_impl; [exact Hd|].
  intros b Hb w' Hw'. cbn beta in *.
  destruct (es !! b.2) as [w|] eqn:Hw.
  - destruct (Hkeep _ _ Hw) as (w2 & Hw2 & _ & _ & _ & _ & Hs).
    rewrite Hw' in Hw2. injection Hw2 as <-.
    destruct (Hb w eq_refl) as [Hsome| ?]; [left|by right].
    destruct (eprops w !! "since") as [v|] eqn:Hv; [|done]. by rewrite (Hs v).
  - apply lookup_ge_None in Hw. apply lookup_lt_Some in Hw'. lia.
Qed.

Lemma length_foldl_set_since ws es : length (foldl set_since es ws) = length es.
Proof.
  revert es. induction ws as [|b ws IH]; intros es; cbn [foldl]; [done|].
  rewrite IH. unfold set_since. apply length_alter.
Qed.

Lemma since_done_after ws es : since_done ws (foldl set_since es ws).
Proof.
  revert es. induction ws as [|b ws IH]; intros es; cbn [foldl]; [constructor|].
  constructor; [|apply IH].
  assert (since_done [b] (set_since es b)) as Hb.
  { constructor; [|constructor]. intros w Hw. unfold set_since in Hw.
    rewrite list_lookup_alter_eq in Hw.
    destruct (es !! b.2) as [w0|]; [|done]. injection Hw as <-. cbn.
    apply coalesce_since_set. }
  eapply (since_done_keep [b] _ (foldl set_since (set_since es b) ws)) in Hb.
  - by apply Forall_cons in Hb as [? _].
  - apply foldl_set_since_keep.
  - apply length_foldl_set_since.
Qed.

Lemma since_done_fixpoint ws es : since_done ws es → foldl set_since es ws = es.
Proof.
  induction 1 as [|b ws Hb _ IH]; cbn [foldl]; [done|].
  assert (set_since es b = es) as ->; [|done].
  unfold set_since. apply list_eq. intros j. rewrite list_lookup_alter.
  case_decide as Hj; [subst j|done].
  destruct (es !! b.2) as [w|] eqn:Hw; [|done]. cbn. f_equal.
  destruct w as [s t d p]. unfold map_eprops. cbn. f_equal.
  apply coalesce_since_id. apply (Hb _ eq_refl).
Qed.

(** ** The link statements of [upsert] *)

Lemma no_create_name (r : rec) (v : string) (p : gmap string value) :
  no_create r v p !! "name" = p !! "name".
Proof. done. Qed.

Lemma on_create_stub_name prefix (r : rec) (v : string) (p : gmap string value) :
  on_create_stub prefix r v p !! "name" = p !! "name".
Proof. unfold on_create_stub. by rewrite set_prop_ne. Qed.

Lemma plain_none : plain None.
Proof. by left. Qed.

Lemma plain_type v : plain (Some ("type", v)).
Proof. right. by exists v. Qed.

(** What each link statement leaves true of the batch [b] in the graph. *)
Definition linked_team b g :=
  linked_on team Team WORKS_IN None (matched (λ r, truthy (team r)) b (nodes g)) g.
Definition linked_manager b g :=
  linked_on managerName Employee REPORTS_TO None
            (matched (λ r, truthy (managerName r)) b (nodes g)) g.
Definition linked_lead b g :=
  linked_on leadName Employee LEAD_REPORTING None
            (matched (λ r, truthy (leadName r)) b (nodes g)) g.
Definition linked_primary b g :=
  linked_on primarySkill Skill HAS_SKILL (Some ("type", VStr "primary"))
            (matched (λ _, true) b (nodes g)) g.
Definition linked_secondary b g :=
  linked_on secondarySkill Skill HAS_SKILL (Some ("type", VStr "secondary"))
            (matched (λ _, true) b (nodes g)) g.
Definition linked_project b g :=
  linked_on project Project WORKS_ON None
            (matched (λ r, truthy (project r)) b (nodes g)) g.
Definition since_set b g :=
  since_done (bound_links project Project WORKS_ON None
                (matched (λ r, truthy (project r)) b (nodes g)) g) (edges g).

Lemma matched_extends guard b ns ns' :
  extends ns ns' → covered b ns → matched guard b ns' = matched guard b ns.
Proof.
  intros Hext Hc. rewrite !matched_bindings.
  apply bindings_extends; [done|]. by apply covered_filter.
Qed.

Section LinkBatch.

Variable guard : rec → bool.
Variable target : rec → option string.
Variable l : label.
Variable on_create : rec → string → gmap string value → gmap string value.
Variable t : rel_type.
Variable pat : option (string * value).

Hypothesis on_create_name : ∀ r v p, on_create r v p !! "name" = p !! "name".
Hypothesis plain_pat : plain pat.

Lemma link_batch_spec b g0 g g' ws :
  covered b (nodes g0) → extends (nodes g0) (nodes g) →
  link target l on_create t pat (matched guard b (nodes g0)) g = Some (g', ws) →
  grows g g' ∧ linked_on target l t pat (matched guard b (nodes g')) g' ∧
  ws = bound_links target l t pat (matched guard b (nodes g')) g'.
Proof.
  intros Hc Hext0 Hrun. apply link_spec in Hrun as (Hext & Heext & Hl & ->); [|done].
  rewrite (matched_extends guard b (nodes g0) (nodes g')); [|by eapply extends_trans|done].
  split_and!; [|done..]. split; [done|]. by eapply edge_extends_keep.
Qed.

Lemma linked_batch_grows b g g' :
  covered b (nodes g) → grows g g' →
  linked_on target l t pat (matched guard b (nodes g)) g →
  linked_on target l t pat (matched guard b (nodes g')) g'.
Proof.
  intros Hc Hg Hl. rewrite (matched_extends guard b (nodes g) (nodes g')); [|apply Hg|done].
  by eapply linked_on_grows.
Qed.

End LinkBatch.

(** Each statement makes the graph grow, whatever the batch. *)
Lemma phase_team_grows b g g' : phase_team b g = Some g' → grows g g'.
Proof.
  unfold phase_team. destruct (link _ _ _ _ _ _ g) as [[g1 ws]|] eqn:Hl; [|done].
  intros [= <-]. apply link_spec in Hl as (? & ? & _); [|apply no_create_name].
  split; [done|]. by eapply edge_extends_keep.
Qed.

Lemma phase_manager_grows b g g' : phase_manager b g = Some g' → grows g g'.
Proof.
  unfold phase_manager. destruct (link _ _ _ _ _ _ g) as [[g1 ws]|] eqn:Hl; [|done].
  intros [= <-]. apply link_spec in Hl as (? & ? & _); [|apply on_create_stub_name].
  split; [done|]. by eapply edge_extends_keep.
Qed.

Lemma phase_lead_grows b g g' : phase_lead b g = Some g' → grows g g'.
Proof.
  unfold phase_lead. destruct (link _ _ _ _ _ _ g) as [[g1 ws]|] eqn:Hl; [|done].
  intros [= <-]. apply link_spec in Hl as (? & ? & _); [|apply on_create_stub_name].
  split; [done|]. by eapply edge_extends_keep.
Qed.

Lemma phase_skills_grows b g g' : phase_skills b g = Some g' → grows g g'.
Proof.
  unfold phase_skills. rewrite foreach_link_eq.
  destruct (link _ _ _ _ _ _ g) as [[g1 ws1]|] eqn:Hl1; [|done].
  cbn [fmap option_fmap option_map mbind option_bind fst]. rewrite foreach_link_eq.
  destruct (link _ _ _ _ _ _ g1) as [[g2 ws2]|] eqn:Hl2; [|done].
  intros [= <-].
  apply link_spec in Hl1 as (? & ? & _); [|apply no_create_name].
  apply link_spec in Hl2 as (? & ? & _); [|apply no_create_name].
  eapply grows_trans; (split; [done|]; by eapply edge_extends_keep).
Qed.

Lemma phase_projects_grows b g g' : phase_projects b g = Some g' → grows g g'.
Proof.
  unfold phase_projects. destruct (link _ _ _ _ _ _ g) as [[g1 ws]|] eqn:Hl; [|done].
  cbn [mbind option_bind]. intros [= <-].
  apply link_spec in Hl as (? & ? & _); [|apply no_create_name].
  split; [done|]. cbn [edges].
  eapply edges_keep_trans; [by eapply edge_extends_keep|apply foldl_set_since_keep].
Qed.

(** The relationships are kept by every statement of the batch. *)
Lemma run_statement_keep b s g g' :
  run_statement b s g = Some g' → edges_keep (edges g) (edges g').
Proof.
  destruct s; cbn [run_statement].
  - intros ->%phase_employees_edges. apply edges_keep_refl.
  - by intros [_ ?]%phase_team_grows.
  - by intros [_ ?]%phase_manager_grows.
  - by intros [_ ?]%phase_lead_grows.
  - by intros [_ ?]%phase_skills_grows.
  - by intros [_ ?]%phase_projects_grows.
Qed.

Lemma run_statements_keep b stmts done g :
  edges_keep (edges g) (edges (reached (run_statements b stmts done g))).
Proof.
  revert done g. induction stmts as [|s stmts IH]; intros done g; cbn [run_statements].
  - apply edges_keep_refl.
  - destruct (run_statement b s g) as [g'|] eqn:Hs; [|apply edges_keep_refl].
    eapply edges_keep_trans; [by eapply run_statement_keep|apply IH].
Qed.

(** ** Idempotence of the statements of the batch *)

(** The batch has nothing left to do in the graph. *)
Definition ingested (b : list rec) (g : graph) : Prop :=
  settled b (nodes g) ∧ linked_team b g ∧ linked_manager b g ∧ linked_lead b g ∧
  linked_primary b g ∧ linked_secondary b g ∧ linked_project b g ∧ since_set b g.

Lemma bound_links_since target l t pat bs ns es ws :
  plain pat →
  bound_links target l t pat bs (Graph ns (foldl set_since es ws))
    = bound_links target l t pat bs (Graph ns es).
Proof.
  intros Hpat. unfold bound_links. cbn [nodes edges].
  apply list_bind_ext; [|done]. intros x. unfold links_of.
  by rewrite foldl_set_since_find.
Qed.

Lemma settled_grows b g g' : grows g g' → settled b (nodes g) → settled b (nodes g').
Proof. intros [Hext _]. by apply settled_extends. Qed.

(** What a statement has done when the store has accepted it, on a graph
    in which the employee statement has nothing left to do. *)
Lemma team_linked b g g' :
  settled b (nodes g) → phase_team b g = Some g' → linked_team b g'.
Proof.
  intros S H. unfold phase_team in H.
  destruct (link _ _ _ _ _ _ g) as [[g2 ws]|] eqn:Hl; [|done]. injection H as ->.
  eapply (link_batch_spec _ team Team no_create WORKS_IN None no_create_name
            b g g) in Hl as (_ & Hl & _); [done|apply S|apply extends_refl].
Qed.

Lemma manager_linked b g g' :
  settled b (nodes g) → phase_manager b g = Some g' → linked_manager b g'.
Proof.
  intros S H. unfold phase_manager in H.
  destruct (link _ _ _ _ _ _ g) as [[g2 ws]|] eqn:Hl; [|done]. injection H as ->.
  eapply (link_batch_spec _ managerName Employee _ REPORTS_TO None
            (on_create_stub_name _) b g g) in Hl as (_ & Hl & _);
    [done|apply S|apply extends_refl].
Qed.

Lemma lead_linked b g g' :
  settled b (nodes g) → phase_lead b g = Some g' → linked_lead b g'.
Proof.
  intros S H. unfold phase_lead in H.
  destruct (link _ _ _ _ _ _ g) as [[g2 ws]|] eqn:Hl; [|done]. injection H as ->.
  eapply (link_batch_spec _ leadName Employee _ LEAD_REPORTING None
            (on_create_stub_name _) b g g) in Hl as (_ & Hl & _);
    [done|apply S|apply extends_refl].
Qed.

Lemma skills_linked b g g' :
  settled b (nodes g) → phase_skills b g = Some g' →
  linked_primary b g' ∧ linked_secondary b g'.
Proof.
  intros S H. unfold phase_skills in H. rewrite foreach_link_eq in H.
  destruct (link _ _ _ _ _ _ g) as [[ga ws1]|] eqn:Hl1; [|done].
  cbn [fmap option_fmap option_map mbind option_bind fst] in H.
  rewrite foreach_link_eq in H.
  destruct (link _ _ _ _ _ _ ga) as [[gb ws2]|] eqn:Hl2; [|done]. injection H as ->.
  eapply (link_batch_spec _ primarySkill Skill no_create HAS_SKILL _ no_create_name
            b g g) in Hl1 as (Ga & Hp & _); [|apply S|apply extends_refl].
  eapply (link_batch_spec _ secondarySkill Skill no_create HAS_SKILL _ no_create_name
            b g ga) in Hl2 as (Gb & Hs & _); [|apply S|apply Ga].
  split; [|done].
  eapply (linked_batch_grows _ primarySkill Skill HAS_SKILL _ (plain_type _) b ga g');
    [|done..].
  apply (settled_grows b _ _ Ga S).
Qed.

Lemma projects_linked b g g' :
  settled b (nodes g) → phase_projects b g = Some g' →
  linked_project b g' ∧ since_set b g'.
Proof.
  intros S H. unfold phase_projects in H.
  destruct (link _ _ _ _ _ _ g) as [[ga ws]|] eqn:Hl; [|done].
  cbn [mbind option_bind] in H. injection H as <-.
  eapply (link_batch_spec _ project Project no_create WORKS_ON None no_create_name
            b g g) in Hl as (Ga & Hl & Hws); [|apply S|apply extends_refl].
  pose proof (settled_grows b _ _ Ga S) as Sa.
  assert (grows ga (Graph (nodes ga) (foldl set_since (edges ga) ws))) as Gs.
  { split; [apply extends_refl|apply foldl_set_since_keep]. }
  split.
  - apply (linked_batch_grows _ project Project WORKS_ON None plain_none b ga _
             (proj1 Sa) Gs Hl).
  - unfold since_set. cbn [nodes edges].
    rewrite bound_links_since by apply plain_none.
    replace (Graph (nodes ga) (edges ga)) with ga by by destruct ga.
    rewrite <- Hws. apply since_done_after.
Qed.

(** A statement that has nothing left to do leaves the graph as it is. *)
Lemma team_fixed b g : linked_team b g → phase_team b g = Some g.
Proof. intros T. unfold phase_team. by rewrite link_stable. Qed.

Lemma manager_fixed b g : linked_manager b g → phase_manager b g = Some g.
Proof. intros M. unfold phase_manager. by rewrite link_stable. Qed.

Lemma lead_fixed b g : linked_lead b g → phase_lead b g = Some g.
Proof. intros L. unfold phase_lead. by rewrite link_stable. Qed.

Lemma skills_fixed b g :
  linked_primary b g → linked_secondary b g → phase_skills b g = Some g.
Proof.
  intros P Q. unfold phase_skills. rewrite foreach_link_eq, link_stable by done.
  cbn [fmap option_fmap option_map mbind option_bind fst].
  by rewrite foreach_link_eq, link_stable.
Qed.

Lemma projects_fixed b g :
  linked_project b g → since_set b g → phase_projects b g = Some g.
Proof.
  intros R W. unfold phase_projects. rewrite link_stable by done.
  cbn [mbind option_bind]. rewrite since_done_fixpoint by done. by destruct g.
Qed.

(** The statements of the batch, run a second time on the graph the
    first run reached: the statements the store accepted change nothing,
    and the statement it refused is refused again. A run that was not
    aborted leaves nothing to do. *)
Lemma rerun_statements b g :
  Forall canonical b →
  run_statements b batch_statements []
    (reached (run_statements b batch_statements [] g))
    = run_statements b batch_statements [] g ∧
  (aborted (run_statements b batch_statements [] g) = false →
   ingested b (reached (run_statements b batch_statements [] g))).
Proof.
  intros Hcan. unfold batch_statements. cbn [run_statements run_statement app].
  (* employees *)
  destruct (phase_employees b g) as [g1|] eqn:H1;
    [|cbn [reached aborted run_statements run_statement app]; by rewrite H1].
  pose proof (phase_employees_keys _ _ _ H1) as Hkeys.
  pose proof (phase_employees_settled b g g1 Hcan H1) as S1.
  pose proof (settled_fixpoint b g1 Hcan Hkeys S1) as F1.
  (* team *)
  destruct (phase_team b g1) as [g2|] eqn:H2;
    [|cbn [reached aborted run_statements run_statement app]; by rewrite F1, H2].
  pose proof (phase_team_grows _ _ _ H2) as G2.
  pose proof (settled_grows b _ _ G2 S1) as S2.
  pose proof (team_linked b g1 g2 S1 H2) as T2.
  pose proof (settled_fixpoint b g2 Hcan Hkeys S2) as F2.
  (* manager *)
  destruct (phase_manager b g2) as [g3|] eqn:H3;
    [|cbn [reached aborted run_statements run_statement app];
      by rewrite F2, (team_fixed b g2 T2), H3].
  pose proof (phase_manager_grows _ _ _ H3) as G3.
  pose proof (settled_grows b _ _ G3 S2) as S3.
  pose proof (manager_linked b g2 g3 S2 H3) as M3.
  pose proof (linked_batch_grows _ team Team WORKS_IN None plain_none b g2 g3
                (proj1 S2) G3 T2) as T3.
  pose proof (settled_fixpoint b g3 Hcan Hkeys S3) as F3.
  (* lead *)
  destruct (phase_lead b g3) as [g4|] eqn:H4;
    [|cbn [reached aborted run_statements run_statement app];
      by rewrite F3, (team_fixed b g3 T3), (manager_fixed b g3 M3), H4].
  pose proof (phase_lead_grows _ _ _ H4) as G4.
  pose proof (settled_grows b _ _ G4 S3) as S4.
  pose proof (lead_linked b g3 g4 S3 H4) as L4.
  pose proof (linked_batch_grows _ team Team WORKS_IN None plain_none b g3 g4
                (proj1 S3) G4 T3) as T4.
  pose proof (linked_batch_grows _ managerName Employee REPORTS_TO None plain_none b g3 g4
                (proj1 S3) G4 M3) as M4.
  pose proof (settled_fixpoint b g4 Hcan Hkeys S4) as F4.
  (* skills *)
  destruct (phase_skills b g4) as [g5|] eqn:H5;
    [|cbn [reached aborted run_statements run_statement app];
      by rewrite F4, (team_fixed b g4 T4), (manager_fixed b g4 M4),
                 (lead_fixed b g4 L4), H5].
  pose proof (phase_skills_grows _ _ _ H5) as G5.
  pose proof (settled_grows b _ _ G5 S4) as S5.
  destruct (skills_linked b g4 g5 S4 H5) as [P5 Q5].
  pose proof (linked_batch_grows _ team Team WORKS_IN None plain_none b g4 g5
                (proj1 S4) G5 T4) as T5.
  pose proof (linked_batch_grows _ managerName Employee REPORTS_TO None plain_none b g4 g5
                (proj1 S4) G5 M4) as M5.
  pose proof (linked_batch_grows _ leadName Employee LEAD_REPORTING None plain_none b g4 g5
                (proj1 S4) G5 L4) as L5.
  pose proof (settled_fixpoint b g5 Hcan Hkeys S5) as F5.
  (* projects *)
  destruct (phase_projects b g5) as [g6|] eqn:H6;
    [|cbn [reached aborted run_statements run_statement app];
      by rewrite F5, (team_fixed b g5 T5), (manager_fixed b g5 M5),
                 (lead_fixed b g5 L5), (skills_fixed b g5 P5 Q5), H6].
  pose proof (phase_projects_grows _ _ _ H6) as G6.
  pose proof (settled_grows b _ _ G6 S5) as S6.
  destruct (projects_linked b g5 g6 S5 H6) as [R6 W6].
  pose proof (linked_batch_grows _ team Team WORKS_IN None plain_none b g5 g6
                (proj1 S5) G6 T5) as T6.
  pose proof (linked_batch_grows _ managerName Employee REPORTS_TO None plain_none b g5 g6
                (proj1 S5) G6 M5) as M6.
  pose proof (linked_batch_grows _ leadName Employee LEAD_REPORTING None plain_none b g5 g6
                (proj1 S5) G6 L5) as L6.
  pose proof (linked_batch_grows _ primarySkill Skill HAS_SKILL _ (plain_type _) b g5 g6
                (proj1 S5) G6 P5) as P6.
  pose proof (linked_batch_grows _ secondarySkill Skill HAS_SKILL _ (plain_type _) b g5 g6
                (proj1 S5) G6 Q5) as Q6.
  cbn [reached aborted run_statements run_statement app].
  split; [|intros _; by split_and!].
  by rewrite (settled_fixpoint b g6 Hcan Hkeys S6), (team_fixed b g6 T6),
             (manager_fixed b g6 M6), (lead_fixed b g6 L6),
             (skills_fixed b g6 P6 Q6), (projects_fixed b g6 R6 W6).
Qed.

(** ** The nodes a link statement creates *)

Section Created.

Variable target : rec → option string.
Variable l : label.
Variable on_create : rec → string → gmap string value → gmap string value.
Variable t : rel_type.
Variable pat : option (string * value).

(** [n] is the node a row of the table creates for a target that has no
    node in [ns]. *)
Definition created_by (bs : list (rec * nat)) (ns : list node) (n : node) : Prop :=
  ∃ b v, b ∈ bs ∧ target b.1 = Some v ∧ match_nodes l "name" (VStr v) ns = [] ∧
         n = Node l (on_create b.1 v {[ "name" := VStr v ]}).

Lemma merge_node_created v f ns ns' m :
  merge_node l "name" (VStr v) f ns = Some (ns', m) →
  ns' = ns ∨ (match_nodes l "name" (VStr v) ns = [] ∧
              ns' = ns ++ [Node l (f {[ "name" := VStr v ]})]).
Proof.
  unfold merge_node. destruct (match_nodes l "name" (VStr v) ns) eqn:Hm.
  - unfold create_node. destruct (violates _ _ _); [done|].
    cbn [mbind option_bind]. intros [= <- _]. by right.
  - intros [= <- _]. by left.
Qed.

Lemma created_by_cons b bs ns n : created_by bs ns n → created_by (b :: bs) ns n.
Proof. intros (b' & v & ? & ?). exists b', v. split; [by right|done]. Qed.

Lemma merge_targets_created bs ns0 mid ts ns' ts' :
  fold_rows (merge_target target l on_create) (ns0 ++ mid, ts) bs = Some (ns', ts') →
  ∃ new, ns' = ns0 ++ mid ++ new ∧ Forall (created_by bs ns0) new.
Proof.
  revert mid ts. induction bs as [|b bs IH]; intros mid ts; cbn [fold_rows].
  - intros [= <- _]. exists []. by rewrite app_nil_r.
  - destruct (merge_target target l on_create (ns0 ++ mid, ts) b) as [[ns1 ts1]|] eqn:Hstep;
      [|done]. cbn [mbind option_bind]. intros Hrest.
    destruct (target b.1) as [v|] eqn:Hv.
    + rewrite (merge_target_some _ _ _ _ _ _ v) in Hstep by done.
      destruct (merge_node _ _ _ _ _) as [[ns2 m]|] eqn:Hm; [|done].
      cbn [mbind option_bind] in Hstep. injection Hstep as <- <-.
      apply merge_node_created in Hm as [->|[Hnone ->]].
      * apply IH in Hrest as (new & -> & Hnew). exists new. split; [done|].
        eapply Forall_impl; [exact Hnew|]. apply created_by_cons.
      * rewrite <- app_assoc in Hrest. apply IH in Hrest as (new & -> & Hnew).
        eexists (_ :: new). split; [by rewrite <- app_assoc|].
        constructor.
        -- exists b, v. split_and!; [by left|done| |done].
           by eapply match_nodes_none_app.
        -- eapply Forall_impl; [exact Hnew|]. apply created_by_cons.
    + rewrite merge_target_none in Hstep by done. injection Hstep as <- <-.
      apply IH in Hrest as (new & -> & Hnew). exists new. split; [done|].
      eapply Forall_impl; [exact Hnew|]. apply created_by_cons.
Qed.

Lemma link_created bs g g' ws :
  link target l on_create t pat bs g = Some (g', ws) →
  ∃ new, nodes g' = nodes g ++ new ∧ Forall (created_by bs (nodes g)) new.
Proof.
  unfold link.
  destruct (fold_rows _ (nodes g, []) bs) as [[ns ts]|] eqn:Hn; [|done].
  cbn [mbind option_bind]. destruct (foldl _ _ ts) as [es ws'].
  intros [= <- _]. cbn [nodes].
  pose proof (merge_targets_created bs (nodes g) [] [] ns ts) as Hc.
  rewrite app_nil_r in Hc. destruct (Hc Hn) as (new & -> & Hnew).
  by exists new.
Qed.

End Created.

Lemma truthy_spec x : truthy x = true ↔ ∃ s, x = Some s ∧ s ≠ "".
Proof.
  destruct x as [s|]; cbn.
  - rewrite negb_true_iff, bool_decide_eq_false. split; [by exists s|].
    by intros (? & [= <-] & ?).
  - split; [done|]. by intros (? & ? & _).
Qed.

Lemma elem_of_matched guard b ns r e :
  (r, e) ∈ matched guard b ns ↔ r ∈ b ∧ guard r = true ∧ e ∈ match_employee ns r.
Proof.
  rewrite matched_bindings, elem_of_bindings, list_elem_of_filter. tauto.
Qed.

(** ** Manager and lead edges: merged by name, with stubs *)

(** What a reporting statement ([prefix] the prefix of its stub ids,
    [field] the referenced name, [t] the type of its relationship) has
    done when it has taken the graph from [g] to [g']: the nodes of [g]
    are as they were; every node added is a stub, created for a row whose
    referenced name no Employee of [g] had, with that name and the
    synthetic id of the row; and every row with a non-empty referenced
    name has, from every Employee node it matched, a relationship to
    every Employee node of that name, of which there is at least one. *)
Definition reporting_done (prefix : string) (field : rec → option string)
    (t : rel_type) (b : list rec) (g g' : graph) : Prop :=
  (∃ new, nodes g' = nodes g ++ new ∧
     Forall (λ n, ∃ r m id, r ∈ b ∧ field r = Some m ∧ m ≠ "" ∧ empId r = Some id ∧
                  match_nodes Employee "name" (VStr m) (nodes g) = [] ∧
                  n = Node Employee (<["empId" := VStr (prefix +:+ id +:+ "::" +:+ m)]>
                                       {[ "name" := VStr m ]})) new) ∧
  (∀ r m e, r ∈ b → field r = Some m → m ≠ "" → e ∈ match_employee (nodes g) r →
     match_nodes Employee "name" (VStr m) (nodes g') ≠ [] ∧
     ∀ x, x ∈ match_nodes Employee "name" (VStr m) (nodes g') →
          find_all (edge_is e t x None) (edges g') ≠ []).

Lemma reporting_link prefix field t b g g' ws :
  link field Employee (on_create_stub prefix) t None
       (matched (λ r, truthy (field r)) b (nodes g)) g = Some (g', ws) →
  reporting_done prefix field t b g g'.
Proof.
  intros Hl. split.
  - apply link_created in Hl as (new & -> & Hnew). exists new. split; [done|].
    eapply Forall_impl; [exact Hnew|].
    intros n ([r e] & v & Hb & Hv & Hnone & ->). cbn [fst] in *.
    apply elem_of_matched in Hb as (Hr & Ht & He).
    apply truthy_spec in Ht as (m & Hm & Hne).
    rewrite Hm in Hv. injection Hv as ->.
    apply elem_of_match_employee in He as (n0 & _ & Hrm).
    apply row_matches_spec in Hrm as (id & Hid & _).
    exists r, v, id. split_and!; [done..|].
    unfold on_create_stub, stub_id. by rewrite Hid.
  - apply link_spec in Hl as (_ & _ & [Hn He] & _); [|apply on_create_stub_name].
    intros r m e Hr Hm Hne Hme.
    assert ((r, e) ∈ matched (λ r, truthy (field r)) b (nodes g)) as Hb.
    { apply elem_of_matched. split_and!; [done| |done]. apply truthy_spec. eauto. }
    split.
    + eapply Forall_forall in Hn; [|exact Hb]. by apply Hn.
    + intros x Hx. unfold links_present in He.
      eapply Forall_forall in He.
      2:{ apply list_elem_of_bind. exists (r, e). split; [|exact Hb].
          unfold targets_of. cbn [fst]. rewrite Hm.
          apply list_elem_of_fmap. by exists x. }
      done.
Qed.

(** C4, as amended. The manager statement and the lead statement merge
    the referenced Employee by name: a stub with the synthetic id is
    created exactly for a referenced name no Employee has, and the
    relationship is merged to every Employee of that name. A later real
    row is merged by the employee statement on its id: the nodes no row
    matches, stubs included, are left as they are, and a row whose id no
    node has gets a new node. *)
Theorem reporting_edges_by_name b g :
  (∀ g', phase_manager b g = Some g' →
         reporting_done "stub::manager::" managerName REPORTS_TO b g g') ∧
  (∀ g', phase_lead b g = Some g' →
         reporting_done "stub::lead::" leadName LEAD_REPORTING b g g') ∧
  (∀ g', Forall canonical b → phase_employees b g = Some g' →
     (∀ i n, nodes g !! i = Some n → Forall (λ r, row_matches r n = false) b →
             nodes g' !! i = Some n) ∧
     (∀ r, r ∈ b → match_employee (nodes g) r = [] →
           match_employee (nodes g') r ≠ [] ∧
           ∀ j, j ∈ match_employee (nodes g') r → length (nodes g) ≤ j)).
Proof.
  split_and!.
  - intros g'. unfold phase_manager.
    destruct (link _ _ _ _ _ _ g) as [[g1 ws]|] eqn:Hl; [|done].
    intros [= <-]. by eapply reporting_link.
  - intros g'. unfold phase_lead.
    destruct (link _ _ _ _ _ _ g) as [[g1 ws]|] eqn:Hl; [|done].
    intros [= <-]. by eapply reporting_link.
  - intros g' Hcan Hrun. split.
    + intros i n Hn Hun. rewrite (phase_employees_lookup _ _ _ _ _ Hcan Hrun Hn).
      by rewrite settle_unmatched.
    + intros r Hr Hnone. pose proof (phase_employees_ids _ _ _ Hrun) as Hids.
  pose proof (phase_employees_keys _ _ _ Hrun) as Hkeys.
      rewrite phase_employees_nf in Hrun by done. injection Hrun as <-. cbn [nodes].
      rewrite match_employee_tame by by apply tame_settle.
      split.
      * pose proof (covered_fresh b (nodes g) Hids) as Hc.
        by eapply Forall_forall in Hc.
      * intros j. rewrite match_employee_app, Hnone. cbn [app].
        rewrite elem_of_find_from. by intros (_ & ? & _).
Qed.

(** ** The nodes a statement finds are kept *)

(** A node after a run, compared with the node [n] that was at its
    position before: same label, same id, and the same node altogether
    when no record of the batch has its id. *)
Definition node_kept (b : list rec) (n n' : node) : Prop :=
  nlabel n' = nlabel n ∧ nprops n' !! "empId" = nprops n !! "empId" ∧
  (Forall (λ r, row_matches r n = false) b → n' = n).

Definition nodes_kept (b : list rec) (ns ns' : list node) : Prop :=
  ∀ i n, ns !! i = Some n → ∃ n', ns' !! i = Some n' ∧ node_kept b n n'.

Lemma nodes_kept_refl b ns : nodes_kept b ns ns.
Proof. intros i n Hn. exists n. by split. Qed.

Lemma nodes_kept_trans b ns1 ns2 ns3 :
  nodes_kept b ns1 ns2 → nodes_kept b ns2 ns3 → nodes_kept b ns1 ns3.
Proof.
  intros H12 H23 i n Hn.
  destruct (H12 i n Hn) as (n' & Hn' & Hl & Hid & Hsame).
  destruct (H23 i n' Hn') as (n'' & Hn'' & Hl' & Hid' & Hsame').
  exists n''. split; [done|]. split_and!; [congruence..|].
  intros Hun. rewrite <- (Hsame Hun). apply Hsame'.
  eapply Forall_impl; [exact Hun|]. intros r Hr. cbn beta in *.
  by rewrite (row_matches_key r n' n).
Qed.

Lemma nodes_kept_extends b ns ns' : extends ns ns' → nodes_kept b ns ns'.
Proof.
  intros (new & -> & _) i n Hn. exists n. split; [|by split].
  by apply lookup_app_l_Some.
Qed.

Lemma phase_employees_kept b g g' :
  Forall canonical b → phase_employees b g = Some g' →
  nodes_kept b (nodes g) (nodes g').
Proof.
  intros Hcan Hrun i n Hn. exists (settle b n).
  split; [by eapply phase_employees_lookup|].
  destruct (tame_key (settle b) n (tame_settle b Hcan)) as [Hl Hid].
  split_and!; [done..|]. apply settle_unmatched.
Qed.

Lemma run_statement_kept b s g g' :
  Forall canonical b → run_statement b s g = Some g' →
  nodes_kept b (nodes g) (nodes g').
Proof.
  intros Hcan. destruct s; cbn [run_statement].
  - by apply phase_employees_kept.
  - intros [? _]%phase_team_grows. by apply nodes_kept_extends.
  - intros [? _]%phase_manager_grows. by apply nodes_kept_extends.
  - intros [? _]%phase_lead_grows. by apply nodes_kept_extends.
  - intros [? _]%phase_skills_grows. by apply nodes_kept_extends.
  - intros [? _]%phase_projects_grows. by apply nodes_kept_extends.
Qed.

Lemma run_statements_kept b stmts done g :
  Forall canonical b →
  nodes_kept b (nodes g) (nodes (reached (run_statements b stmts done g))).
Proof.
  intros Hcan. revert done g.
  induction stmts as [|s stmts IH]; intros done g; cbn [run_statements].
  - apply nodes_kept_refl.
  - destruct (run_statement b s g) as [g'|] eqn:Hs; [|apply nodes_kept_refl].
    eapply nodes_kept_trans; [by eapply run_statement_kept|apply IH].
Qed.

End Batch.

(** * The store through a run of [upsert] *)

(** ** The setup statements *)

(** The store refuses the [i]-th setup statement. *)
Definition setup_refused (i : nat) (d : database) : bool :=
  bool_decide (i ∈ denied d) ||
  match constraints !! i with
  | Some (l, k) => negb (nth i (enforced (in_force d)) false) && duplicated l k (nodes d)
  | None => false
  end.

Definition with_constraint (i : nat) (d : database) : database :=
  Database (content d) (add_constraint i (in_force d)) (denied d).

Lemma run_setup_spec i d :
  run_setup i d = if setup_refused i d then None else Some (with_constraint i d).
Proof.
  unfold run_setup, setup_refused, with_constraint.
  destruct (bool_decide (i ∈ denied d)); [done|]. cbn [orb].
  destruct d as [g [e s p] dn]. cbn [content in_force denied nodes].
  destruct i as [|[|[|i]]]; cbn [constraints lookup list_lookup enforced nth
    add_constraint emp_id_unique skill_name_unique project_name_unique].
  - destruct e; [done|]. cbn [negb andb]. by destruct (duplicated _ _ _).
  - destruct s; [done|]. cbn [negb andb]. by destruct (duplicated _ _ _).
  - destruct p; [done|]. cbn [negb andb]. by destruct (duplicated _ _ _).
  - reflexivity.
Qed.

(** The constraints in force after the five setup statements, and the
    notices they print. *)
Definition setup_schema (d : database) : schema :=
  Schema (emp_id_unique (in_force d) || negb (setup_refused 0 d))
         (skill_name_unique (in_force d) || negb (setup_refused 1 d))
         (project_name_unique (in_force d) || negb (setup_refused 2 d)).

Definition setup_notices (d : database) : list message :=
  flat_map (λ i, if setup_refused i d then [SetupNotice i] else []) (seq 0 5).

Definition after_setup (d : database) : database :=
  Database (content d) (setup_schema d) (denied d).

Lemma try_setup_spec o i :
  try_setup o i =
    Outcome (printed o ++ (if setup_refused i (store o) then [SetupNotice i] else []))
            (sent o ++ [Setup i])
            (if setup_refused i (store o) then store o else with_constraint i (store o))
            false.
Proof.
  unfold try_setup. rewrite run_setup_spec.
  destruct (setup_refused i (store o)); [done|]. by rewrite app_nil_r.
Qed.

Local Ltac setup_step i :=
  rewrite (try_setup_spec (Outcome _ _ _ false) i); unfold setup_refused, with_constraint;
  cbn [printed sent store content in_force denied nodes constraints
       lookup list_lookup enforced nth emp_id_unique skill_name_unique
       project_name_unique add_constraint];
  match goal with
  | |- context [if ?c then [SetupNotice i] else []] => destruct c
  end.

Lemma try_setup_all d :
  foldl try_setup (Outcome [] [] d false) (seq 0 5)
    = Outcome (setup_notices d) setup_statements (after_setup d) false.
Proof.
  destruct d as [g [e s p] dn].
  unfold setup_notices, setup_statements, after_setup, setup_schema, setup_refused.
  cbn [seq foldl flat_map fmap list_fmap content in_force denied nodes constraints
       lookup list_lookup enforced nth emp_id_unique skill_name_unique
       project_name_unique].
  setup_step 0; setup_step 1; setup_step 2; setup_step 3; setup_step 4;
    cbn [negb app]; by rewrite ?orb_true_r, ?orb_false_r.
Qed.

(** A run with records: the setup statements, then the batch against the
    constraints they left in force. *)
Lemma upsert_records d r b :
  upsert d (r :: b) =
    let p := run_statements (cs := setup_schema d) (r :: b) batch_statements [] d in
    Outcome (setup_notices d) (setup_statements ++ (Batch <$> ran p))
            (Database (reached p) (setup_schema d) (denied d)) (aborted p).
Proof. unfold upsert, run_batch. by rewrite try_setup_all. Qed.

Lemma upsert_keep (d : database) b : edges_keep (edges d) (edges (store (upsert d b))).
Proof.
  destruct b as [|r b]; [apply edges_keep_refl|].
  rewrite upsert_records. apply run_statements_keep.
Qed.

(** Nodes that share a constrained value share it after a run: a
    constraint that could not be created before cannot be created after. *)
Lemma key_values_kept b l k ns ns' :
  (l, k) ∈ constraints → nodes_kept b ns ns' →
  ∃ vs, key_values l k ns' = key_values l k ns ++ vs.
Proof.
  intros Hlk Hkept.
  assert (∀ n n', node_kept b n n' →
            (if decide (nlabel n' = l) then nprops n' !! k else None)
            = (if decide (nlabel n = l) then nprops n !! k else None)) as Hsame.
  { intros n n' (Hl & Hid & Hun). rewrite Hl.
    destruct (decide (nlabel n = l)) as [Hnl|]; [|done].
    unfold constraints in Hlk.
    rewrite !elem_of_cons in Hlk.
    destruct Hlk as [[= -> ->]|[[= -> ->]|[[= -> ->]|Hlk]]]; [done| | |by apply elem_of_nil in Hlk].
    - rewrite Hun; [done|]. apply Forall_forall. intros r _.
      unfold row_matches, node_is. destruct (empId r); [|done].
      apply bool_decide_eq_false_2. intros [? _]. congruence.
    - rewrite Hun; [done|]. apply Forall_forall. intros r _.
      unfold row_matches, node_is. destruct (empId r); [|done].
      apply bool_decide_eq_false_2. intros [? _]. congruence. }
  revert ns' Hkept. induction ns as [|n ns IH]; intros ns' Hkept.
  - by exists (key_values l k ns').
  - destruct (Hkept 0 n eq_refl) as (n' & Hn' & Hk).
    destruct ns' as [|n0 ns']; [done|]. cbn in Hn'. injection Hn' as ->.
    destruct (IH ns') as (vs & Hvs).
    { intros i m Hm. apply (Hkept (S i) m Hm). }
    exists vs. unfold key_values in *. cbn [omap list_omap].
    rewrite (Hsame n n' Hk), Hvs.
    by destruct (if decide (nlabel n = l) then nprops n !! k else None).
Qed.

Lemma duplicated_kept b l k ns ns' :
  (l, k) ∈ constraints → nodes_kept b ns ns' →
  duplicated l k ns = true → duplicated l k ns' = true.
Proof.
  intros Hlk Hkept. destruct (key_values_kept b l k ns ns' Hlk Hkept) as (vs & Hvs).
  unfold duplicated. rewrite Hvs, !negb_true_iff, !bool_decide_eq_false.
  intros Hdup Hnd. apply Hdup. by apply NoDup_app in Hnd as [? _].
Qed.

(** The setup statements, sent again after the batch, are refused or
    accepted as they were and leave the constraints as they are. *)
Lemma setup_refused_again b (d : database) (g' : graph) i :
  nodes_kept b (nodes d) (nodes g') →
  setup_refused i (Database g' (setup_schema d) (denied d)) = setup_refused i d.
Proof.
  intros Hkept.
  pose proof (duplicated_kept b Employee "empId" _ _ ltac:(by left) Hkept) as H0.
  pose proof (duplicated_kept b Skill "name" _ _ ltac:(by right; left) Hkept) as H1.
  pose proof (duplicated_kept b Project "name" _ _ ltac:(by right; right; left) Hkept) as H2.
  destruct d as [g [e s p] dn].
  unfold setup_schema, setup_refused.
  cbn [content in_force denied nodes emp_id_unique skill_name_unique
       project_name_unique] in *.
  destruct i as [|[|[|i]]];
    cbn [constraints lookup list_lookup enforced nth emp_id_unique skill_name_unique
         project_name_unique]; [| | |done].
  - destruct (bool_decide (0 ∈ dn)), e, (duplicated Employee "empId" (nodes g));
      cbn [orb andb negb]; try done. by rewrite H0.
  - destruct (bool_decide (1 ∈ dn)), s, (duplicated Skill "name" (nodes g));
      cbn [orb andb negb]; try done. by rewrite H1.
  - destruct (bool_decide (2 ∈ dn)), p, (duplicated Project "name" (nodes g));
      cbn [orb andb negb]; try done. by rewrite H2.
Qed.

Lemma setup_again b (d : database) (g' : graph) :
  nodes_kept b (nodes d) (nodes g') →
  let d' := Database g' (setup_schema d) (denied d) in
  setup_notices d' = setup_notices d ∧ setup_schema d' = setup_schema d.
Proof.
  intros Hkept d'. subst d'. split.
  - unfold setup_notices. cbn [seq flat_map].
    by rewrite !(setup_refused_again b d g' _ Hkept).
  - unfold setup_schema at 1. rewrite !(setup_refused_again b d g' _ Hkept).
    unfold setup_schema.
    cbn [in_force emp_id_unique skill_name_unique project_name_unique].
    f_equal; by destruct (setup_refused _ d); rewrite ?orb_true_r, ?orb_false_r.
Qed.

(** ** [since] is set once *)

(** A stored WORKS_ON relationship and a later row with another date. *)
Definition apollo_graph : graph :=
  Graph [Node Employee {[ "empId" := VStr "E1"; "name" := VStr "Alice" ]};
         Node Project {[ "name" := VStr "Apollo" ]}]
        [Edge 0 WORKS_ON 1 {[ "since" := VDate "2024-08-15" ]}].

Definition apollo_store : database := Database apollo_graph all_unique [].

Definition later_row : rec :=
  Rec (Some "E1") (Some "Alice") None (Some "2025-01-01") None None None None None
      (Some "Apollo") None ∅.

(** C7. A relationship whose [since] is set keeps it, with its ends and
    its type, through any run of [upsert] on any batch, whether the run
    succeeds or aborts and whatever constraints the store has, and
    through the project statement alone: a later batch with another date
    of joining for the pair does not change it. *)
Theorem since_is_set_once {cs : schema} (g : database) b j w v :
  edges g !! j = Some w → eprops w !! "since" = Some v →
  (∃ w', edges (store (upsert g b)) !! j = Some w' ∧
         esrc w' = esrc w ∧ etype w' = etype w ∧ edst w' = edst w ∧
         eprops w' !! "since" = Some v) ∧
  (∀ g', phase_projects b g = Some g' →
     ∃ w', edges g' !! j = Some w' ∧
           esrc w' = esrc w ∧ etype w' = etype w ∧ edst w' = edst w ∧
           eprops w' !! "since" = Some v).
Proof.
  intros Hw Hv. split.
  - destruct (upsert_keep g b j w Hw) as (w' & ? & ? & ? & ? & _ & Hs).
    exists w'. split_and!; auto.
  - intros g' [_ Hkeep]%phase_projects_grows.
    destruct (Hkeep j w Hw) as (w' & ? & ? & ? & ? & _ & Hs).
    exists w'. split_and!; auto.
Qed.

Lemma since_is_set_once_witness :
  doj later_row = Some "2025-01-01" ∧
  ∃ w', edges (store (upsert apollo_store [later_row])) !! 0 = Some w' ∧
        etype w' = WORKS_ON ∧ eprops w' !! "since" = Some (VDate "2024-08-15").
Proof.
  split; [reflexivity|].
  destruct (since_is_set_once (cs := all_unique) apollo_store [later_row] 0
              (Edge 0 WORKS_ON 1 {[ "since" := VDate "2024-08-15" ]})
              (VDate "2024-08-15") eq_refl eq_refl) as [(w' & Hw' & _ & Ht & _ & Hs) _].
  exists w'. split_and!; [exact Hw'|exact Ht|exact Hs].
Defined.

(** ** A second run *)

(** A batch that exercises every statement. *)
Definition sample_batch : list rec :=
  [ Rec (Some "E1") (Some "Alice") (Some "F") (Some "2024-08-15") (Some "Developer")
        (Some "Bob Lee") (Some "Carol") (Some "python") (Some "sql") (Some "Apollo")
        (Some "Core") {[ "blood_group" := "O+" ]};
    Rec (Some "E2") (Some "Carol") None None (Some "Lead") (Some "Bob Lee") None
        (Some "sql") None (Some "Apollo") None ∅;
    Rec (Some "E1") (Some "Alice M") None None (Some "Senior Developer") None None
        None None None None {[ "name" := "Alice Marie" ]} ].

(** A batch whose first record has the id that the manager statement
    gives the stub of the second. *)
Definition twin_batch : list rec :=
  [ Rec (Some "stub::manager::E1::Bob") (Some "Rob") None None None None None None None
        None None ∅;
    Rec (Some "E1") (Some "Alice") None None None (Some "Bob") None None None None
        None ∅ ].

(** A store in which two Employee nodes share an id: the constraint on
    [empId] cannot be created. *)
Definition twofold_store : database :=
  Database (Graph [Node Employee {[ "empId" := VStr "E7" ]};
                   Node Employee {[ "empId" := VStr "E7" ]}] [])
           none_unique [].

(** C1, on the code as it is: the constraint on [empId] is only tried.
    On a store that refuses it (to this user, or because two nodes share
    an id already) the run goes on without it; the stub of the manager
    "Bob" is then created with the id of the first record, the second run
    renames it with that record, finds no Employee named "Bob", and
    creates a second stub and a second REPORTS_TO relationship. *)
Lemma second_run_adds_a_stub :
  Forall canonical twin_batch ∧
  (let o1 := upsert unguarded_store twin_batch in
   let o2 := upsert (store o1) twin_batch in
   printed o1 = [SetupNotice 0; SetupNotice 1; SetupNotice 2] ∧
   raised o1 = false ∧ raised o2 = false ∧
   length (nodes (store o1)) = 3 ∧ length (edges (store o1)) = 1 ∧
   length (nodes (store o2)) = 4 ∧ length (edges (store o2)) = 2 ∧
   match_nodes Employee "empId" (VStr "stub::manager::E1::Bob") (nodes (store o2))
     = [0; 2; 3]) ∧
  (let o1 := upsert twofold_store twin_batch in
   let o2 := upsert (store o1) twin_batch in
   printed o1 = [SetupNotice 0] ∧
   raised o1 = false ∧ raised o2 = false ∧
   length (nodes (store o1)) = 5 ∧ length (edges (store o1)) = 1 ∧
   length (nodes (store o2)) = 6 ∧ length (edges (store o2)) = 2).
Proof.
  split; [repeat constructor|]. split; vm_compute; split_and!; reflexivity.
Qed.

(** C1. When the constraint on [empId] is in force as the batch runs
    (the setup statement created it or found it), a second run of
    [upsert] on the same batch of canonical records leaves the store
    exactly as the first run left it, node for node, relationship for
    relationship and property for property (so no node and no
    relationship is duplicated and no property is changed), and ends as
    the first run did: with the same notices, the same statements sent
    and, when the first run was aborted by the store, the same abort. *)
Theorem upsert_idempotent (d : database) b :
  Forall canonical b →
  emp_id_unique (in_force (store (upsert d b))) = true →
  upsert (store (upsert d b)) b = upsert d b ∧
  nodes (store (upsert (store (upsert d b)) b)) = nodes (store (upsert d b)) ∧
  edges (store (upsert (store (upsert d b)) b)) = edges (store (upsert d b)).
Proof.
  intros Hcan Hon.
  assert (upsert (store (upsert d b)) b = upsert d b) as Heq; [|by rewrite Heq].
  destruct b as [|r b]; [done|].
  rewrite (upsert_records d) in Hon |- *. cbn zeta in *. cbn [store in_force] in Hon.
  set (p := run_statements (cs := setup_schema d) (r :: b) batch_statements [] d).
  rewrite upsert_records. cbn zeta. cbn [store content denied].
  destruct (setup_again (r :: b) d (reached p)) as [Hn Hs].
  { by apply run_statements_kept. }
  cbn zeta in Hn, Hs. rewrite Hn, Hs.
  destruct (rerun_statements (cs := setup_schema d) Hon (r :: b) d Hcan) as [Hre _].
  fold p in Hre. by rewrite Hre.
Qed.

Lemma upsert_idempotent_witness :
  upsert (store (upsert empty_store sample_batch)) sample_batch
    = upsert empty_store sample_batch ∧
  length (nodes (store (upsert empty_store sample_batch))) = 7 ∧
  length (edges (store (upsert empty_store sample_batch))) = 9.
Proof.
  split; [|split; vm_compute; reflexivity].
  apply (upsert_idempotent empty_store sample_batch).
  - repeat constructor.
  - vm_compute. reflexivity.
Defined.

(** ** A real row after the stub *)

(** The rows of the story of Alice and her manager. *)
Definition alice_row : rec :=
  Rec (Some "E1") (Some "Alice") None None None (Some "Bob Lee") None None None None None ∅.

Definition bob_row : rec :=
  Rec (Some "E2") (Some "Bob Lee") None None None None None None None None None ∅.

(** C4, on the code as it is: after the stub for "Bob Lee" was created, a
    real row with that name and the id "E2" does not merge into the stub.
    The employee statement merges on the id and creates a second node;
    the stub keeps its synthetic id, and two Employee nodes have the
    name. *)
Lemma real_row_does_not_merge_into_stub :
  let g1 := store (upsert empty_store [alice_row]) in
  let g2 := store (upsert g1 [bob_row]) in
  raised (upsert empty_store [alice_row]) = false ∧
  raised (upsert g1 [bob_row]) = false ∧
  match_nodes Employee "name" (VStr "Bob Lee") (nodes g1) = [1] ∧
  match_nodes Employee "name" (VStr "Bob Lee") (nodes g2) = [1; 2] ∧
  nodes g2 !! 1 = Some (Node Employee (<["empId" := VStr "stub::manager::E1::Bob Lee"]>
                                         {[ "name" := VStr "Bob Lee" ]})) ∧
  nodes g2 !! 2 = Some (Node Employee (<["name" := VStr "Bob Lee"]>
                                         {[ "empId" := VStr "E2" ]})).
Proof. vm_compute. split_and!; reflexivity. Qed.

Lemma reporting_edges_by_name_witness :
  reporting_done "stub::manager::" managerName REPORTS_TO [alice_row]
    (Graph [Node Employee (<["name" := VStr "Alice"]> {[ "empId" := VStr "E1" ]})] [])
    (Graph [Node Employee (<["name" := VStr "Alice"]> {[ "empId" := VStr "E1" ]});
            Node Employee (<["empId" := VStr "stub::manager::E1::Bob Lee"]>
                             {[ "name" := VStr "Bob Lee" ]})]
           [Edge 0 REPORTS_TO 1 ∅]) ∧
  nodes (Graph [Node Employee (<["name" := VStr "Alice"]> {[ "empId" := VStr "E1" ]});
                Node Employee (<["empId" := VStr "stub::manager::E1::Bob Lee"]>
                                 {[ "name" := VStr "Bob Lee" ]});
                Node Employee (<["name" := VStr "Bob Lee"]> {[ "empId" := VStr "E2" ]})]
               [Edge 0 REPORTS_TO 1 ∅]) !! 1
    = Some (Node Employee (<["empId" := VStr "stub::manager::E1::Bob Lee"]>
                             {[ "name" := VStr "Bob Lee" ]})).
Proof.
  split.
  - apply (reporting_edges_by_name (cs := all_unique) [alice_row]
             (Graph [Node Employee (<["name" := VStr "Alice"]> {[ "empId" := VStr "E1" ]})] [])).
    vm_compute. reflexivity.
  - apply (reporting_edges_by_name (cs := all_unique) [bob_row]
             (Graph [Node Employee (<["name" := VStr "Alice"]> {[ "empId" := VStr "E1" ]});
                     Node Employee (<["empId" := VStr "stub::manager::E1::Bob Lee"]>
                                      {[ "name" := VStr "Bob Lee" ]})]
                    [Edge 0 REPORTS_TO 1 ∅])).
    + repeat constructor.
    + vm_compute. reflexivity.
    + reflexivity.
    + repeat constructor.
Defined.

(** * Further properties of the loader *)

(** ** Trimming *)

Module StrFacts.

Import Str.

Lemma chars_of_chars l : chars (of_chars l) = l.
Proof. apply list_ascii_of_string_of_list_ascii. Qed.

Lemma of_chars_chars s : of_chars (chars s) = s.
Proof. apply string_of_list_ascii_of_string. Qed.

(** A list that neither starts nor ends with a character of the class. *)
Definition trimmed (p : ascii → bool) (l : list ascii) : Prop :=
  drop_while p l = l ∧ drop_while p (rev l) = rev l.

Lemma drop_while_fixed p l :
  drop_while p l = l ↔ l = [] ∨ ∃ a l', l = a :: l' ∧ p a = false.
Proof.
  destruct l as [|a l']; cbn; [by split; [left|]|].
  destruct (p a) eqn:Ha.
  - split.
    + intros Heq. exfalso.
      assert (∀ k : list ascii, length (drop_while p k) ≤ length k) as Hlen.
      { clear. induction k as [|b k IH]; cbn; [lia|]. destruct (p b); cbn; lia. }
      pose proof (Hlen l') as H. rewrite Heq in H. cbn in H. lia.
    + intros [?|(b & k & [= <- <-] & ?)]; congruence.
  - split; [|done]. intros _. right. eauto.
Qed.

Lemma drop_while_idemp p l : drop_while p (drop_while p l) = drop_while p l.
Proof.
  induction l as [|a l IH]; cbn; [done|].
  destruct (p a) eqn:Ha; [done|]. cbn. by rewrite Ha.
Qed.

Lemma drop_while_suffix p l : ∃ k, l = k ++ drop_while p l.
Proof.
  induction l as [|a l [k IH]]; cbn; [by exists []|].
  destruct (p a); [|by exists []]. exists (a :: k). cbn. by f_equal.
Qed.

Lemma drop_while_app p l k :
  drop_while p l = l → l ≠ [] → drop_while p (l ++ k) = l ++ k.
Proof.
  intros Hl Hne. apply drop_while_fixed in Hl as [->|(a & l' & -> & Ha)]; [done|].
  cbn. by rewrite Ha.
Qed.

Lemma strip_by_trimmed p l : trimmed p (strip_by p l).
Proof.
  unfold strip_by, trimmed. rewrite rev_involutive.
  split; [|apply drop_while_idemp].
  set (d := drop_while p l).
  destruct (drop_while_suffix p (rev d)) as [k Hk].
  set (e := drop_while p (rev d)) in *.
  destruct (decide (e = [])) as [->|Hne]; [done|].
  assert (d = rev e ++ rev k) as Hd.
  { rewrite <- (rev_involutive d), Hk, rev_app_distr. done. }
  assert (drop_while p d = d) as Hfix by apply drop_while_idemp.
  rewrite Hd in Hfix. apply drop_while_fixed in Hfix as [Hnil|(a & l' & Hal & Ha)].
  - apply app_eq_nil in Hnil as [Hnil _]. destruct Hne.
    by rewrite <- (rev_involutive e), Hnil.
  - apply drop_while_fixed. right.
    destruct (rev e) as [|b e'] eqn:He.
    + destruct Hne. by rewrite <- (rev_involutive e), He.
    + cbn in Hal. injection Hal as <- _. eauto.
Qed.

Lemma strip_by_fixed p l : trimmed p l → strip_by p l = l.
Proof.
  intros [H1 H2]. unfold strip_by. by rewrite H1, H2, rev_involutive.
Qed.

Lemma strip_by_idemp p l : strip_by p (strip_by p l) = strip_by p l.
Proof. apply strip_by_fixed, strip_by_trimmed. Qed.

Lemma strip_idemp s : strip (strip s) = strip s.
Proof. unfold strip. by rewrite chars_of_chars, strip_by_idemp. Qed.

Lemma head_rev (l : list ascii) : head (rev l) = last l.
Proof.
  destruct (last l) as [x|] eqn:Hl.
  - apply last_Some in Hl as [l' ->]. by rewrite rev_app_distr.
  - apply last_None in Hl as ->. done.
Qed.

(** A trimmed list has no character of the class at either end. *)
Lemma trimmed_ends p l :
  trimmed p l ↔
  (∀ a, head l = Some a → p a = false) ∧ (∀ a, last l = Some a → p a = false).
Proof.
  unfold trimmed. rewrite !drop_while_fixed. split.
  - intros [H1 H2]. split.
    + intros a Ha. destruct H1 as [->|(b & l' & -> & Hb)]; [done|].
      cbn in Ha. by injection Ha as <-.
    + intros a Ha. rewrite <- head_rev in Ha.
      destruct H2 as [Hnil|(b & l' & Hrev & Hb)]; [by rewrite Hnil in Ha|].
      rewrite Hrev in Ha. cbn in Ha. by injection Ha as <-.
  - intros [H1 H2]. split.
    + destruct l as [|a l']; [by left|right]. exists a, l'. split; [done|]. by apply H1.
    + destruct (rev l) as [|a l'] eqn:Hrev; [by left|right]. exists a, l'.
      split; [done|]. apply H2. by rewrite <- head_rev, Hrev.
Qed.

End StrFacts.

(** ** [norm_str] and [parse_date_flex] on padded cells *)

(** X1. [norm_str] returns [None] or a non-empty string without white
    space at either end; it gives the same result on a cell and on the
    trimmed cell, and on its own result. *)
Theorem norm_str_trimmed x :
  norm_str (norm_str x) = norm_str x ∧
  (∀ y, x = Some y → norm_str (Some (Str.strip y)) = norm_str x) ∧
  (∀ s, norm_str x = Some s →
     s ≠ "" ∧ Str.strip s = s ∧
     (∀ a, head (Str.chars s) = Some a → Str.is_space a = false) ∧
     (∀ a, last (Str.chars s) = Some a → Str.is_space a = false)).
Proof.
  assert (Hpad : ∀ y, norm_str (Some (Str.strip y)) = norm_str (Some y)).
  { intros y. cbn. by rewrite StrFacts.strip_idemp. }
  split_and!.
  - destruct x as [y|]; [|done]. cbn.
    destruct (decide (Str.strip y = "")); [done|]. cbn.
    rewrite StrFacts.strip_idemp. by rewrite decide_False.
  - intros y ->. apply Hpad.
  - intros s Hs. destruct x as [y|]; [|done]. cbn in Hs.
    destruct (decide (Str.strip y = "")) as [|Hne]; [done|]. injection Hs as <-.
    split_and!; [done|apply StrFacts.strip_idemp|..].
    all: pose proof (StrFacts.strip_by_trimmed Str.is_space (Str.chars y)) as Ht;
         apply StrFacts.trimmed_ends in Ht as [Hh Hl];
         unfold Str.strip; rewrite StrFacts.chars_of_chars; done.
Qed.

Lemma norm_str_trimmed_witness :
  norm_str (Some "  Alice Smith ") = Some "Alice Smith" ∧
  Str.strip "Alice Smith" = "Alice Smith".
Proof.
  split; [reflexivity|].
  apply (norm_str_trimmed (Some "  Alice Smith ")). reflexivity.
Defined.

(** X2. [parse_date_flex] gives the same result on a cell and on the
    trimmed cell, whatever the flexible parser, and [None] on a cell of
    white space only. *)
Theorem parse_date_flex_padding to_datetime x :
  parse_date_flex to_datetime (Some (Str.strip x)) = parse_date_flex to_datetime (Some x) ∧
  (Forall (λ a, Str.is_space a = true) (Str.chars x) →
   parse_date_flex to_datetime (Some x) = None).
Proof.
  split.
  - unfold parse_date_flex. by rewrite StrFacts.strip_idemp.
  - intros Hsp. unfold parse_date_flex.
    assert (Str.strip x = "") as ->; [|done].
    unfold Str.strip, Str.strip_by.
    assert (Str.drop_while Str.is_space (Str.chars x) = []) as ->; [|done].
    induction Hsp as [|a l Ha _ IH]; cbn; [done|]. by rewrite Ha.
Qed.

Lemma parse_date_flex_padding_witness :
  parse_date_flex strict_iso (Some "  	 ") = None.
Proof. apply (parse_date_flex_padding strict_iso "  	 "). repeat constructor. Defined.

(** ** [norm_col] *)

Module ColFacts.

Import Str StrFacts.

(** White space occurs only as single spaces; [in_run] tells that the
    character before the list is white space. *)
Fixpoint single_spaced (in_run : bool) (l : list ascii) : Prop :=
  match l with
  | [] => True
  | a :: l' =>
      if is_space a then in_run = false ∧ a = " "%char ∧ single_spaced true l'
      else single_spaced false l'
  end.

Lemma sub_runs_single_spaced in_run l :
  single_spaced in_run (sub_runs is_space [" "%char] in_run l).
Proof.
  revert in_run. induction l as [|a l IH]; intros in_run; cbn; [done|].
  destruct (is_space a) eqn:Ha.
  - destruct in_run; [apply IH|]. cbn. split_and!; [done..|apply IH].
  - cbn. rewrite Ha. apply IH.
Qed.

Lemma sub_runs_fixed in_run l :
  single_spaced in_run l → sub_runs is_space [" "%char] in_run l = l.
Proof.
  revert in_run. induction l as [|a l IH]; intros in_run; cbn; [done|].
  destruct (is_space a) eqn:Ha.
  - intros (-> & -> & Hl). cbn. f_equal. by apply IH.
  - intros Hl. f_equal. by apply IH.
Qed.

Lemma sub_runs_snoc (p : ascii → bool) rep in_run l a :
  p a = false → sub_runs p rep in_run (l ++ [a]) = sub_runs p rep in_run l ++ [a].
Proof.
  intros Ha. revert in_run. induction l as [|b l IH]; intros in_run; cbn.
  - by rewrite Ha.
  - destruct (p b); [destruct in_run|]; rewrite IH; by rewrite <- ?app_assoc.
Qed.

Lemma sub_runs_trimmed (p : ascii → bool) rep l :
  trimmed p l → trimmed p (sub_runs p rep false l).
Proof.
  rewrite !trimmed_ends. intros [Hh Hl]. split.
  - destruct l as [|a l']; [done|]. cbn.
    rewrite (Hh a eq_refl). cbn. by intros ? [= <-]; apply Hh.
  - destruct (last l) as [a|] eqn:Hlast.
    + apply last_Some in Hlast as [l' ->].
      rewrite sub_runs_snoc by by apply Hl.
      intros b. rewrite last_snoc. intros [= <-]. by apply Hl.
    + apply last_None in Hlast as ->. done.
Qed.

Lemma single_spaced_no_double in_run l1 a b l2 :
  single_spaced in_run (l1 ++ a :: b :: l2) → is_space a = true → is_space b = false.
Proof.
  revert in_run. induction l1 as [|c l1 IH]; intros in_run; cbn.
  - intros H Ha. rewrite Ha in H. destruct H as (_ & _ & H).
    destruct (is_space b); [by destruct H|done].
  - destruct (is_space c); [intros (_ & _ & H)|intros H]; by eapply IH.
Qed.

Lemma single_spaced_space in_run l a :
  single_spaced in_run l → a ∈ l → is_space a = true → a = " "%char.
Proof.
  revert in_run. induction l as [|c l IH]; intros in_run H Ha Hsp.
  { by apply elem_of_nil in Ha. }
  cbn in H. apply elem_of_cons in Ha as [->|Ha].
  - rewrite Hsp in H. by destruct H as (_ & ? & _).
  - destruct (is_space c); [destruct H as (_ & _ & H)|]; by eapply IH.
Qed.

End ColFacts.

(** X3. [norm_col] is idempotent, so that normalising the headers once
    more at the lookup changes nothing; its result has no white space at
    either end, and white space inside it only as single spaces. *)
Theorem norm_col_idempotent c :
  norm_col (norm_col c) = norm_col c ∧
  (∀ a, head (Str.chars (norm_col c)) = Some a → Str.is_space a = false) ∧
  (∀ a, last (Str.chars (norm_col c)) = Some a → Str.is_space a = false) ∧
  (∀ a, a ∈ Str.chars (norm_col c) → Str.is_space a = true → a = " "%char) ∧
  (∀ l1 a b l2, Str.chars (norm_col c) = l1 ++ a :: b :: l2 →
                Str.is_space a = true → Str.is_space b = false).
Proof.
  unfold norm_col. rewrite !StrFacts.chars_of_chars.
  set (t := Str.strip_by Str.is_space (Str.chars c)).
  set (u := Str.sub_runs Str.is_space [" "%char] false t).
  assert (Ht : StrFacts.trimmed Str.is_space u).
  { apply ColFacts.sub_runs_trimmed, StrFacts.strip_by_trimmed. }
  assert (Hs : ColFacts.single_spaced false u) by apply ColFacts.sub_runs_single_spaced.
  split_and!.
  - by rewrite StrFacts.strip_by_fixed, ColFacts.sub_runs_fixed.
  - by apply StrFacts.trimmed_ends in Ht as [? _].
  - by apply StrFacts.trimmed_ends in Ht as [_ ?].
  - intros a. by apply (ColFacts.single_spaced_space false).
  - intros l1 a b l2 Hu. rewrite Hu in Hs. by eapply ColFacts.single_spaced_no_double.
Qed.

Lemma norm_col_idempotent_witness :
  Str.is_space "I"%char = false.
Proof.
  destruct (norm_col_idempotent "  Emp 	  Id ") as (_ & _ & _ & _ & H).
  apply (H ["E"; "m"; "p"]%char " "%char "I"%char ["d"%char]); reflexivity.
Defined.

(** ** [snake] *)

Module KeyFacts.

Import Str StrFacts.

Section Runs.

(** A class [p] of characters and the character [c] of the class its runs
    are replaced by. *)
Variable p : ascii → bool.
Variable c : ascii.
Hypothesis p_c : p c = true.

(** Characters of the class occur only as single [c]. *)
Fixpoint single_run (in_run : bool) (l : list ascii) : Prop :=
  match l with
  | [] => True
  | a :: l' =>
      if p a then in_run = false ∧ a = c ∧ single_run true l'
      else single_run false l'
  end.

Lemma sub_runs_single_run in_run l : single_run in_run (sub_runs p [c] in_run l).
Proof.
  revert in_run. induction l as [|a l IH]; intros in_run; cbn; [done|].
  destruct (p a) eqn:Ha.
  - destruct in_run; [apply IH|]. cbn. rewrite p_c. split_and!; [done..|apply IH].
  - cbn. rewrite Ha. apply IH.
Qed.

Lemma single_run_weaken in_run l : single_run in_run l → single_run false l.
Proof.
  destruct l as [|a l]; cbn; [done|]. destruct (p a); [|done]. by intros (_ & ? & ?).
Qed.

Lemma single_run_app_r in_run l1 l2 :
  single_run in_run (l1 ++ l2) → single_run false l2.
Proof.
  revert in_run. induction l1 as [|a l1 IH]; intros in_run; cbn.
  - apply single_run_weaken.
  - destruct (p a); [intros (_ & _ & H)|intros H]; by eapply IH.
Qed.

Lemma single_run_app_l in_run l1 l2 :
  single_run in_run (l1 ++ l2) → single_run in_run l1.
Proof.
  revert in_run. induction l1 as [|a l1 IH]; intros in_run; cbn; [done|].
  destruct (p a); [|apply IH]. intros (? & ? & ?). split_and!; [done..|]. by eapply IH.
Qed.

Lemma single_run_no_double in_run l1 a b l2 :
  single_run in_run (l1 ++ a :: b :: l2) → p a = true → p b = false.
Proof.
  revert in_run. induction l1 as [|x l1 IH]; intros in_run; cbn.
  - intros H Ha. rewrite Ha in H. destruct H as (_ & _ & H).
    destruct (p b); [by destruct H|done].
  - destruct (p x); [intros (_ & _ & H)|intros H]; by eapply IH.
Qed.

Lemma elem_of_sub_runs in_run l a :
  a ∈ sub_runs p [c] in_run l → a = c ∨ (a ∈ l ∧ p a = false).
Proof.
  revert in_run. induction l as [|x l IH]; intros in_run; cbn.
  { by intros ?%elem_of_nil. }
  destruct (p x) eqn:Hx.
  - destruct in_run.
    + intros [?|[??]]%IH; [by left|right]. split; [by right|done].
    + intros [->|[?|[??]]%IH]%elem_of_cons; [by left|by left|right].
      split; [by right|done].
  - intros [->|[?|[??]]%IH]%elem_of_cons; [right|by left|right].
    + split; [by left|done].
    + split; [by right|done].
Qed.

End Runs.

Lemma drop_while_infix q l : ∃ k, l = k ++ drop_while q l.
Proof. apply drop_while_suffix. Qed.

(** What [strip_by] returns is a segment of its argument. *)
Lemma strip_by_infix q l : ∃ k1 k2, l = k1 ++ strip_by q l ++ k2.
Proof.
  unfold strip_by.
  destruct (drop_while_suffix q l) as [k1 H1].
  destruct (drop_while_suffix q (rev (drop_while q l))) as [k2 H2].
  exists k1, (rev k2). rewrite <- rev_app_distr, <- H2, rev_involutive. done.
Qed.

Lemma lower_char_underscore a : lower_char a = "_"%char → a = "_"%char.
Proof. by destruct a as [[] [] [] [] [] [] [] []]. Qed.

Lemma lower_char_alnum a :
  is_alnum a = true → is_digit (lower_char a) || is_lower (lower_char a) = true.
Proof. by destruct a as [[] [] [] [] [] [] [] []]. Qed.

Lemma alnum_of_not_not a : negb (is_alnum a) = false → is_alnum a = true.
Proof. by destruct (is_alnum a). Qed.

(** The character list [snake] lowers. *)
Definition snake_body (s : string) : list ascii :=
  strip_by (λ a, bool_decide (a = "_"%char))
    (sub_runs (λ a, negb (is_alnum a)) ["_"%char] false
       (remove_char ")"%char (remove_char "("%char (strip_by is_space (chars s))))).

Lemma snake_chars s : chars (snake s) = lower_char <$> snake_body s.
Proof. unfold snake, lower. by rewrite !chars_of_chars. Qed.

Lemma snake_body_class s a :
  a ∈ snake_body s → a = "_"%char ∨ is_alnum a = true.
Proof.
  unfold snake_body. intros Ha.
  destruct (strip_by_infix (λ a, bool_decide (a = "_"%char))
              (sub_runs (λ a, negb (is_alnum a)) ["_"%char] false
                 (remove_char ")"%char (remove_char "("%char
                    (strip_by is_space (chars s)))))) as (k1 & k2 & Hk).
  assert (a ∈ sub_runs (λ a, negb (is_alnum a)) ["_"%char] false
            (remove_char ")"%char (remove_char "("%char (strip_by is_space (chars s)))))
    as Hin.
  { rewrite Hk. apply elem_of_app. right. apply elem_of_app. by left. }
  apply elem_of_sub_runs in Hin as [?|[_ Hal]]; [by left|right].
  by apply alnum_of_not_not.
Qed.

Lemma snake_body_single s : single_run (λ a, negb (is_alnum a)) "_"%char false (snake_body s).
Proof.
  unfold snake_body.
  set (u := sub_runs _ _ false _).
  destruct (strip_by_infix (λ a, bool_decide (a = "_"%char)) u) as (k1 & k2 & Hk).
  pose proof (sub_runs_single_run (λ a, negb (is_alnum a)) "_"%char eq_refl false
                (remove_char ")"%char (remove_char "("%char
                   (strip_by is_space (chars s))))) as Hu.
  fold u in Hu. rewrite Hk in Hu.
  apply single_run_app_r in Hu. by apply single_run_app_l in Hu.
Qed.

End KeyFacts.

(** X4. The key [snake] derives from a header is made of lower-case
    letters, digits and underscores only, neither starts nor ends with an
    underscore and has no two underscores in a row. *)
Theorem snake_key_shape s :
  Forall (λ a, Str.is_digit a || Str.is_lower a || bool_decide (a = "_"%char) = true)
         (Str.chars (snake s)) ∧
  head (Str.chars (snake s)) ≠ Some "_"%char ∧
  last (Str.chars (snake s)) ≠ Some "_"%char ∧
  ∀ l1 l2, Str.chars (snake s) ≠ l1 ++ "_"%char :: "_"%char :: l2.
Proof.
  rewrite KeyFacts.snake_chars.
  pose proof (StrFacts.strip_by_trimmed (λ a, bool_decide (a = "_"%char))
                (Str.sub_runs (λ a, negb (Str.is_alnum a)) ["_"%char] false
                   (Str.remove_char ")"%char (Str.remove_char "("%char
                      (Str.strip_by Str.is_space (Str.chars s)))))) as Ht.
  fold (KeyFacts.snake_body s) in Ht.
  apply StrFacts.trimmed_ends in Ht as [Hh Hl].
  split_and!.
  - apply Forall_fmap, Forall_forall. intros a Ha. cbn.
    apply KeyFacts.snake_body_class in Ha as [->|Hal]; [done|].
    apply KeyFacts.lower_char_alnum in Hal. by rewrite Hal.
  - destruct (KeyFacts.snake_body s) as [|a l] eqn:Hb; [done|]. cbn.
    intros [= Ha]. apply KeyFacts.lower_char_underscore in Ha as ->.
    by specialize (Hh _ eq_refl).
  - destruct (last (KeyFacts.snake_body s)) as [a|] eqn:Hlast.
    + apply last_Some in Hlast as [l' Hb]. rewrite Hb, fmap_app. cbn.
      rewrite last_snoc. intros [= Ha]. apply KeyFacts.lower_char_underscore in Ha as ->.
      by specialize (Hl _ eq_refl).
    + apply last_None in Hlast. by rewrite Hlast.
  - intros l1 l2 Heq.
    apply fmap_app_inv in Heq as (k1 & k2 & -> & Hk & Hbody).
    destruct k2 as [|a [|b k2]]; try done. cbn in Hk. injection Hk as Ha Hb _.
    symmetry in Ha, Hb.
    apply KeyFacts.lower_char_underscore in Ha as ->.
    apply KeyFacts.lower_char_underscore in Hb as ->.
    pose proof (KeyFacts.snake_body_single s) as Hs. rewrite Hbody in Hs.
    by apply KeyFacts.single_run_no_double in Hs.
Qed.

(** ** The header table and the records of the builder *)

Lemma norm_col_fixed c : norm_col (norm_col c) = norm_col c.
Proof.
  unfold norm_col. rewrite !StrFacts.chars_of_chars.
  rewrite StrFacts.strip_by_fixed, ColFacts.sub_runs_fixed; [done|..].
  - apply ColFacts.sub_runs_single_spaced.
  - apply ColFacts.sub_runs_trimmed, StrFacts.strip_by_trimmed.
Qed.

Lemma lookup_foldl_variants key vs (m : gmap string field) k f :
  foldl (λ m v, <[norm_col v := key]> m) m vs !! k = Some f →
  m !! k = Some f ∨ (f = key ∧ ∃ v, v ∈ vs ∧ k = norm_col v).
Proof.
  revert m. induction vs as [|v vs IH]; intros m; cbn [foldl]; [by left|].
  intros [H|(-> & v' & Hv' & ->)]%IH.
  - destruct (decide (k = norm_col v)) as [->|Hne].
    + rewrite lookup_insert_eq in H. injection H as <-. right. split; [done|].
      exists v. split; [by left|done].
    + rewrite lookup_insert_ne in H by done. by left.
  - right. split; [done|]. exists v'. split; [by right|done].
Qed.

Lemma lookup_foldl_table table (m : gmap string field) k f :
  foldl (λ m '(key, variants), foldl (λ m v, <[norm_col v := key]> m) m variants)
        m table !! k = Some f →
  m !! k = Some f ∨ ∃ vs v, (f, vs) ∈ table ∧ v ∈ vs ∧ k = norm_col v.
Proof.
  revert m. induction table as [|[key vs] table IH]; intros m; cbn [foldl]; [by left|].
  intros [H|(vs' & v & Hin & Hv & ->)]%IH.
  - apply lookup_foldl_variants in H as [H|(-> & v & Hv & ->)]; [by left|].
    right. exists vs, v. split_and!; [by left|done..].
  - right. exists vs', v. split_and!; [by right|done..].
Qed.

Lemma inv_sound k f :
  inv !! k = Some f → ∃ vs v, (f, vs) ∈ col_map_variants ∧ v ∈ vs ∧ k = norm_col v.
Proof.
  unfold inv. intros [H|H]%lookup_foldl_table; [|done].
  by rewrite lookup_empty in H.
Qed.

Lemma inv_complete f vs v :
  (f, vs) ∈ col_map_variants → v ∈ vs → inv !! norm_col v = Some f.
Proof.
  unfold col_map_variants. intros Hf Hv.
  repeat match goal with
         | H : (_, _) ∈ _ :: _ |- _ => apply elem_of_cons in H as [H|H]
         | H : (_, _) = (_, _) |- _ => injection H as -> ->
         | H : _ ∈ [] |- _ => by apply elem_of_nil in H
         end.
  all: repeat match goal with
              | H : _ ∈ _ :: _ |- _ => apply elem_of_cons in H as [->|H]
              | H : _ ∈ [] |- _ => by apply elem_of_nil in H
              end.
  all: vm_compute; reflexivity.
Qed.

(** X5. The header table: a header is recognised as the field [f] exactly
    when it is, up to the white space [norm_col] removes, one of the
    variants listed for [f]; in particular no variant of one field is
    overwritten by a variant of another in the inverted mapping. *)
Theorem header_recognised h f :
  inv !! norm_col (norm_col h) = Some f ↔
  ∃ vs v, (f, vs) ∈ col_map_variants ∧ v ∈ vs ∧ norm_col h = norm_col v.
Proof.
  rewrite norm_col_fixed. split.
  - apply inv_sound.
  - intros (vs & v & Hf & Hv & ->). by eapply inv_complete.
Qed.

Section BuilderFacts.

Variable to_datetime : bool → string → option string.

Lemma extra_assign r c v :
  extra (assign to_datetime r (c, v)) =
    match inv !! norm_col c, norm_str v with
    | None, Some val => <[snake c := val]> (extra r)
    | _, _ => extra r
    end.
Proof.
  unfold assign. destruct (inv !! norm_col c) as [[]|]; try done.
  by destruct (norm_str v).
Qed.

Lemma foldl_assign_extra_sound items r k val :
  extra (foldl (assign to_datetime) r items) !! k = Some val →
  extra r !! k = Some val ∨
  ∃ c v, (c, v) ∈ items ∧ inv !! norm_col c = None ∧ snake c = k ∧ norm_str v = Some val.
Proof.
  revert r. induction items as [|[c v] items IH]; intros r; cbn [foldl]; [by left|].
  intros [H|(c' & v' & Hin & ?)]%IH.
  - rewrite extra_assign in H.
    destruct (inv !! norm_col c) eqn:Hc; [by left|].
    destruct (norm_str v) as [val'|] eqn:Hv; [|by left].
    destruct (decide (k = snake c)) as [->|Hne].
    + rewrite lookup_insert_eq in H. injection H as <-. right.
      exists c, v. split_and!; [by left|done..].
    + rewrite lookup_insert_ne in H by done. by left.
  - right. exists c', v'. split; [by right|done].
Qed.

Lemma foldl_assign_extra_keep items r k :
  is_Some (extra r !! k) → is_Some (extra (foldl (assign to_datetime) r items) !! k).
Proof.
  revert r. induction items as [|[c v] items IH]; intros r; cbn [foldl]; [done|].
  intros H. apply IH. rewrite extra_assign.
  destruct (inv !! norm_col c); [done|]. destruct (norm_str v); [|done].
  destruct (decide (k = snake c)) as [->|Hne].
  - by rewrite lookup_insert_eq.
  - by rewrite lookup_insert_ne.
Qed.

Lemma foldl_assign_extra_complete items r c v :
  (c, v) ∈ items → inv !! norm_col c = None → is_Some (norm_str v) →
  is_Some (extra (foldl (assign to_datetime) r items) !! snake c).
Proof.
  revert r. induction items as [|[c' v'] items IH]; intros r Hin Hc [val Hv].
  { by apply elem_of_nil in Hin. }
  cbn [foldl]. apply elem_of_cons in Hin as [[= <- <-]|Hin].
  - apply foldl_assign_extra_keep. rewrite extra_assign, Hc, Hv.
    by rewrite lookup_insert_eq.
  - by apply IH.
Qed.

(** X6. The passthrough properties of a record are exactly the cells
    that are non-null after [norm_str] and whose header is no alias; the
    key is the [snake] of the header. A cell under an alias header, and a
    null cell, contribute no key. *)
Theorem passthrough_exact cols cells :
  (∀ k val, extra (build_row to_datetime cols cells) !! k = Some val →
     ∃ c v, (c, v) ∈ zip cols cells ∧ inv !! norm_col c = None ∧
            snake c = k ∧ norm_str v = Some val) ∧
  (∀ c v, (c, v) ∈ zip cols cells → inv !! norm_col c = None →
     is_Some (norm_str v) →
     is_Some (extra (build_row to_datetime cols cells) !! snake c)).
Proof.
  unfold build_row. split.
  - intros k val [H|H]%foldl_assign_extra_sound; [|done].
    cbn in H. by rewrite lookup_empty in H.
  - intros c v. apply foldl_assign_extra_complete.
Qed.

End BuilderFacts.

Lemma passthrough_exact_witness :
  is_Some (extra (build_row strict_iso ["Emp Id"; "Shoe Size (EU)"] [Some "E1"; Some " 43 "])
             !! "shoe_size_eu").
Proof.
  destruct (passthrough_exact strict_iso ["Emp Id"; "Shoe Size (EU)"] [Some "E1"; Some " 43 "])
    as [_ H].
  apply (H "Shoe Size (EU)" (Some " 43 ")).
  - cbn. right. left.
  - vm_compute. reflexivity.
  - vm_compute. eexists. reflexivity.
Defined.

(** ** The shape of the fields of a record *)

(** A text value as [norm_str] leaves it: null, or a non-empty string
    without white space at either end. *)
Definition tidy (x : option string) : Prop :=
  ∀ s, x = Some s → s ≠ "" ∧ Str.strip s = s.

(** A skill as stored: tidy, and without upper-case letters. *)
Definition tidy_lower (x : option string) : Prop :=
  ∀ s, x = Some s →
    s ≠ "" ∧ Str.strip s = s ∧ Forall (λ a, Str.is_upper a = false) (Str.chars s).

Lemma norm_str_tidy x : tidy (norm_str x).
Proof.
  intros s Hs. destruct x as [y|]; [|done]. cbn in Hs.
  destruct (decide (Str.strip y = "")); [done|]. injection Hs as <-.
  split; [done|apply StrFacts.strip_idemp].
Qed.

Lemma lower_char_space a : Str.is_space (Str.lower_char a) = Str.is_space a.
Proof. by destruct a as [[] [] [] [] [] [] [] []]. Qed.

Lemma chars_inj s t : Str.chars s = Str.chars t → s = t.
Proof.
  intros H. by rewrite <- (StrFacts.of_chars_chars s), <- (StrFacts.of_chars_chars t), H.
Qed.

Lemma strip_lower s : Str.strip s = s → Str.strip (Str.lower s) = Str.lower s.
Proof.
  intros Hs. unfold Str.strip, Str.lower. rewrite StrFacts.chars_of_chars.
  f_equal. apply StrFacts.strip_by_fixed.
  assert (StrFacts.trimmed Str.is_space (Str.chars s)) as Ht.
  { rewrite <- Hs at 1. unfold Str.strip. rewrite StrFacts.chars_of_chars.
    apply StrFacts.strip_by_trimmed. }
  apply StrFacts.trimmed_ends in Ht as [Hh Hl]. apply StrFacts.trimmed_ends. split.
  - intros a. destruct (Str.chars s) as [|b l]; [done|]. cbn. intros [= <-].
    rewrite lower_char_space. by apply Hh.
  - intros a. destruct (last (Str.chars s)) as [b|] eqn:Hlast.
    + apply last_Some in Hlast as [l' ->]. rewrite fmap_app. cbn.
      rewrite last_snoc. intros [= <-]. rewrite lower_char_space. by apply Hl.
    + apply last_None in Hlast. by rewrite Hlast.
Qed.

Lemma lower_nonempty s : s ≠ "" → Str.lower s ≠ "".
Proof.
  intros Hs Hl. apply Hs, chars_inj.
  apply (f_equal Str.chars) in Hl. unfold Str.lower in Hl.
  rewrite StrFacts.chars_of_chars in Hl. cbn in Hl.
  by apply fmap_nil_inv in Hl.
Qed.

Lemma lower_skill_tidy x : tidy x → tidy_lower (lower_skill x).
Proof.
  intros Hx s Hs. destruct x as [y|]; [|done]. cbn in Hs.
  destruct (bool_decide (y = "")); [done|]. cbn in Hs. injection Hs as <-.
  destruct (Hx y eq_refl) as [Hne Hstrip].
  split_and!; [by apply lower_nonempty|by apply strip_lower|].
  apply Forall_forall. intros a. apply lower_not_upper.
Qed.

(** The invariant of the loop over the cells. *)
Definition shaped (r : rec) : Prop :=
  tidy (empId r) ∧ tidy (name r) ∧ tidy (gender r) ∧ tidy (designation r) ∧
  tidy (managerName r) ∧ tidy (leadName r) ∧ tidy (project r) ∧ tidy (team r) ∧
  tidy_lower (primarySkill r) ∧ tidy_lower (secondarySkill r) ∧
  (∀ k s, extra r !! k = Some s → s ≠ "" ∧ Str.strip s = s).

Section RecordShape.

Variable to_datetime : bool → string → option string.

Lemma assign_shaped r cv : shaped r → shaped (assign to_datetime r cv).
Proof.
  intros (H1 & H2 & H3 & H4 & H5 & H6 & H7 & H8 & H9 & H10 & H11).
  destruct cv as [c v]. unfold assign.
  pose proof (norm_str_tidy v) as Hv.
  pose proof (lower_skill_tidy _ Hv) as Hl.
  destruct (inv !! norm_col c) as [[]|]; try (unfold shaped; cbn; by split_and!).
  destruct (norm_str v) as [val|] eqn:Hval; [|by unfold shaped; split_and!].
  unfold shaped; cbn; split_and!; try done.
  intros k s. destruct (decide (k = snake c)) as [->|Hne].
  - rewrite lookup_insert_eq. intros [= <-]. by apply Hv.
  - rewrite lookup_insert_ne by done. apply H11.
Qed.

Lemma build_row_shaped cols cells : shaped (build_row to_datetime cols cells).
Proof.
  unfold build_row. generalize (zip cols cells). intros items.
  assert (shaped empty_rec) as H.
  { unfold shaped, tidy, tidy_lower. cbn. by split_and!. }
  revert H. generalize empty_rec.
  induction items as [|cv items IH]; intros r Hr; cbn [foldl]; [done|].
  by apply IH, assign_shaped.
Qed.

(** X7. Every record [build_records] hands to the upsert engine has a
    non-empty id and name without white space at either end; its other
    text fields and the values of its passthrough properties are null or
    such strings; its skills have no upper-case letter. *)
Theorem built_records_shaped df r :
  r ∈ build_records to_datetime df →
  (∃ s, empId r = Some s ∧ s ≠ "" ∧ Str.strip s = s) ∧
  (∃ s, name r = Some s ∧ s ≠ "" ∧ Str.strip s = s) ∧
  tidy (gender r) ∧ tidy (designation r) ∧
  tidy (managerName r) ∧ tidy (leadName r) ∧ tidy (project r) ∧ tidy (team r) ∧
  tidy_lower (primarySkill r) ∧ tidy_lower (secondarySkill r) ∧
  (∀ k s, extra r !! k = Some s → s ≠ "" ∧ Str.strip s = s).
Proof.
  unfold build_records. intros [Hkeep Hr]%list_elem_of_filter.
  apply list_elem_of_fmap in Hr as (cells & -> & _).
  destruct (build_row_shaped (norm_col <$> columns df) cells)
    as (H1 & H2 & H3 & H4 & H5 & H6 & H7 & H8 & H9 & H10 & H11).
  unfold keep in Hkeep. apply andb_true_iff in Hkeep as [Hid Hname].
  split_and!; try done.
  - destruct (empId _) as [s|] eqn:Hs; [|done]. exists s. split; [done|]. by apply H1.
  - destruct (name _) as [s|] eqn:Hs; [|done]. exists s. split; [done|]. by apply H2.
Qed.

End RecordShape.

Definition padded_sheet : dataframe :=
  DataFrame [" Emp  Id"; "Emp Name "; "Primary Skill"; "Team"; "Desk"]
    [[Some " E1 "; Some "Alice  "; Some " Rocq "; Some "   "; Some " 4B "]].

Lemma built_records_shaped_witness :
  tidy_lower (Some "rocq") ∧ tidy None.
Proof.
  destruct (built_records_shaped strict_iso padded_sheet
              (Rec (Some "E1") (Some "Alice") None None None None None (Some "rocq")
                   None None None {[ "desk" := "4B" ]}))
    as (_ & _ & _ & _ & _ & _ & _ & Ht & Hs & _).
  - vm_compute. left.
  - split; [exact Hs|exact Ht].
Defined.

(** ** Which statements can raise *)

Section Refusals.

Context {cs : schema}.

(** A node merged on its name alone meets no uniqueness constraint: the
    [MERGE] creates it only when no node of the label has the name. *)
Lemma violates_plain l v ns :
  match_nodes l "name" (VStr v) ns = [] →
  violates ns ∅ (Node l {[ "name" := VStr v ]}) = false.
Proof.
  intros Hnone. unfold violates, enforced, constraints.
  cbn [existsb zip zip_with nlabel nprops].
  rewrite lookup_singleton_ne by done. rewrite lookup_singleton_eq.
  rewrite !andb_false_r. cbn [orb]. rewrite orb_false_r.
  destruct (decide (l = Skill)) as [->|Hs].
  - rewrite Hnone. rewrite (bool_decide_eq_true_2 ([] = [])) by done.
    rewrite (bool_decide_eq_false_2 (Skill = Project)) by done.
    cbn [negb andb]. by rewrite !andb_false_r.
  - rewrite (bool_decide_eq_false_2 (l = Skill)) by done. cbn [andb].
    rewrite andb_false_r. cbn [orb].
    destruct (decide (l = Project)) as [->|Hp].
    + rewrite Hnone. rewrite (bool_decide_eq_true_2 ([] = [])) by done.
      cbn [negb andb]. by rewrite !andb_false_r.
    + rewrite (bool_decide_eq_false_2 (l = Project)) by done. cbn [andb].
      by rewrite andb_false_r.
Qed.

(** A stub is refused only when its synthetic id is taken. *)
Lemma violates_stub prefix r v ns :
  violates ns ∅ (Node Employee (on_create_stub prefix r v {[ "name" := VStr v ]})) = true →
  emp_id_unique cs = true ∧
  ∃ id, empId r = Some id ∧
        match_nodes Employee "empId" (VStr (prefix +:+ id +:+ "::" +:+ v)) ns ≠ [].
Proof.
  unfold violates, enforced, constraints. cbn [existsb zip zip_with nlabel nprops].
  rewrite (bool_decide_eq_false_2 (Employee = Skill)) by done.
  rewrite (bool_decide_eq_false_2 (Employee = Project)) by done.
  cbn [andb orb]. rewrite !andb_false_r, !orb_false_r.
  unfold on_create_stub. rewrite set_prop_eq. unfold stub_id.
  destruct (empId r) as [id|]; cbn [mbind option_bind]; [|by rewrite !andb_false_r].
  intros H. apply andb_true_iff in H as [Hon H]. split; [done|].
  exists id. split; [done|].
  apply andb_true_iff in H as [_ H]. apply andb_true_iff in H as [_ H].
  by apply negb_true_iff, bool_decide_eq_false in H.
Qed.

Lemma merge_node_fails l v f ns :
  merge_node l "name" (VStr v) f ns = None →
  match_nodes l "name" (VStr v) ns = [] ∧
  violates ns ∅ (Node l (f {[ "name" := VStr v ]})) = true.
Proof.
  unfold merge_node. destruct (match_nodes l "name" (VStr v) ns); [|done].
  unfold create_node. by destruct (violates ns ∅ _).
Qed.

Section LinkErrors.

Variable target : rec → option string.
Variable l : label.
Variable on_create : rec → string → gmap string value → gmap string value.
Variable t : rel_type.
Variable pat : option (string * value).

Hypothesis on_create_name : ∀ r v p, on_create r v p !! "name" = p !! "name".

(** The row at which the statement is refused. *)
Definition refused_at (bs : list (rec * nat)) (ns : list node) : Prop :=
  ∃ b v ns', b ∈ bs ∧ target b.1 = Some v ∧ extends ns ns' ∧
    match_nodes l "name" (VStr v) ns' = [] ∧
    violates ns' ∅ (Node l (on_create b.1 v {[ "name" := VStr v ]})) = true.

Lemma merge_targets_fail bs ns ts :
  fold_rows (merge_target target l on_create) (ns, ts) bs = None → refused_at bs ns.
Proof.
  revert ns ts. induction bs as [|b bs IH]; intros ns ts; cbn [fold_rows]; [done|].
  destruct (target b.1) as [v|] eqn:Hv.
  - rewrite (merge_target_some _ _ _ _ _ _ v) by done.
    destruct (merge_node l "name" (VStr v) (on_create b.1 v) ns) as [[ns1 m]|] eqn:Hm.
    + cbn [mbind option_bind]. intros (b' & v' & ns' & Hin & Hv' & Hext & H)%IH.
      apply merge_node_spec in Hm as (Hext1 & _); [|apply on_create_name].
      exists b', v', ns'. split_and!; [by right|done|by eapply extends_trans|apply H..].
    + intros _. apply merge_node_fails in Hm as [Hnone Hviol].
      exists b, v, ns. split_and!; [by left|done|apply extends_refl|done..].
  - rewrite merge_target_none by done. cbn [mbind option_bind].
    intros (b' & v' & ns' & Hin & H)%IH. exists b', v', ns'. split; [by right|done].
Qed.

Lemma link_fails bs g :
  link target l on_create t pat bs g = None → refused_at bs (nodes g).
Proof.
  unfold link.
  destruct (fold_rows _ _ bs) as [[ns ts]|] eqn:Hfold.
  - cbn [mbind option_bind]. by destruct (foldl _ _ ts).
  - intros _. by eapply merge_targets_fail.
Qed.

End LinkErrors.

Lemma link_plain_total target l t pat bs g :
  is_Some (link target l no_create t pat bs g).
Proof.
  destruct (link target l no_create t pat bs g) eqn:Hlink; [done|].
  apply link_fails in Hlink as (b & v & ns' & _ & _ & _ & Hnone & Hviol); [|done].
  unfold no_create in Hviol. by rewrite violates_plain in Hviol.
Qed.

Lemma phase_team_total b g : is_Some (phase_team b g).
Proof.
  unfold phase_team.
  destruct (link_plain_total team Team WORKS_IN None
              (matched (λ r, truthy (team r)) b (nodes g)) g) as [x ->]. done.
Qed.

Lemma phase_skills_total b g : is_Some (phase_skills b g).
Proof.
  unfold phase_skills.
  rewrite !foreach_link_eq by (done || apply plain_type).
  destruct (link_plain_total primarySkill Skill HAS_SKILL (Some ("type", VStr "primary"))
              (matched (λ _, true) b (nodes g)) g) as [x ->].
  cbn [fmap option_fmap option_map mbind option_bind].
  rewrite foreach_link_eq by (done || apply plain_type).
  destruct (link_plain_total secondarySkill Skill HAS_SKILL
              (Some ("type", VStr "secondary"))
              (matched (λ _, true) b (nodes g)) x.1) as [y ->]. done.
Qed.

Lemma phase_projects_total b g : is_Some (phase_projects b g).
Proof.
  unfold phase_projects.
  destruct (link_plain_total project Project WORKS_ON None
              (matched (λ r, truthy (project r)) b (nodes g)) g) as [[g1 ws] ->]. done.
Qed.

(** X9. The team, skills and project statements are accepted by the
    store on every graph and every batch: the nodes they create carry
    only the name they were found missing on. *)
Theorem name_merges_never_raise b g :
  is_Some (phase_team b g) ∧ is_Some (phase_skills b g) ∧ is_Some (phase_projects b g).
Proof.
  split_and!; [apply phase_team_total|apply phase_skills_total|apply phase_projects_total].
Qed.

(** The stub a reporting statement wants to create is refused: no
    employee has the referenced name, and the synthetic id is taken. *)
Definition stub_collision (prefix : string) (field : rec → option string)
    (b : list rec) (g : graph) : Prop :=
  ∃ r m id ns', r ∈ b ∧ field r = Some m ∧ empId r = Some id ∧
    extends (nodes g) ns' ∧
    match_nodes Employee "name" (VStr m) ns' = [] ∧
    match_nodes Employee "empId" (VStr (prefix +:+ id +:+ "::" +:+ m)) ns' ≠ [].

Lemma reporting_fails prefix field t b g :
  link field Employee (on_create_stub prefix) t None
       (matched (λ r, truthy (field r)) b (nodes g)) g = None →
  emp_id_unique cs = true ∧ stub_collision prefix field b g.
Proof.
  intros ([r e] & m & ns' & Hin & Hm & Hext & Hnone & Hviol)%link_fails;
    [|apply on_create_stub_name].
  apply elem_of_matched in Hin as (Hr & _ & _). cbn in Hm, Hviol.
  apply violates_stub in Hviol as (Hon & id & Hid & Htaken).
  split; [done|]. by exists r, m, id, ns'.
Qed.

(** X10. The manager and the lead statement are refused by the store
    only at a row whose referenced name no employee has and whose
    synthetic stub id an employee already has. *)
Theorem reporting_raises_on_stub_collision b g :
  (phase_manager b g = None → stub_collision "stub::manager::" managerName b g) ∧
  (phase_lead b g = None → stub_collision "stub::lead::" leadName b g).
Proof.
  split.
  - unfold phase_manager. intros H. apply fmap_None in H.
    by apply reporting_fails in H as [_ H].
  - unfold phase_lead. intros H. apply fmap_None in H.
    by apply reporting_fails in H as [_ H].
Qed.

(** The same with the constraint that refuses the stub. *)
Lemma phase_manager_fails b g :
  phase_manager b g = None →
  emp_id_unique cs = true ∧ stub_collision "stub::manager::" managerName b g.
Proof. unfold phase_manager. intros H. apply fmap_None in H. by apply reporting_fails in H. Qed.

Lemma phase_lead_fails b g :
  phase_lead b g = None →
  emp_id_unique cs = true ∧ stub_collision "stub::lead::" leadName b g.
Proof. unfold phase_lead. intros H. apply fmap_None in H. by apply reporting_fails in H. Qed.

Section EmployeeErrors.

Variable to_datetime : bool → string → option string.

Lemma build_records_ids df :
  Forall (λ r, is_Some (empId r)) (build_records to_datetime df).
Proof.
  unfold build_records. apply Forall_forall. intros r [Hkeep _]%list_elem_of_filter.
  unfold keep in Hkeep. apply andb_true_iff in Hkeep as [Hid _].
  by destruct (empId r).
Qed.


End EmployeeErrors.

(** Where the six statements of the batch can stop. *)
Lemma run_statements_aborted b g :
  let p := run_statements b batch_statements [] g in
  Forall canonical b → Forall (λ r, is_Some (empId r)) b → aborted p = true →
  (last (ran p) = Some Employees ∧ ¬ Forall storable b) ∨
  (emp_id_unique cs = true ∧
   ((last (ran p) = Some ManagerEdges ∧
     stub_collision "stub::manager::" managerName b (reached p)) ∨
    (last (ran p) = Some LeadEdges ∧
     stub_collision "stub::lead::" leadName b (reached p)))).
Proof.
  intros p Hcan Hids. subst p.
  cbn [batch_statements run_statements run_statement].
  destruct (phase_employees b g) as [g1|] eqn:H1.
  - destruct (phase_team_total b g1) as [g2 ->].
    destruct (phase_manager b g2) as [g3|] eqn:H3.
    + destruct (phase_lead b g3) as [g4|] eqn:H4.
      * destruct (phase_skills_total b g4) as [g5 ->].
        by destruct (phase_projects_total b g5) as [g6 ->].
      * cbn. intros _. right. apply phase_lead_fails in H4 as [Hon H4].
        split; [done|]. by right.
    + cbn. intros _. right. apply phase_manager_fails in H3 as [Hon H3].
      split; [done|]. by left.
  - cbn. intros _. left. split; [done|]. intros Hkeys.
    by rewrite phase_employees_steps in H1.
Qed.

End Refusals.

(** Two rows whose ids and manager names give the same synthetic id. *)
Definition colliding_batch : list rec :=
  [ Rec (Some "a::b") (Some "Ann") None None None (Some "c") None None None None None ∅;
    Rec (Some "a") (Some "Abe") None None None (Some "b::c") None None None None None ∅ ].

Definition colliding_graph : graph :=
  Graph [Node Employee {[ "empId" := VStr "a::b"; "name" := VStr "Ann" ]};
         Node Employee {[ "empId" := VStr "a"; "name" := VStr "Abe" ]}] [].

Lemma reporting_raises_on_stub_collision_witness :
  phase_manager (cs := all_unique) colliding_batch colliding_graph = None ∧
  stub_collision (cs := all_unique) "stub::manager::" managerName colliding_batch
                 colliding_graph.
Proof.
  assert (phase_manager (cs := all_unique) colliding_batch colliding_graph = None) as H
    by (vm_compute; reflexivity).
  split; [exact H|].
  apply (reporting_raises_on_stub_collision (cs := all_unique) colliding_batch
           colliding_graph), H.
Defined.



(** X11. A run of [upsert] on the records of a sheet can be aborted by
    the store only in the employee statement, by a passthrough property
    with the empty key, or in the manager or the lead statement, and then
    with the constraint on [empId] in force, by a stub whose synthetic id
    is taken in the graph the statements before left. *)
Theorem upsert_raises_only_on_stubs to_datetime df (d : database) :
  let b := build_records to_datetime df in
  let o := upsert d b in
  raised o = true →
  (last (sent o) = Some (Batch Employees) ∧ ¬ Forall storable b) ∨
  (emp_id_unique (in_force (store o)) = true ∧
   ((last (sent o) = Some (Batch ManagerEdges) ∧
     stub_collision (cs := in_force (store o)) "stub::manager::" managerName b (store o)) ∨
    (last (sent o) = Some (Batch LeadEdges) ∧
     stub_collision (cs := in_force (store o)) "stub::lead::" leadName b (store o)))).
Proof.
  intros b o. subst o b.
  pose proof (build_records_canonical to_datetime df) as Hcan.
  pose proof (build_records_ids to_datetime df) as Hids.
  destruct (build_records to_datetime df) as [|r b]; [done|].
  rewrite upsert_records. cbn zeta. cbn [raised sent store in_force content].
  rewrite last_app. intros Hr.
  destruct (run_statements_aborted (cs := setup_schema d) (r :: b) d Hcan Hids Hr)
    as [[Hl Hk]|[Hon [[Hl Hc]|[Hl Hc]]]].
  - left. split; [|done]. rewrite fmap_last, Hl. done.
  - right. split; [done|]. left. split; [|done]. rewrite fmap_last, Hl. done.
  - right. split; [done|]. right. split; [|done]. rewrite fmap_last, Hl. done.
Qed.

Definition colliding_sheet : dataframe :=
  DataFrame ["Emp Id"; "Emp Name"; "Manager"]
    [[Some "a::b"; Some "Ann"; Some "c"]; [Some "a"; Some "Abe"; Some "b::c"]].

Lemma upsert_raises_only_on_stubs_witness :
  raised (upsert empty_store (build_records strict_iso colliding_sheet)) = true ∧
  last (sent (upsert empty_store (build_records strict_iso colliding_sheet)))
    = Some (Batch ManagerEdges).
Proof.
  assert (raised (upsert empty_store (build_records strict_iso colliding_sheet)) = true)
    as H by (vm_compute; reflexivity).
  split; [exact H|].
  destruct (upsert_raises_only_on_stubs strict_iso colliding_sheet empty_store H)
    as [[He _]|[_ [[Hm _]|[Hl _]]]]; [|exact Hm|].
  - vm_compute in He. discriminate He.
  - vm_compute in Hl. discriminate Hl.
Defined.

(** ** What a run leaves of the nodes it found *)

(** X12. A run of [upsert], completed or aborted, removes no node: every
    node keeps its position, its label and its empId; a node that is no
    Employee, and an Employee whose id no record of the batch has, is
    left exactly as it was. *)
Theorem upsert_keeps_nodes (g : database) b i n :
  Forall canonical b → nodes g !! i = Some n →
  ∃ n', nodes (store (upsert g b)) !! i = Some n' ∧
    nlabel n' = nlabel n ∧ nprops n' !! "empId" = nprops n !! "empId" ∧
    (nlabel n ≠ Employee → n' = n) ∧
    (Forall (λ r, row_matches r n = false) b → n' = n).
Proof.
  intros Hcan Hn.
  assert (nodes_kept b (nodes g) (nodes (store (upsert g b)))) as Hkept.
  { destruct b as [|r b]; [apply nodes_kept_refl|].
    rewrite upsert_records. by apply run_statements_kept. }
  destruct (Hkept i n Hn) as (n' & Hn' & Hl & Hid & Hsame).
  exists n'. split_and!; [done..| |done].
  intros Hlabel. apply Hsame. apply Forall_forall. intros r _.
  destruct (row_matches r n) eqn:Hm; [|done].
  apply row_matches_spec in Hm as (_ & _ & ? & _). done.
Qed.

Lemma upsert_keeps_nodes_witness :
  ∃ n', nodes (store (upsert apollo_store sample_batch)) !! 1 = Some n' ∧
        n' = Node Project {[ "name" := VStr "Apollo" ]}.
Proof.
  destruct (upsert_keeps_nodes apollo_store sample_batch 1
              (Node Project {[ "name" := VStr "Apollo" ]}))
    as (n' & Hn' & _ & _ & Hsame & _).
  - repeat constructor.
  - reflexivity.
  - exists n'. split; [exact Hn'|]. by apply Hsame.
Defined.

(** ** What a completed run has linked *)

(** Employee node [e] has a relationship of the pattern to every node of
    label [l] named [v], and there is such a node. *)
Definition linked (g : graph) (e : nat) (t : rel_type) (pat : option (string * value))
    (l : label) (v : string) : Prop :=
  match_nodes l "name" (VStr v) (nodes g) ≠ [] ∧
  ∀ x, x ∈ match_nodes l "name" (VStr v) (nodes g) →
       find_all (edge_is e t x pat) (edges g) ≠ [].

Lemma linked_on_linked target l t pat bs g r e v :
  linked_on target l t pat bs g → (r, e) ∈ bs → target r = Some v →
  linked g e t pat l v.
Proof.
  intros [Ht Hl] Hin Hv. split.
  - unfold targets_present in Ht. rewrite Forall_forall in Ht.
    by apply (Ht (r, e) Hin v).
  - intros x Hx. unfold links_present in Hl. rewrite Forall_forall in Hl.
    apply (Hl ((r, e), x)). apply list_elem_of_bind. exists (r, e). split; [|done].
    unfold targets_of. cbn. rewrite Hv. apply list_elem_of_fmap. by exists x.
Qed.

Lemma truthy_Some v : v ≠ "" → truthy (Some v) = true.
Proof. intros Hv. cbn. by rewrite bool_decide_eq_false_2. Qed.

(** X13. After a run of [upsert] that is not aborted and had the
    constraint on [empId] in force, every record of
    the batch has an Employee node with its id, and each such node is
    linked to the team, the manager, the lead, the two skills and the
    project the record names: the named node exists, and the node has the
    relationship to every node of that name; the WORKS_ON relationships
    of a record with a joining date have their [since] set. *)
Theorem upsert_links_records (g : database) b r :
  Forall canonical b → emp_id_unique (in_force (store (upsert g b))) = true →
  raised (upsert g b) = false → r ∈ b →
  let g' := store (upsert g b) in
  match_employee (nodes g') r ≠ [] ∧
  ∀ e, e ∈ match_employee (nodes g') r →
    (∀ v, team r = Some v → v ≠ "" → linked g' e WORKS_IN None Team v) ∧
    (∀ v, managerName r = Some v → v ≠ "" → linked g' e REPORTS_TO None Employee v) ∧
    (∀ v, leadName r = Some v → v ≠ "" → linked g' e LEAD_REPORTING None Employee v) ∧
    (∀ v, primarySkill r = Some v →
          linked g' e HAS_SKILL (Some ("type", VStr "primary")) Skill v) ∧
    (∀ v, secondarySkill r = Some v →
          linked g' e HAS_SKILL (Some ("type", VStr "secondary")) Skill v) ∧
    (∀ v, project r = Some v → v ≠ "" →
          linked g' e WORKS_ON None Project v ∧
          (doj r ≠ None →
           ∀ x j w, x ∈ match_nodes Project "name" (VStr v) (nodes g') →
                    j ∈ find_all (edge_is e WORKS_ON x None) (edges g') →
                    edges g' !! j = Some w → eprops w !! "since" ≠ None)).
Proof.
  intros Hcan Hon Hok Hr g'. destruct b as [|r0 b]; [by apply elem_of_nil in Hr|].
  subst g'. rewrite upsert_records in Hon, Hok |- *. cbn zeta in *.
  cbn [store in_force raised content] in *.
  destruct (rerun_statements (cs := setup_schema g) Hon (r0 :: b) g Hcan) as [_ Hing].
  destruct (Hing Hok)
    as ([Hcov _] & Hteam & Hmgr & Hlead & Hprim & Hsec & Hproj & Hsince).
  set (g' := reached (run_statements (cs := setup_schema g) (r0 :: b) batch_statements [] g))
    in *.
  split.
  - unfold covered in Hcov. rewrite Forall_forall in Hcov. by apply Hcov.
  - intros e He. split_and!.
    + intros v Hv Hne. eapply linked_on_linked; [exact Hteam| |done].
      apply elem_of_matched. split_and!; [done| |done]. rewrite Hv. by apply truthy_Some.
    + intros v Hv Hne. eapply linked_on_linked; [exact Hmgr| |done].
      apply elem_of_matched. split_and!; [done| |done]. rewrite Hv. by apply truthy_Some.
    + intros v Hv Hne. eapply linked_on_linked; [exact Hlead| |done].
      apply elem_of_matched. split_and!; [done| |done]. rewrite Hv. by apply truthy_Some.
    + intros v Hv. eapply linked_on_linked; [exact Hprim| |done].
      by apply elem_of_matched.
    + intros v Hv. eapply linked_on_linked; [exact Hsec| |done].
      by apply elem_of_matched.
    + intros v Hv Hne.
      assert ((r, e) ∈ matched (λ r, truthy (project r)) (r0 :: b) (nodes g')) as Hin.
      { apply elem_of_matched. split_and!; [done| |done]. rewrite Hv. by apply truthy_Some. }
      split; [by eapply linked_on_linked|].
      intros Hdoj x j w Hx Hj Hw.
      unfold since_set, since_done in Hsince. rewrite Forall_forall in Hsince.
      destruct (Hsince (r, j)) with (w := w) as [?|?]; [|done|done|done].
      unfold bound_links. apply list_elem_of_bind. exists ((r, e), x). split.
      * unfold links_of. cbn. apply list_elem_of_fmap. by exists j.
      * apply list_elem_of_bind. exists (r, e). split; [|done].
        unfold targets_of. cbn. rewrite Hv. apply list_elem_of_fmap. by exists x.
Qed.

Lemma upsert_links_records_witness :
  match_employee (nodes (store (upsert empty_store sample_batch)))
    (Rec (Some "E2") (Some "Carol") None None (Some "Lead") (Some "Bob Lee") None
         (Some "sql") None (Some "Apollo") None ∅) ≠ [].
Proof.
  assert (Forall canonical sample_batch) as Hcan by repeat constructor.
  assert (emp_id_unique (in_force (store (upsert empty_store sample_batch))) = true)
    as Hon by (vm_compute; reflexivity).
  assert (raised (upsert empty_store sample_batch) = false) as Hok
    by (vm_compute; reflexivity).
  assert (Rec (Some "E2") (Some "Carol") None None (Some "Lead") (Some "Bob Lee") None
              (Some "sql") None (Some "Apollo") None ∅ ∈ sample_batch) as Hin.
  { unfold sample_batch. apply elem_of_cons. right. apply elem_of_cons. by left. }
  destruct (upsert_links_records empty_store sample_batch _ Hcan Hon Hok Hin) as [H _].
  exact H.
Defined.

(** ** No duplicates *)

(** No two nodes labelled [l] share a value of the property [k]. *)
Definition unique_on (l : label) (k : string) (ns : list node) : Prop :=
  ∀ v i j, i ∈ match_nodes l k v ns → j ∈ match_nodes l k v ns → i = j.

Lemma unique_snoc l k ns n :
  unique_on l k ns →
  (∀ v, node_is l k v n = true → match_nodes l k v ns = []) →
  unique_on l k (ns ++ [n]).
Proof.
  intros Hu Hn v i j. rewrite match_nodes_app. cbn [find_from].
  destruct (node_is l k v n) eqn:Hnode.
  - rewrite (Hn v Hnode). cbn [app].
    by intros ->%list_elem_of_singleton ->%list_elem_of_singleton.
  - rewrite app_nil_r. by apply Hu.
Qed.

Lemma unique_fmap l k (F : node → node) ns :
  (∀ v n, node_is l k v (F n) = node_is l k v n) →
  unique_on l k ns → unique_on l k (F <$> ns).
Proof.
  intros HF Hu v i j. unfold match_nodes.
  rewrite find_all_fmap by (intros n; by apply HF). by apply Hu.
Qed.

Section Unique.

Context {cs : schema}.

(** The property a label is merged on by the statements that create its
    nodes: the name for skills, projects and teams; for employees the
    id, which the stubs of the reporting statements respect only under
    the constraint on [empId]. *)
Definition merge_key (l : label) (k : string) : Prop :=
  (l = Employee ∧ k = "empId" ∧ emp_id_unique cs = true) ∨ (l ≠ Employee ∧ k = "name").

Lemma node_is_settle b l k v n :
  Forall canonical b → merge_key l k →
  node_is l k v (settle b n) = node_is l k v n.
Proof.
  intros Hcan Hkey.
  destruct (tame_key (settle b) n (tame_settle b Hcan)) as [Hl Hid].
  destruct Hkey as [(-> & -> & _)|[Hne ->]].
  - unfold node_is. by rewrite Hl, Hid.
  - destruct (decide (nlabel n = Employee)) as [He|He].
    + unfold node_is. rewrite Hl, He.
      rewrite !bool_decide_eq_false_2; [done|by intros [? _]..].
    + rewrite settle_unmatched; [done|]. apply Forall_forall. intros r _.
      destruct (row_matches r n) eqn:Hm; [|done].
      apply row_matches_spec in Hm as (_ & _ & ? & _). done.
Qed.

Lemma unique_fresh b l k ns :
  merge_key l k → unique_on l k ns → unique_on l k (ns ++ fresh b ns).
Proof.
  intros Hkey. revert ns. induction b as [|r b IH]; intros ns Hu; cbn [fresh].
  - by rewrite app_nil_r.
  - rewrite app_assoc. apply IH.
    unfold fresh_employee. destruct (empId r) as [id|] eqn:Hid; [|by rewrite app_nil_r].
    case_bool_decide as Hnone; [|by rewrite app_nil_r].
    apply unique_snoc; [done|].
    intros v [Hl Hk]%bool_decide_eq_true. cbn in Hl, Hk. subst l.
    destruct Hkey as [(_ & -> & _)|[? _]]; [|done].
    rewrite lookup_singleton_eq in Hk. injection Hk as <-.
    unfold match_employee in Hnone. by rewrite Hid in Hnone.
Qed.

Lemma phase_employees_unique b l k g g' :
  Forall canonical b → merge_key l k → phase_employees b g = Some g' →
  unique_on l k (nodes g) → unique_on l k (nodes g').
Proof.
  intros Hcan Hkey Hrun Hu. pose proof (phase_employees_ids _ _ _ Hrun) as Hids.
  pose proof (phase_employees_keys _ _ _ Hrun) as Hkeys.
  rewrite phase_employees_nf in Hrun by done. injection Hrun as <-. cbn [nodes].
  apply unique_fmap; [|by apply unique_fresh].
  intros v n. by apply node_is_settle.
Qed.

Lemma merge_node_unique l0 v f l k ns ns' m :
  (∀ p, f p !! "name" = p !! "name") → merge_key l k →
  merge_node l0 "name" (VStr v) f ns = Some (ns', m) →
  unique_on l k ns → unique_on l k ns'.
Proof.
  intros Hf Hkey. unfold merge_node.
  destruct (match_nodes l0 "name" (VStr v) ns) as [|j js] eqn:Hm.
  - unfold create_node.
    destruct (violates ns ∅ _) eqn:Hv; [done|]. cbn [mbind option_bind].
    intros [= <- <-] Hu. apply unique_snoc; [done|].
    intros v' [Hl Hk]%bool_decide_eq_true. cbn in Hl, Hk. subst l0.
    destruct Hkey as [(-> & -> & Hon)|[Hne ->]].
    + unfold violates, enforced, constraints in Hv.
      cbn [existsb zip zip_with nlabel nprops] in Hv.
      apply orb_false_iff in Hv as [Hv _].
      rewrite Hon, Hk, bool_decide_eq_true_2 in Hv by done.
      rewrite lookup_empty, bool_decide_eq_false_2 in Hv by done.
      cbn in Hv. by apply negb_false_iff, bool_decide_eq_true in Hv.
    + rewrite Hf, lookup_singleton_eq in Hk. by injection Hk as <-.
  - by intros [= <- <-].
Qed.

Section LinkUnique.

Variable target : rec → option string.
Variable l0 : label.
Variable on_create : rec → string → gmap string value → gmap string value.
Variable t : rel_type.
Variable pat : option (string * value).
Variable l : label.
Variable k : string.

Hypothesis on_create_name : ∀ r v p, on_create r v p !! "name" = p !! "name".
Hypothesis key : merge_key l k.

Lemma merge_targets_unique bs ns ts ns' ts' :
  fold_rows (merge_target target l0 on_create) (ns, ts) bs = Some (ns', ts') →
  unique_on l k ns → unique_on l k ns'.
Proof.
  revert ns ts. induction bs as [|b bs IH]; intros ns ts; cbn [fold_rows].
  - by intros [= <- <-].
  - destruct (merge_target target l0 on_create (ns, ts) b) as [[ns1 ts1]|] eqn:Hstep;
      [|done]. cbn [mbind option_bind]. intros Hrest Hu.
    eapply IH; [exact Hrest|].
    unfold merge_target in Hstep. destruct (target b.1) as [v|].
    + destruct (merge_node _ _ _ _ ns) as [[ns2 m]|] eqn:Hm; [|done].
      cbn [mbind option_bind] in Hstep. injection Hstep as <- <-.
      eapply merge_node_unique; [|exact key|exact Hm|done]. apply on_create_name.
    + by injection Hstep as <- <-.
Qed.

Lemma link_unique bs g g' ws :
  link target l0 on_create t pat bs g = Some (g', ws) →
  unique_on l k (nodes g) → unique_on l k (nodes g').
Proof.
  unfold link.
  destruct (fold_rows _ _ bs) as [[ns ts]|] eqn:Hfold; [|done].
  cbn [mbind option_bind]. destruct (foldl _ _ ts) as [es ws'].
  intros [= <- <-]. cbn [nodes]. by eapply merge_targets_unique.
Qed.

End LinkUnique.

Lemma run_statement_unique b s l k g g' :
  Forall canonical b → merge_key l k → run_statement b s g = Some g' →
  unique_on l k (nodes g) → unique_on l k (nodes g').
Proof.
  intros Hcan Hkey. destruct s; cbn [run_statement].
  - by apply phase_employees_unique.
  - unfold phase_team. intros ([g1 ws] & Hl & ->)%fmap_Some.
    eapply link_unique; [|exact Hkey|exact Hl]. done.
  - unfold phase_manager. intros ([g1 ws] & Hl & ->)%fmap_Some.
    eapply link_unique; [|exact Hkey|exact Hl]. apply on_create_stub_name.
  - unfold phase_lead. intros ([g1 ws] & Hl & ->)%fmap_Some.
    eapply link_unique; [|exact Hkey|exact Hl]. apply on_create_stub_name.
  - unfold phase_skills. rewrite foreach_link_eq by (done || apply plain_type).
    destruct (link primarySkill _ _ _ _ _ g) as [[g1 ws1]|] eqn:H1; [|done].
    cbn [fmap option_fmap option_map mbind option_bind fst].
    rewrite foreach_link_eq by (done || apply plain_type).
    intros ([g2 ws2] & H2 & ->)%fmap_Some Hu.
    eapply link_unique; [|exact Hkey|exact H2|]; [done|].
    eapply link_unique; [|exact Hkey|exact H1|done]. done.
  - unfold phase_projects.
    destruct (link project _ _ _ _ _ g) as [[g1 ws1]|] eqn:H1; [|done].
    cbn [mbind option_bind]. intros [= <-]. cbn [nodes].
    eapply link_unique; [|exact Hkey|exact H1]. done.
Qed.

Lemma run_statements_unique b stmts dn l k g :
  Forall canonical b → merge_key l k → unique_on l k (nodes g) →
  unique_on l k (nodes (reached (run_statements b stmts dn g))).
Proof.
  intros Hcan Hkey. revert dn g.
  induction stmts as [|s stmts IH]; intros dn g Hu; cbn [run_statements];
    [exact Hu|].
  destruct (run_statement b s g) as [g'|] eqn:Hs; [|exact Hu].
  apply IH. eapply run_statement_unique; [exact Hcan|exact Hkey|exact Hs|exact Hu].
Qed.

End Unique.

(** X14. A run of [upsert], completed or aborted, creates no duplicate
    Skill, Project or Team: when no two nodes of such a label share a
    name before the run, none do after it. With the constraint on
    [empId] in force as the batch runs the same holds of the Employee
    nodes and their ids. *)
Theorem upsert_keeps_unique (g : database) b :
  Forall canonical b →
  (∀ l, l ≠ Employee → unique_on l "name" (nodes g) →
        unique_on l "name" (nodes (store (upsert g b)))) ∧
  (emp_id_unique (in_force (store (upsert g b))) = true →
   unique_on Employee "empId" (nodes g) →
   unique_on Employee "empId" (nodes (store (upsert g b)))).
Proof.
  intros Hcan. destruct b as [|r b]; [done|].
  rewrite upsert_records. cbn zeta. cbn [store content in_force]. split.
  - intros l Hl Hu. apply run_statements_unique; [done|by right|done].
  - intros Hon Hu. apply run_statements_unique; [done|by left|done].
Qed.

Lemma upsert_keeps_unique_witness :
  unique_on Employee "empId" (nodes (store (upsert empty_store sample_batch))) ∧
  unique_on Skill "name" (nodes (store (upsert unguarded_store sample_batch))).
Proof.
  assert (Forall canonical sample_batch) as Hcan by repeat constructor.
  split.
  - apply (upsert_keeps_unique empty_store sample_batch Hcan).
    + vm_compute. reflexivity.
    + intros v i j Hi. cbn in Hi. by apply elem_of_nil in Hi.
  - apply (upsert_keeps_unique unguarded_store sample_batch Hcan); [done|].
    intros v i j Hi. cbn in Hi. by apply elem_of_nil in Hi.
Defined.

(** ** The passthrough properties on the node *)

(** X15. [e += r.extra] in the employee statement: for the last record
    of the batch whose id an existing Employee node has, every
    passthrough property of the record is stored on the node; when no
    other record of the batch has that id, every other property of the
    node, except gender, designation, doj and name, is left as it was.
    Nothing is removed for being absent from the sheet. *)
Theorem employee_extra_merged {cs : schema} b1 r b2 g g' i n :
  Forall canonical (b1 ++ r :: b2) →
  phase_employees (b1 ++ r :: b2) g = Some g' →
  Forall (λ r', empId r' ≠ empId r) b2 →
  nodes g !! i = Some n → row_matches r n = true →
  ∃ n', nodes g' !! i = Some n' ∧
    (∀ k s, extra r !! k = Some s → nprops n' !! k = Some (VStr s)) ∧
    (Forall (λ r', empId r' ≠ empId r) b1 →
     ∀ k, extra r !! k = None →
          k ≠ "gender" → k ≠ "designation" → k ≠ "doj" → k ≠ "name" →
          nprops n' !! k = nprops n !! k).
Proof.
  intros Hcan Hrun Hb2 Hn Hr.
  exists (settle (b1 ++ r :: b2) n). split; [by eapply phase_employees_lookup|].
  destruct (settle_last b1 r b2 n Hcan Hr Hb2) as (p & -> & Hp).
  split.
  - intros k s Hk. by rewrite lookup_set_employee, Hk.
  - intros Hb1 k Hk Hg Hdes Hdoj Hname.
    rewrite lookup_set_employee, Hk, (Hp Hb1).
    rewrite !decide_False by done.
    unfold on_match_employee. destruct (name r); [|done].
    by rewrite lookup_insert_ne.
Qed.

Definition desk_row : rec :=
  Rec (Some "E1") (Some "Alice") None None None None None None None None None
      {[ "desk" := "4B" ]}.

Definition badge_graph : graph :=
  Graph [Node Employee {[ "empId" := VStr "E1"; "name" := VStr "Alice";
                          "badge" := VStr "77"; "desk" := VStr "2A" ]}] [].

Lemma employee_extra_merged_witness :
  ∃ n', nodes (Graph [Node Employee {[ "empId" := VStr "E1"; "name" := VStr "Alice";
                        "badge" := VStr "77"; "desk" := VStr "4B" ]}] []) !! 0 = Some n' ∧
    nprops n' !! "desk" = Some (VStr "4B") ∧ nprops n' !! "badge" = Some (VStr "77").
Proof.
  destruct (employee_extra_merged (cs := all_unique) [] desk_row [] badge_graph
              (Graph [Node Employee {[ "empId" := VStr "E1"; "name" := VStr "Alice";
                        "badge" := VStr "77"; "desk" := VStr "4B" ]}] []) 0
              (Node Employee {[ "empId" := VStr "E1"; "name" := VStr "Alice";
                        "badge" := VStr "77"; "desk" := VStr "2A" ]}))
    as (n' & Hn' & Hset & Hkeep).
  - repeat constructor.
  - vm_compute. reflexivity.
  - constructor.
  - reflexivity.
  - vm_compute. reflexivity.
  - exists n'. split; [exact Hn'|]. split.
    + apply Hset. reflexivity.
    + rewrite Hkeep; [reflexivity|constructor|reflexivity|done..].
Defined.

(** ** The order of the statements *)

Section Order.

Context {cs : schema}.

(** The statements run one after the other on the graph, [None] when one
    of them is refused. *)
Fixpoint run_all (records : list rec) (stmts : list batch_statement) (g : graph)
    : option graph :=
  match stmts with
  | [] => Some g
  | s :: stmts' => g' ← run_statement records s g; run_all records stmts' g'
  end.

Lemma run_statements_spec records stmts dn g :
  let p := run_statements records stmts dn g in
  (aborted p = false → ran p = dn ++ stmts ∧ run_all records stmts g = Some (reached p)) ∧
  (aborted p = true →
   ∃ before s rest, stmts = before ++ s :: rest ∧ ran p = dn ++ before ++ [s] ∧
     run_all records before g = Some (reached p) ∧
     run_statement records s (reached p) = None).
Proof.
  revert dn g. induction stmts as [|s stmts IH]; intros dn g; cbn [run_statements].
  - cbn. split; [|done]. intros _. by rewrite app_nil_r.
  - destruct (run_statement records s g) as [g'|] eqn:Hs.
    + destruct (IH (dn ++ [s]) g') as (Hok & Hbad). cbv zeta. split.
      * intros Hr. destruct (Hok Hr) as [-> Hrun]. rewrite <- app_assoc.
        split; [done|]. cbn [run_all]. by rewrite Hs.
      * intros Hr. destruct (Hbad Hr) as (before & s' & rest & -> & -> & Hrun & Hfail).
        exists (s :: before), s', rest. split_and!; [done| | |done].
        -- by rewrite <- !app_assoc.
        -- cbn [run_all]. by rewrite Hs.
    + cbn. split; [done|]. intros _. exists [], s, stmts. by split_and!.
Qed.

End Order.

(** X16. [upsert] on a batch that is not empty sends the five setup
    statements, whatever the store answers: for each one the store
    refuses (to this user, or because two nodes share the value and the
    constraint is not in force) it prints a notice and goes on, and the
    statements the store accepts leave the graph as it is. It then sends
    the six batch statements in their order, each on the graph the one
    before left and under the constraints in force after the setup; it
    stops at the first batch statement the store refuses and leaves the
    graph as the statements before it left it. *)
Theorem upsert_fail_fast (d : database) b :
  b ≠ [] →
  let o := upsert d b in
  printed o = flat_map (λ i, if setup_refused i d then [SetupNotice i] else []) (seq 0 5) ∧
  denied (store o) = denied d ∧
  enforced (in_force (store o)) =
    (λ i, nth i (enforced (in_force d)) false || negb (setup_refused i d)) <$> seq 0 3 ∧
  (raised o = false →
   sent o = setup_statements ++ (Batch <$> batch_statements) ∧
   run_all (cs := in_force (store o)) b batch_statements d = Some (content (store o))) ∧
  (raised o = true →
   ∃ before s rest, batch_statements = before ++ s :: rest ∧
     sent o = setup_statements ++ (Batch <$> before ++ [s]) ∧
     run_all (cs := in_force (store o)) b before d = Some (content (store o)) ∧
     run_statement (cs := in_force (store o)) b s (store o) = None).
Proof.
  intros Hb. destruct b as [|r b]; [done|].
  rewrite upsert_records. cbn zeta. cbn [printed sent store raised content in_force denied].
  set (records := r :: b).
  destruct (run_statements_spec (cs := setup_schema d) records batch_statements [] d)
    as (Hok & Hbad).
  split_and!; [done..| |].
  - intros Hr. destruct (Hok Hr) as [-> Hrun]. by split.
  - intros Hr. destruct (Hbad Hr) as (before & s & rest & Hsplit & -> & Hrun & Hfail).
    exists before, s, rest. by split_and!.
Qed.

Lemma upsert_fail_fast_witness :
  raised (upsert empty_store colliding_batch) = true ∧
  printed (upsert unguarded_store colliding_batch)
    = [SetupNotice 0; SetupNotice 1; SetupNotice 2] ∧
  raised (upsert unguarded_store colliding_batch) = false ∧
  ∃ before s rest, batch_statements = before ++ s :: rest ∧
    sent (upsert empty_store colliding_batch)
      = setup_statements ++ (Batch <$> before ++ [s]) ∧
    run_statement (cs := all_unique) colliding_batch s
                  (store (upsert empty_store colliding_batch)) = None.
Proof.
  assert (colliding_batch ≠ []) as Hne by done.
  assert (raised (upsert empty_store colliding_batch) = true) as Hr
    by (vm_compute; reflexivity).
  split; [exact Hr|]. split; [vm_compute; reflexivity|].
  split; [vm_compute; reflexivity|].
  destruct (upsert_fail_fast empty_store colliding_batch Hne) as (_ & _ & _ & _ & H).
  destruct (H Hr) as (before & s & rest & H1 & H2 & _ & H4).
  exists before, s, rest. split_and!; [exact H1|exact H2|exact H4].
Defined.

(** ** The DDMMYY branch *)

Lemma remove_char_fixed c l : Forall (λ a, a ≠ c) l → Str.remove_char c l = l.
Proof.
  unfold Str.remove_char. induction 1 as [|a l Ha _ IH]; [done|].
  rewrite filter_cons, decide_True by done. by rewrite IH.
Qed.

Lemma elem_of_remove_char c l a : a ∈ Str.remove_char c l ↔ a ≠ c ∧ a ∈ l.
Proof. unfold Str.remove_char. by rewrite list_elem_of_filter. Qed.

Lemma strip_separators_fixed s :
  strip_separators (Str.of_chars (strip_separators s)) = strip_separators s.
Proof.
  unfold strip_separators at 1. rewrite StrFacts.chars_of_chars.
  assert (Forall (λ a, a ≠ "/"%char ∧ a ≠ "-"%char ∧ a ≠ "."%char ∧ a ≠ " "%char)
                 (strip_separators s)) as Hsep.
  { apply Forall_forall. intros a. unfold strip_separators.
    rewrite !elem_of_remove_char. tauto. }
  rewrite (remove_char_fixed "/"%char (strip_separators s)).
  2:{ eapply Forall_impl; [exact Hsep|]. by intros a (? & _). }
  rewrite (remove_char_fixed "-"%char (strip_separators s)).
  2:{ eapply Forall_impl; [exact Hsep|]. by intros a (_ & ? & _). }
  rewrite (remove_char_fixed "."%char (strip_separators s)).
  2:{ eapply Forall_impl; [exact Hsep|]. by intros a (_ & _ & ? & _). }
  apply remove_char_fixed.
  eapply Forall_impl; [exact Hsep|]. by intros a (_ & _ & _ & ?).
Qed.

(** X18. The DDMMYY branch reads a string as it reads the string
    without its separators, and every date it returns is a calendar date
    of the years 1970 to 2069 in the ten-character ISO form. *)
Theorem ddmmyy_shape s :
  ddmmyy (Str.of_chars (strip_separators s)) = ddmmyy s ∧
  ∀ iso, ddmmyy s = Some iso →
    ∃ y m d, iso = Date.isoformat y m d ∧ (1970 ≤ y ≤ 2069)%N ∧
      (1 ≤ m ≤ 12)%N ∧ (1 ≤ d ≤ Date.days_in_month y m)%N ∧
      length (Str.chars iso) = 10.
Proof.
  split.
  - unfold ddmmyy. by rewrite strip_separators_fixed.
  - intros iso Hiso.
    destruct (decide (length (strip_separators s) = 6 ∧
                      forallb Str.is_digit (strip_separators s) = true)) as [[Hlen Hd]|Hno].
    2:{ by rewrite ddmmyy_otherwise in Hiso. }
    destruct (strip_separators s) as [|a [|b [|c [|d [|e [|f [|]]]]]]] eqn:Hs; try done.
    rewrite (ddmmyy_six_digits s a b c d e f Hs Hd) in Hiso.
    cbn [forallb] in Hd. rewrite !andb_true_iff in Hd.
    destruct Hd as (_ & _ & _ & _ & He & Hf & _).
    apply digit_value_lt in He, Hf.
    unfold ddmmyy_reading in Hiso. cbv zeta in Hiso.
    case_decide as Hvalid; [|done]. injection Hiso as <-.
    eexists _, _, _. split; [done|]. split_and!; try apply Hvalid.
    + case_decide; lia.
    + case_decide; lia.
    + unfold Date.isoformat. by rewrite StrFacts.chars_of_chars.
Qed.

(** ** The key of a normalised header *)

Lemma space_not_alnum a :
  Str.is_space a = true →
  negb (Str.is_alnum a) = true ∧ a ≠ "("%char ∧ a ≠ ")"%char.
Proof. by destruct a as [[] [] [] [] [] [] [] []]. Qed.

Lemma remove_char_cons c a l :
  Str.remove_char c (a :: l) =
    if decide (a = c) then Str.remove_char c l else a :: Str.remove_char c l.
Proof.
  unfold Str.remove_char. rewrite filter_cons. by repeat case_decide.
Qed.

(** Collapsing the runs of white space first does not change what the
    runs of characters outside [0-9A-Za-z] are replaced by. *)
Lemma sub_runs_collapsed rs rp l :
  (rs = true → rp = true) →
  Str.sub_runs (λ a, negb (Str.is_alnum a)) ["_"%char] rp
    (Str.remove_char ")"%char (Str.remove_char "("%char
       (Str.sub_runs Str.is_space [" "%char] rs l))) =
  Str.sub_runs (λ a, negb (Str.is_alnum a)) ["_"%char] rp
    (Str.remove_char ")"%char (Str.remove_char "("%char l)).
Proof.
  revert rs rp. induction l as [|a l IH]; intros rs rp Hinv; [done|].
  cbn [Str.sub_runs]. destruct (Str.is_space a) eqn:Hsp.
  - destruct (space_not_alnum a Hsp) as (Hal & Ho & Hc).
    rewrite (remove_char_cons "("%char a), decide_False by done.
    rewrite (remove_char_cons ")"%char a), decide_False by done.
    cbn [Str.sub_runs]. rewrite Hal.
    destruct rs.
    + rewrite (Hinv eq_refl). by apply IH.
    + cbn [app]. rewrite (remove_char_cons "("%char " "%char), decide_False by done.
      rewrite (remove_char_cons ")"%char " "%char), decide_False by done.
      cbn [Str.sub_runs]. cbn [Str.is_alnum Str.is_digit Str.is_upper Str.is_lower
                                Str.between nat_of_ascii negb].
      change (negb (Str.is_alnum " "%char)) with true. cbv iota.
      destruct rp; [by apply IH|]. cbn [app]. f_equal. by apply IH.
  - rewrite !(remove_char_cons "("%char a).
    destruct (decide (a = "("%char)) as [->|Ho]; [by apply IH|].
    rewrite !(remove_char_cons ")"%char a).
    destruct (decide (a = ")"%char)) as [->|Hc]; [by apply IH|].
    cbn [Str.sub_runs]. destruct (negb (Str.is_alnum a)).
    + destruct rp; [by apply IH|]. cbn [app]. f_equal. by apply IH.
    + f_equal. by apply IH.
Qed.

(** X19. The property key of a passthrough column is taken from the
    normalised header, and is the key of the header as it stands in the
    sheet: [snake (norm_col c) = snake c]. *)
Theorem snake_of_normalised_header c : snake (norm_col c) = snake c.
Proof.
  unfold snake, norm_col. rewrite StrFacts.chars_of_chars.
  rewrite (StrFacts.strip_by_fixed Str.is_space
             (Str.sub_runs Str.is_space [" "%char] false
                (Str.strip_by Str.is_space (Str.chars c)))).
  2:{ apply ColFacts.sub_runs_trimmed, StrFacts.strip_by_trimmed. }
  by rewrite sub_runs_collapsed.
Qed.

(** ** No duplicate relationships *)

(** Two relationships a [MERGE] of the loader takes for the same one:
    same ends and type, and for HAS_SKILL the same [type] property. *)
Definition same_link (w w' : edge) : Prop :=
  esrc w = esrc w' ∧ etype w = etype w' ∧ edst w = edst w' ∧
  (etype w = HAS_SKILL → eprops w !! "type" = eprops w' !! "type").

Definition unique_edges (es : list edge) : Prop :=
  ∀ i j w w', es !! i = Some w → es !! j = Some w' → same_link w w' → i = j.

(** The relationship patterns of the statements: HAS_SKILL is merged on
    its [type] property, the other types on nothing but the ends. *)
Definition fits (t : rel_type) (pat : option (string * value)) : Prop :=
  (t ≠ HAS_SKILL ∧ pat = None) ∨ (t = HAS_SKILL ∧ ∃ v, pat = Some ("type", v)).

Lemma same_link_created s t d pat w :
  fits t pat → same_link w (Edge s t d (pattern_props pat)) → edge_is s t d pat w = true.
Proof.
  intros Hfit (Hs & Ht & Hd & Hty). cbn in Hs, Ht, Hd, Hty. unfold edge_is.
  rewrite bool_decide_eq_true_2 by done. cbn [andb].
  destruct Hfit as [[_ ->]|[-> (v & ->)]]; [done|].
  apply bool_decide_eq_true. rewrite (Hty Ht). cbn. by rewrite lookup_singleton_eq.
Qed.

Lemma same_link_sym w w' : same_link w w' → same_link w' w.
Proof.
  intros (Hs & Ht & Hd & Hty). split_and!; [done..|].
  intros H. symmetry. apply Hty. congruence.
Qed.

Lemma merge_rel_unique s t d pat es :
  fits t pat → unique_edges es → unique_edges (merge_rel s t d pat es).1.
Proof.
  intros Hfit Hu. unfold merge_rel.
  destruct (find_all (edge_is s t d pat) es) as [|x xs] eqn:Hfind; [|done].
  cbn [fst]. intros i j w w' Hi Hj Hsame.
  assert (∀ k u, es !! k = Some u →
                 ¬ same_link u (Edge s t d (pattern_props pat))) as Hnew.
  { intros k u Hk Hl. apply (same_link_created _ _ _ _ _ Hfit) in Hl.
    assert (k ∈ find_all (edge_is s t d pat) es) as Hin
      by (apply elem_of_find_all; by exists u).
    rewrite Hfind in Hin. by apply elem_of_nil in Hin. }
  apply lookup_app_Some in Hi as [Hi|[Hil Hi]];
    apply lookup_app_Some in Hj as [Hj|[Hjl Hj]].
  - by eapply Hu.
  - apply list_lookup_singleton_Some in Hj as [_ <-]. by destruct (Hnew i w Hi).
  - apply list_lookup_singleton_Some in Hi as [_ <-].
    destruct (Hnew j w' Hj). by apply same_link_sym.
  - apply list_lookup_singleton_Some in Hi as [Hi _].
    apply list_lookup_singleton_Some in Hj as [Hj _]. lia.
Qed.

Lemma merge_links_unique t pat ts st :
  fits t pat → unique_edges st.1 → unique_edges (foldl (merge_link t pat) st ts).1.
Proof.
  intros Hfit. revert st. induction ts as [|b ts IH]; intros [es ws] Hu; [done|].
  cbn [foldl]. apply IH. unfold merge_link.
  pose proof (merge_rel_unique b.1.2 t b.2 pat es Hfit Hu) as Hstep.
  by destruct (merge_rel b.1.2 t b.2 pat es).
Qed.

Section UniqueEdges.

Context {cs : schema}.

Lemma link_unique_edges target l on_create t pat bs g g' ws :
  fits t pat → link target l on_create t pat bs g = Some (g', ws) →
  unique_edges (edges g) → unique_edges (edges g').
Proof.
  intros Hfit. unfold link.
  destruct (fold_rows _ _ bs) as [[ns ts]|]; [|done]. cbn [mbind option_bind].
  intros Hl Hu.
  pose proof (merge_links_unique t pat ts (edges g, []) Hfit Hu) as Hstep.
  destruct (foldl _ _ ts) as [es ws']. by injection Hl as <- <-.
Qed.

Lemma set_since_unique es b : unique_edges es → unique_edges (set_since es b).
Proof.
  intros Hu i j w w' Hi Hj Hsame. unfold set_since in Hi, Hj.
  assert (∀ k u, alter (map_eprops (coalesce_since b.1)) b.2 es !! k = Some u →
            ∃ u0, es !! k = Some u0 ∧ esrc u = esrc u0 ∧ etype u = etype u0 ∧
                  edst u = edst u0 ∧ eprops u !! "type" = eprops u0 !! "type") as Hback.
  { intros k u. destruct (decide (k = b.2)) as [->|Hne].
    - rewrite list_lookup_alter_eq.
      destruct (es !! b.2) as [u0|]; [|done]. intros [= <-]. exists u0.
      split_and!; [done..|]. cbn. by apply coalesce_since_other.
    - rewrite list_lookup_alter_ne by done. intros Hk'. by exists u. }
  destruct (Hback i w Hi) as (w0 & Hi0 & Hs & Ht & Hd & Hty).
  destruct (Hback j w' Hj) as (w0' & Hj0 & Hs' & Ht' & Hd' & Hty').
  apply (Hu i j w0 w0' Hi0 Hj0).
  destruct Hsame as (Ha & Hb & Hc & Hdd). split_and!; [congruence..|].
  intros H. rewrite <- Hty, <- Hty'. apply Hdd. congruence.
Qed.

Lemma foldl_set_since_unique ws es :
  unique_edges es → unique_edges (foldl set_since es ws).
Proof.
  revert es. induction ws as [|b ws IH]; intros es Hu; [done|].
  cbn [foldl]. by apply IH, set_since_unique.
Qed.

Lemma fits_plain t : t ≠ HAS_SKILL → fits t None.
Proof. by left. Qed.

Lemma fits_skill v : fits HAS_SKILL (Some ("type", v)).
Proof. right. split; [done|]. by exists v. Qed.

Lemma run_statement_unique_edges b s g g' :
  run_statement b s g = Some g' → unique_edges (edges g) → unique_edges (edges g').
Proof.
  destruct s; cbn [run_statement].
  - by intros ->%phase_employees_edges.
  - unfold phase_team. intros ([g1 ws] & Hl & ->)%fmap_Some.
    eapply link_unique_edges; [|exact Hl]. by apply fits_plain.
  - unfold phase_manager. intros ([g1 ws] & Hl & ->)%fmap_Some.
    eapply link_unique_edges; [|exact Hl]. by apply fits_plain.
  - unfold phase_lead. intros ([g1 ws] & Hl & ->)%fmap_Some.
    eapply link_unique_edges; [|exact Hl]. by apply fits_plain.
  - unfold phase_skills. rewrite foreach_link_eq by (done || apply plain_type).
    destruct (link primarySkill _ _ _ _ _ g) as [[g1 ws1]|] eqn:H1; [|done].
    cbn [fmap option_fmap option_map mbind option_bind fst].
    rewrite foreach_link_eq by (done || apply plain_type).
    intros ([g2 ws2] & H2 & ->)%fmap_Some Hu.
    eapply link_unique_edges; [|exact H2|]; [apply fits_skill|].
    eapply link_unique_edges; [|exact H1|done]. apply fits_skill.
  - unfold phase_projects.
    destruct (link project _ _ _ _ _ g) as [[g1 ws1]|] eqn:H1; [|done].
    cbn [mbind option_bind]. intros [= <-] Hu. cbn [edges].
    apply foldl_set_since_unique.
    eapply link_unique_edges; [|exact H1|done]. by apply fits_plain.
Qed.

Lemma run_statements_unique_edges b stmts dn g :
  unique_edges (edges g) →
  unique_edges (edges (reached (run_statements b stmts dn g))).
Proof.
  revert dn g. induction stmts as [|s stmts IH]; intros dn g Hu; cbn [run_statements];
    [exact Hu|].
  destruct (run_statement b s g) as [g'|] eqn:Hs; [|exact Hu].
  apply IH. by eapply run_statement_unique_edges.
Qed.

End UniqueEdges.

(** X20. A run of [upsert], completed or aborted, creates no duplicate
    relationship: when no two relationships of the graph have the same
    ends and type (and, for HAS_SKILL, the same [type] property) before
    the run, the same holds after it, on every batch. *)
Theorem upsert_keeps_unique_edges (g : database) b :
  unique_edges (edges g) → unique_edges (edges (store (upsert g b))).
Proof.
  intros Hu. destruct b as [|r b]; [exact Hu|].
  rewrite upsert_records. by apply run_statements_unique_edges.
Qed.

Lemma upsert_keeps_unique_edges_witness :
  unique_edges (edges (store (upsert apollo_store sample_batch))).
Proof.
  apply (upsert_keeps_unique_edges apollo_store sample_batch).
  intros [|i] [|j] w w' Hi Hj _; try done.
Defined.

(** ** Two columns for one field *)

Section LastColumn.

Variable to_datetime : bool → string → option string.

(** X21. When several headers of a sheet are aliases of the id (or of
    the name), the record takes the cell of the last such column, null
    included: a row whose last name column is empty is dropped, whatever
    the other name columns hold. *)
Theorem last_alias_column_wins cols1 cells1 c v cols2 cells2 :
  length cols1 = length cells1 →
  let r := build_row to_datetime (cols1 ++ c :: cols2) (cells1 ++ v :: cells2) in
  (inv !! norm_col c = Some emp_id →
   Forall (λ c, inv !! norm_col c ≠ Some emp_id) cols2 →
   empId r = norm_str v ∧ (norm_str v = None → keep r = false)) ∧
  (inv !! norm_col c = Some name_ →
   Forall (λ c, inv !! norm_col c ≠ Some name_) cols2 →
   name r = norm_str v ∧ (norm_str v = None → keep r = false)).
Proof.
  intros Hlen r. split; intros Hc Hcols.
  - pose proof (build_row_empId to_datetime _ _ _ v _ cells2 Hlen Hc Hcols) as Hid.
    fold r in Hid. split; [done|]. intros Hnone. unfold keep. by rewrite Hid, Hnone.
  - pose proof (build_row_name to_datetime _ _ _ v _ cells2 Hlen Hc Hcols) as Hname.
    fold r in Hname. split; [done|]. intros Hnone. unfold keep.
    rewrite Hname, Hnone. cbn. by rewrite andb_false_r.
Qed.

End LastColumn.

Lemma last_alias_column_wins_witness :
  keep (build_row strict_iso ["Emp Id"; "Emp Name"; "Name"]
          [Some "E1"; Some "Alice"; Some "  "]) = false.
Proof.
  destruct (last_alias_column_wins strict_iso ["Emp Id"; "Emp Name"] [Some "E1"; Some "Alice"]
              "Name" (Some "  ") [] [] eq_refl) as [_ H].
  apply H; [vm_compute; reflexivity|constructor|reflexivity].
Defined.

(** ** The nodes the name merges create *)

(** A node created for the name [field r] of a record: no node of the
    label had the name, and the node has the name and nothing else. *)
Definition named_by (field : rec → option string) (l : label) (b : list rec)
    (ns : list node) (n : node) : Prop :=
  ∃ r v, r ∈ b ∧ field r = Some v ∧ match_nodes l "name" (VStr v) ns = [] ∧
         n = Node l {[ "name" := VStr v ]}.

Section Named.

Context {cs : schema}.

Lemma link_named guard field l t pat b g g' ws :
  link field l no_create t pat (matched guard b (nodes g)) g = Some (g', ws) →
  ∃ new, nodes g' = nodes g ++ new ∧ Forall (named_by field l b (nodes g)) new.
Proof.
  intros (new & Hnew & Hall)%link_created. exists new. split; [done|].
  eapply Forall_impl; [exact Hall|]. intros n ([r e] & v & Hin & Hv & Hnone & ->).
  apply elem_of_matched in Hin as (Hr & _ & _). by exists r, v.
Qed.

Lemma named_by_app field l b ns mid n :
  named_by field l b (ns ++ mid) n → named_by field l b ns n.
Proof.
  intros (r & v & Hr & Hv & Hnone & ->). exists r, v. split_and!; [done..| |done].
  by eapply match_nodes_none_app.
Qed.

(** X22. The team, the skills and the project statement leave the nodes
    they find where they are and add only nodes named by a record of the
    batch: a Team, Skill or Project node for a name no node of the label
    had, carrying the name and no other property. *)
Theorem name_merges_create_named_nodes b g :
  (∀ g', phase_team b g = Some g' →
     ∃ new, nodes g' = nodes g ++ new ∧ Forall (named_by team Team b (nodes g)) new) ∧
  (∀ g', phase_skills b g = Some g' →
     ∃ new, nodes g' = nodes g ++ new ∧
       Forall (λ n, named_by primarySkill Skill b (nodes g) n ∨
                    named_by secondarySkill Skill b (nodes g) n) new) ∧
  (∀ g', phase_projects b g = Some g' →
     ∃ new, nodes g' = nodes g ++ new ∧ Forall (named_by project Project b (nodes g)) new).
Proof.
  split_and!.
  - intros g'. unfold phase_team. intros ([g1 ws] & Hl & ->)%fmap_Some.
    by eapply link_named.
  - intros g'. unfold phase_skills. rewrite foreach_link_eq by (done || apply plain_type).
    destruct (link primarySkill _ _ _ _ _ g) as [[g1 ws1]|] eqn:H1; [|done].
    cbn [fmap option_fmap option_map mbind option_bind fst].
    rewrite foreach_link_eq by (done || apply plain_type).
    intros ([g2 ws2] & H2 & ->)%fmap_Some. cbn [fst].
    apply link_named in H1 as (new1 & Hn1 & Hall1).
    apply link_created in H2 as (new2 & Hn2 & Hall2).
    exists (new1 ++ new2). split; [by rewrite Hn2, Hn1, app_assoc|].
    apply Forall_app. split.
    + eapply Forall_impl; [exact Hall1|]. intros n Hn. by left.
    + eapply Forall_impl; [exact Hall2|].
      intros n ([r e] & v & Hin & Hv & Hnone & ->). right.
      apply elem_of_matched in Hin as (Hr & _ & _).
      rewrite Hn1 in Hnone. apply match_nodes_none_app in Hnone. by exists r, v.
  - intros g'. unfold phase_projects.
    destruct (link project _ _ _ _ _ g) as [[g1 ws1]|] eqn:H1; [|done].
    cbn [mbind option_bind]. intros [= <-]. cbn [nodes]. by eapply link_named.
Qed.

End Named.

Lemma name_merges_create_named_nodes_witness :
  ∃ g' new, phase_team (cs := all_unique) sample_batch stored_alice = Some g' ∧
    nodes g' = nodes stored_alice ++ new ∧
    Forall (named_by team Team sample_batch (nodes stored_alice)) new ∧
    length new = 1.
Proof.
  destruct (phase_team (cs := all_unique) sample_batch stored_alice) as [g'|] eqn:H.
  - exists g'.
    destruct (name_merges_create_named_nodes (cs := all_unique) sample_batch stored_alice)
      as (Ht & _).
    destruct (Ht g' H) as (new & Hnew & Hall). exists new. split_and!; [done..|].
    vm_compute in H. injection H as <-. cbn [nodes] in Hnew.
    apply (f_equal length) in Hnew. rewrite length_app in Hnew. cbn in Hnew. lia.
  - vm_compute in H. discriminate H.
Defined.
